(** * Verification of the Sudoku solver (sudoku.py)

    A shallow embedding of [SudokuObject], [SudokuPencilMark] and
    [SudokuGA], followed by the properties of the specification about them.

    Conventions of the embedding:
    - the 2D list [_grid] is a [list (list Z)]: cells are Python integers,
      hence [Z]; coordinates come from [range(9)], hence [nat];
    - Python sets are [gset]s, list indexing is stdpp's [!!], [<[_:=_]>]
      and [alter];
    - the [random] module is an explicit stream of draws threaded through
      the genetic algorithm;
    - exceptions are the [Raise] case of a result type. *)

From Stdlib Require Import ZArith QArith Qround Lia Permutation.
From stdpp Require Import base list gmap sets.

Local Open Scope nat_scope.

(** ** Python results and exceptions *)

Inductive exn : Type :=
| IndexError            (* list index out of range, choice from an empty list *)
| ValueError            (* list.index without a match, oversized sample *)
| PopulationNotStable   (* Exception("Population is not stable ...") *)
| PopulationOdd         (* Exception("Sum of best selection ...") *)
| NoSolution.           (* Exception("Couldn't find a solution") *)

Inductive result (A : Type) : Type :=
| Ok (a : A)
| Raise (e : exn).
Arguments Ok {A} a.
Arguments Raise {A} e.

#[global] Instance result_ret : MRet result := λ A a, Ok a.
#[global] Instance result_bind : MBind result := λ A B f r,
  match r with Ok a => f a | Raise e => Raise e end.

(** A [for x in l] loop whose body may raise. *)
Fixpoint for_res {A B : Type} (l : list B) (body : A → B → result A) (a : A)
  : result A :=
  match l with
  | [] => Ok a
  | b :: l' => a' ← body a b; for_res l' body a'
  end.

(** Indexing a list of length [len] with a Python integer: a negative index
    counts from the end, anything else out of range raises. *)
Definition py_index (len : nat) (k : Z) : option nat :=
  if decide (0 ≤ k < Z.of_nat len)%Z then Some (Z.to_nat k)
  else if decide (- Z.of_nat len ≤ k < 0)%Z then Some (Z.to_nat (Z.of_nat len + k))
  else None.

(** Coordinates [(i, j)] and the 2D list [_grid]. *)
Abbreviation coord := (nat * nat)%type.
Abbreviation grid := (list (list Z)).

(** [range(9)] *)
Definition range9 : list nat := seq 0 9.

(** [for i in range(9): for j in range(9)], in this order. *)
Definition all_coords : list coord := i ← range9; j ← range9; [(i, j)].

(** The symbols, [range(1, 10)]. *)
Definition symbols : list Z := seqZ 1 9.

(** ** class SudokuObject *)

Module SudokuObject.

(** [for i, n in enumerate(sudoku_data): self._grid[i // 9].append(n)] *)
Fixpoint init_loop (i : nat) (sudoku_data : list Z) (g : grid) : result grid :=
  match sudoku_data with
  | [] => Ok g
  | n :: rest =>
      match g !! (i / 9) with
      | Some row => init_loop (S i) rest (<[i / 9 := row ++ [n]]> g)
      | None => Raise IndexError
      end
  end.

(** [__init__]: nine empty rows, then the loop. *)
Definition new (sudoku_data : list Z) : result grid :=
  init_loop 0 sudoku_data (replicate 9 []).

(** [self._grid[i][j]]. Every read of the program has [i], [j] from
    [range(9)] on a grid of nine rows of nine cells, where the lookup
    succeeds. *)
Definition cell (g : grid) (i j : nat) : Z :=
  default 0%Z (g !! i ≫= (.!! j)).

(** The accessors below are used on grids of nine rows of nine cells
    with [i], [j] from [range(9)] only; there no lookup fails. Where the
    source would raise IndexError (a missing row or a short row), they
    give the empty row or 0; no statement below relies on that. *)
Definition whatis_rowlist (g : grid) (i j : nat) : list Z :=
  default [] (g !! i).

Definition whatis_collist (g : grid) (i j : nat) : list Z :=
  (λ row, default 0%Z (row !! j)) <$> g.

(** [blk_startcoords = ((i // 3) * 3, (j // 3) * 3)] *)
Definition blk_startcoords (i j : nat) : coord := (i / 3 * 3, j / 3 * 3).

Definition whatis_blklist (g : grid) (i j : nat) : list Z :=
  blk_i ← seq (blk_startcoords i j).1 3;
  blk_j ← seq (blk_startcoords i j).2 3;
  [cell g blk_i blk_j].

(** [self._grid[i][j] = n] *)
Definition update (g : grid) (i j : nat) (n : Z) : grid :=
  alter (<[j := n]>) i g.

(** [rel_row = [(i, rel_j) for rel_j in range(9) if rel_j != j]] *)
Definition rel_row (i j : nat) : list coord :=
  (λ rel_j, (i, rel_j)) <$> filter (λ rel_j, rel_j ≠ j) range9.

(** [rel_col = [(rel_i, j) for rel_i in range(9) if rel_i != i]] *)
Definition rel_col (i j : nat) : list coord :=
  (λ rel_i, (rel_i, j)) <$> filter (λ rel_i, rel_i ≠ i) range9.

(** The two nested loops over the block, appending [(blk_i, blk_j)] when
    [blk_i != i and blk_j != j]. *)
Definition rel_blk (i j : nat) : list coord :=
  blk_i ← seq (blk_startcoords i j).1 3;
  blk_j ← seq (blk_startcoords i j).2 3;
  if decide (blk_i ≠ i ∧ blk_j ≠ j) then [(blk_i, blk_j)] else [].

(** [related = set(rel_row + rel_col + rel_blk)] *)
Definition related_coords (i j : nat) : gset coord :=
  list_to_set (rel_row i j ++ rel_col i j ++ rel_blk i j).

(** [copy]: the 81 cells in row-major order, then a new object. *)
Definition copy (g : grid) : result grid :=
  new (i ← range9; j ← range9; [cell g i j]).

End SudokuObject.

Import SudokuObject.

(** ** Vocabulary of the specification *)

(** A board: nine rows of nine cells. *)
Definition wf_grid (g : grid) : Prop :=
  length g = 9 ∧ Forall (λ row, length row = 9) g.

(** Cell values of a Board are in [0,9]. *)
Definition values_ok (g : grid) : Prop :=
  Forall (Forall (λ v, 0 ≤ v ≤ 9)%Z) g.

Definition same_block (c d : coord) : Prop :=
  c.1 / 3 = d.1 / 3 ∧ c.2 / 3 = d.2 / 3.

Definition shares_group (c d : coord) : Prop :=
  c.1 = d.1 ∨ c.2 = d.2 ∨ same_block c d.

#[global] Instance same_block_dec c d : Decision (same_block c d).
Proof. unfold same_block. apply _. Defined.

#[global] Instance shares_group_dec c d : Decision (shares_group c d).
Proof. unfold shares_group. apply _. Defined.

(** The reading of the specification of [relatedCells]: all coordinates of
    the board that share the row, the column or the block of [(i,j)],
    without [(i,j)] itself. *)
Definition spec_related (i j : nat) : gset coord :=
  list_to_set (filter (λ c, c ≠ (i, j) ∧ shares_group c (i, j)) all_coords).

(** A group (row, column or block) holds each symbol 1-9 exactly once. *)
Definition complete (group : list Z) : Prop :=
  ∀ n, (1 ≤ n ≤ 9)%Z → length (filter (λ v, v = n) group) = 1.

(** The reading of "under-covers two cells per block": two distinct cells of
    the block of [(i,j)], other than [(i,j)], that the returned set lacks. *)
Definition undercovers (i j : nat) : Prop :=
  ∃ c1 c2 : coord,
    c1 ≠ c2
    ∧ same_block c1 (i, j) ∧ c1 ≠ (i, j) ∧ (c1 ∉ related_coords i j)
    ∧ same_block c2 (i, j) ∧ c2 ≠ (i, j) ∧ (c2 ∉ related_coords i j).

(** ** class SudokuPencilMark *)

Module SudokuPencilMark.

(** [_possible_values_grid]: nine booleans per cell. *)
Abbreviation candidates := (list (list (list bool))).

(** [[[[True]*9]*9]*9], built by comprehensions: no row or vector is
    shared. *)
Definition fresh : candidates :=
  replicate 9 (replicate 9 (replicate 9 true)).

(** [self._possible_values_grid[x][y][k] = b], [k] a Python integer. *)
Definition set_flag (p : candidates) (x y : nat) (k : Z) (b : bool)
  : result candidates :=
  match p !! x ≫= (.!! y) with
  | Some flags =>
      match py_index (length flags) k with
      | Some k' => Ok (alter (alter (<[k' := b]>) y) x p)
      | None => Raise IndexError
      end
  | None => Raise IndexError
  end.

(** Body of the first double loop of [run], at cell [c]. *)
Definition constrain_cell (g : grid) (p : candidates) (c : coord)
  : result candidates :=
  let val := cell g c.1 c.2 in
  if decide (val ≠ 0%Z) then
    let p1 := alter (<[c.2 := replicate 9 false]>) c.1 p in
    p2 ← set_flag p1 c.1 c.2 (val - 1) true;
    for_res (elements (related_coords c.1 c.2))
            (λ p' rc, set_flag p' rc.1 rc.2 (val - 1) false) p2
  else Ok p.

(** One call of [self._sudoku.update] by [run]: where, what, the grid at
    the moment of the call and the grid the round started from. *)
Record write : Type := Write {
  w_coord : coord;
  w_value : Z;
  w_board : grid;
  w_round : grid
}.

(** [cell.count(True)] and [cell.index(True)] *)
Definition count_true (flags : list bool) : nat :=
  length (filter (λ b, b = true) flags).

Definition index_true (flags : list bool) : option nat :=
  fst <$> list_find (λ b, b = true) flags.

(** Body of the second double loop of [run], at cell [c]; the state is
    the grid, [values_found] and the calls of [update] so far. *)
Definition reveal_cell (p : candidates) (round : grid)
    (st : grid * nat * list write) (c : coord)
  : result (grid * nat * list write) :=
  let '(g, values_found, log) := st in
  let val := cell g c.1 c.2 in
  let flags := default [] (p !! c.1 ≫= (.!! c.2)) in
  if decide (count_true flags = 1 ∧ val = 0%Z) then
    match index_true flags with
    | Some k =>
        let n := (Z.of_nat k + 1)%Z in
        Ok (update g c.1 c.2 n, S values_found,
            log ++ [Write c n g round])
    | None => Raise ValueError
    end
  else Ok st.

Inductive outcome : Type :=
| Finished (g : grid) (log : list write)
| Failed (e : exn)
| OutOfFuel.

(** [while True: ...], one round per unit of fuel. *)
Fixpoint run_loop (fuel : nat) (g : grid) (p : candidates) (log : list write)
  : outcome :=
  match fuel with
  | 0 => OutOfFuel
  | S fuel' =>
      match for_res all_coords (constrain_cell g) p with
      | Raise e => Failed e
      | Ok p' =>
          match for_res all_coords (reveal_cell p' g) (g, 0, log) with
          | Raise e => Failed e
          | Ok (g', values_found, log') =>
              if decide (values_found = 0) then Finished g' log'
              else run_loop fuel' g' p' log'
          end
      end
  end.

(** [SudokuPencilMark(sudoku).run()] *)
Definition run (fuel : nat) (sudoku : grid) : outcome :=
  run_loop fuel sudoku fresh [].

End SudokuPencilMark.

(** ** class SudokuGA *)

Module SudokuGA.

(** *** The randomness source *)

Definition rng : Type := nat → nat.

(** Computations that draw random numbers and may raise. *)
Definition M (A : Type) : Type := rng → result (A * rng).

#[global] Instance M_ret : MRet M := λ A a r, Ok (a, r).
#[global] Instance M_bind : MBind M := λ A B f m r,
  match m r with Ok (a, r') => f a r' | Raise e => Raise e end.

Definition raise {A : Type} (e : exn) : M A := λ _, Raise e.

Definition lift {A : Type} (x : result A) : M A := λ r,
  match x with Ok a => Ok (a, r) | Raise e => Raise e end.

Definition draw : M nat := λ r, Ok (r 0, λ n, r (S n)).

Fixpoint for_each {A B : Type} (l : list B) (body : A → B → M A) (a : A)
  : M A :=
  match l with
  | [] => mret a
  | b :: l' => a' ← body a b; for_each l' body a'
  end.

(** [rd.randint(a, b)]: an integer of [a..b]. *)
Definition randint (a b : nat) : M nat :=
  d ← draw; mret (a + d mod (b - a + 1)).

(** [rd.choice(l)]: an element of [l]; IndexError on an empty list. *)
Definition choice {A : Type} (l : list A) : M A :=
  d ← draw;
  match l !! (d mod length l) with
  | Some x => mret x
  | None => raise IndexError
  end.

(** [rd.sample(population, k)]: [k] elements at distinct positions, in
    selection order; ValueError when the population is too small. *)
Fixpoint sample {A : Type} (population : list A) (k : nat) : M (list A) :=
  match k with
  | 0 => mret []
  | S k' =>
      d ← draw;
      let i := d mod length population in
      match population !! i with
      | Some x => rest ← sample (delete i population) k'; mret (x :: rest)
      | None => raise ValueError
      end
  end.

(** [rd.shuffle(l)]: the elements of [l] in a random order. *)
Definition shuffle {A : Type} (l : list A) : M (list A) :=
  sample l (length l).

(** *** Parameters set by [__init__] *)

Definition _best_select_perc : Q := 0.10.
Definition _rand_select_perc : Q := 0.10.
Definition _num_of_children : nat := 10.
Definition _population_size : nat := 1000.
Definition _mutation_perc : Q := 0.60.
Definition _mutation_max_num_cells : nat := 5.
Definition _max_cycles : nat := 100.
Definition _max_restart : nat := 5.

(** [int(perc * self._population_size)]. The float products of the
    source, 0.10 * 1000 and 0.60 * 1000, are exactly 100.0 and 600.0,
    as are the rational ones. *)
Definition int_of_share (perc : Q) : nat :=
  Z.to_nat (Qfloor (perc * inject_Z (Z.of_nat _population_size))).

Definition num_of_best : nat := int_of_share _best_select_perc.
Definition num_of_rand : nat := int_of_share _rand_select_perc.
Definition num_mutation : nat := int_of_share _mutation_perc.

(** The attributes of an instance that depend on the puzzle. *)
Record t : Type := Make {
  _fixed : list coord;
  _init_sudoku : grid
}.

(** [__init__]: the two checks of the parameters, then the coordinates of
    the non-zero cells. The float expression ((0.10 + 0.10) / 2) * 10 of
    the first check is exactly 1.0, as is the rational one. *)
Definition new (initialsudoku : grid) : result t :=
  if negb (Qeq_bool
             ((_best_select_perc + _rand_select_perc) / 2
              * inject_Z (Z.of_nat _num_of_children)) 1)
  then Raise PopulationNotStable
  else if decide (_population_size mod 2 ≠ 0) then Raise PopulationOdd
  else Ok (Make (filter (λ c, cell initialsudoku c.1 c.2 ≠ 0%Z) all_coords)
                initialsudoku).

(** *** _rand_fill_sudoku *)

(** [pos_values.remove(n)]: drops the first occurrence. *)
Fixpoint remove_first (n : Z) (l : list Z) : list Z :=
  match l with
  | [] => []
  | x :: l' => if decide (x = n) then l' else x :: remove_first n l'
  end.

(** Body of the loop over [j]; the state is the grid and [pos_values]. *)
Definition fill_cell (i : nat) (st : grid * list Z) (j : nat)
  : M (grid * list Z) :=
  if decide (cell st.1 i j = 0%Z) then
    n ← choice st.2;
    mret (update st.1 i j n, remove_first n st.2)
  else mret st.

(** Body of the loop over [i]. *)
Definition fill_row (g : grid) (i : nat) : M grid :=
  let pos_values := filter (λ n, n ∉ whatis_rowlist g i 0) symbols in
  st ← for_each range9 (fill_cell i) (g, pos_values);
  mret st.1.

Definition _rand_fill_sudoku (initsudoku : grid) : M grid :=
  for_each range9 fill_row initsudoku.

(** *** _fitness_filled_sudoku *)

(** [for n in range(1, 10): if n not in group: fitness += 1] *)
Definition absent (group : list Z) : Z :=
  Z.of_nat (length (filter (λ n, n ∉ group) symbols)).

Definition sumZ (l : list Z) : Z := foldr Z.add 0%Z l.

Definition rows_fitness (sudoku : grid) : Z :=
  sumZ ((λ i, absent (whatis_rowlist sudoku i 0)) <$> range9).

Definition cols_fitness (sudoku : grid) : Z :=
  sumZ ((λ j, absent (whatis_collist sudoku 0 j)) <$> range9).

(** [for i in range(0, 9, 3): for j in range(0, 9, 3)] *)
Definition blks_fitness (sudoku : grid) : Z :=
  sumZ (i ← [0; 3; 6]; j ← [0; 3; 6]; [absent (whatis_blklist sudoku i j)]).

Definition _fitness_filled_sudoku (sudoku : grid) : Z :=
  (rows_fitness sudoku + cols_fitness sudoku + blks_fitness sudoku)%Z.

(** *** _mutate *)

(** One iteration of the loop of [_mutate]. *)
Definition mutate_step (fixed : list coord) (sudoku : grid) (_ : nat)
  : M grid :=
  i ← randint 0 8;
  j1 ← randint 0 8;
  j2 ← randint 0 8;
  if decide (((i, j1) ∉ fixed) ∧ ((i, j2) ∉ fixed)) then
    let n := cell sudoku i j1 in
    let m := cell sudoku i j2 in
    mret (update (update sudoku i j1 m) i j2 n)
  else mret sudoku.

Definition _mutate (fixed : list coord) (sudoku : grid) : M grid :=
  for_each (seq 0 _mutation_max_num_cells) (mutate_step fixed) sudoku.

(** *** _generate_children *)

(** Body of the loop over the rows of one child. *)
Definition child_row (sudoku1 sudoku2 : grid) (child_list : list Z)
    (i : nat) : M (list Z) :=
  n ← randint 1 2;
  let child_list1 :=
    if decide (n = 1) then child_list ++ whatis_rowlist sudoku1 i 0
    else child_list in
  let child_list2 :=
    if decide (n = 2) then child_list1 ++ whatis_rowlist sudoku2 i 0
    else child_list1 in
  mret child_list2.

Definition make_child (sudoku1 sudoku2 : grid)
    (children_sudoku_list : list grid) (_ : nat) : M (list grid) :=
  child_list ← for_each range9 (child_row sudoku1 sudoku2) [];
  child ← lift (SudokuObject.new child_list);
  mret (children_sudoku_list ++ [child]).

Definition _generate_children (sudoku1 sudoku2 : grid) : M (list grid) :=
  for_each (seq 0 _num_of_children) (make_child sudoku1 sudoku2) [].

(** *** run *)

(** [population.sort(key=...)]: stable, ascending. *)
Fixpoint insert_by (key : grid → Z) (x : grid) (l : list grid) : list grid :=
  match l with
  | [] => [x]
  | y :: l' =>
      if decide (key x ≤ key y)%Z then x :: l else y :: insert_by key x l'
  end.

Definition sort_by (key : grid → Z) (l : list grid) : list grid :=
  foldr (insert_by key) [] l.

(** The first random population. *)
Definition init_population (self : t) : M (list grid) :=
  for_each (seq 0 _population_size)
    (λ population _,
       new_sudoku ← lift (copy (_init_sudoku self));
       filled ← _rand_fill_sudoku new_sudoku;
       mret (population ++ [filled]))
    [].

(** Selection of the parents, shuffled. *)
Definition select_parents (population : list grid) : M (list grid) :=
  let parents_list := take num_of_best population in
  sampled ← sample (drop num_of_best population) num_of_rand;
  shuffle (parents_list ++ sampled).

(** [for i in range(0, len(parents_list), 2)]: consecutive pairs;
    [parents_list[i+1]] raises when a parent is left over. *)
Fixpoint breed (parents_list : list grid) : M (list grid) :=
  match parents_list with
  | [] => mret []
  | [_] => raise IndexError
  | p1 :: p2 :: rest =>
      children ← _generate_children p1 p2;
      more ← breed rest;
      mret (children ++ more)
  end.

(** [for child in rd.sample(children_list, num_mutation): _mutate(child)].
    The sample holds references into [children_list]: the positions are
    sampled and the children mutated in place. *)
Definition mutate_some (fixed : list coord) (children_list : list grid)
  : M (list grid) :=
  picked ← sample (seq 0 (length children_list)) num_mutation;
  for_each picked
    (λ cs idx,
       match cs !! idx with
       | Some child =>
           child' ← _mutate fixed child; mret (<[idx := child']> cs)
       | None => raise IndexError
       end)
    children_list.

(** Selection, breeding and mutation of one cycle, from the sorted
    population. *)
Definition next_generation (self : t) (population : list grid)
  : M (list grid) :=
  parents_list ← select_parents population;
  children_list ← breed parents_list;
  mutate_some (_fixed self) children_list.

(** How the loop over the cycles ends. *)
Inductive loop_exit : Type :=
| Return (solution : grid)
| Fallthrough (r : rng)
| Raised (e : exn).

(** [for _ in range(self._max_cycles)]. Next to the exit, the function
    gives the populations of the loop in order: each one after the sort,
    and each new child list once it replaces the population. *)
Fixpoint cycles (self : t) (n : nat) (population : list grid) (r : rng)
  : list (list grid) * loop_exit :=
  match n with
  | 0 => ([], Fallthrough r)
  | S n' =>
      let sorted := sort_by _fitness_filled_sudoku population in
      match sorted !! 0 with
      | None => ([sorted], Raised IndexError)
      | Some best =>
          if decide (_fitness_filled_sudoku best = 0%Z)
          then ([sorted], Return best)
          else
            match next_generation self sorted r with
            | Raise e => ([sorted], Raised e)
            | Ok (children_list, r') =>
                let '(pops, ex) := cycles self n' children_list r' in
                (sorted :: children_list :: pops, ex)
            end
      end
  end.

(** [for _ in range(self._max_restart)], then the final [raise]. *)
Fixpoint restarts (self : t) (n : nat) (r : rng)
  : list (list grid) * result grid :=
  match n with
  | 0 => ([], Raise NoSolution)
  | S n' =>
      match init_population self r with
      | Raise e => ([], Raise e)
      | Ok (population, r1) =>
          match cycles self _max_cycles population r1 with
          | (pops, Return solution) => (population :: pops, Ok solution)
          | (pops, Raised e) => (population :: pops, Raise e)
          | (pops, Fallthrough r2) =>
              let '(pops', res) := restarts self n' r2 in
              (population :: pops ++ pops', res)
          end
      end
  end.

(** [run(info=False)]: the populations met, and the value returned or
    the exception raised. *)
Definition run (self : t) (r : rng) : list (list grid) * result grid :=
  restarts self _max_restart r.

End SudokuGA.

(** ** Vocabulary of the specification, continued *)

Import SudokuGA.

(** Every row, column and block holds each symbol exactly once. *)
Definition solved (g : grid) : Prop :=
  (∀ i, i < 9 → complete (whatis_rowlist g i 0))
  ∧ (∀ j, j < 9 → complete (whatis_collist g 0 j))
  ∧ (∀ i j, i < 9 → j < 9 → complete (whatis_blklist g i j)).

(** Every row holds each symbol exactly once. *)
Definition rows_complete (g : grid) : Prop :=
  ∀ i, i < 9 → complete (whatis_rowlist g i 0).

(** A row of a Board in which no non-zero value is repeated. *)
Definition row_ok (row : list Z) : Prop :=
  Forall (λ v, 0 ≤ v ≤ 9)%Z row ∧ NoDup (filter (λ v, v ≠ 0%Z) row).

(** [g'] keeps every non-zero cell of [g]. *)
Definition keeps_clues (g g' : grid) : Prop :=
  ∀ i j, cell g i j ≠ 0%Z → cell g' i j = cell g i j.

(** Invariant of the loop of [fill_row] over [j], for row [i] of the grid
    [g] the call started from: the state is the grid and [pos_values]. *)
Definition fill_inv (g : grid) (i j : nat) (st : grid * list Z) : Prop :=
  let row' := whatis_rowlist st.1 i 0 in
  wf_grid st.1
  ∧ (∀ i', i' ≠ i → whatis_rowlist st.1 i' 0 = whatis_rowlist g i' 0)
  ∧ (∀ j', cell g i j' ≠ 0%Z → cell st.1 i j' = cell g i j')
  ∧ length (filter (λ v, v = 0%Z) row') ≤ length st.2
  ∧ Forall (λ n, n ∈ symbols) st.2
  ∧ (∀ j', j' < j → cell st.1 i j' ≠ 0%Z)
  ∧ (row_ok (whatis_rowlist g i 0) →
       Forall (λ v, 0 ≤ v ≤ 9)%Z row'
       ∧ NoDup (filter (λ v, v ≠ 0%Z) row')
       ∧ NoDup st.2
       ∧ ∀ n, n ∈ st.2 ↔ n ∈ symbols ∧ n ∉ row').

(** [child] is a board whose every row is the same row of one of the two
    parents. *)
Definition crossed (sudoku1 sudoku2 child : grid) : Prop :=
  wf_grid child
  ∧ ∀ i, i < 9 →
      whatis_rowlist child i 0 = whatis_rowlist sudoku1 i 0
      ∨ whatis_rowlist child i 0 = whatis_rowlist sudoku2 i 0.

(** Whatever the draws, [m] returns (it does not raise) and the value
    returned satisfies [Q]. *)
Definition returns {A : Type} (m : M A) (Q : A → Prop) : Prop :=
  ∀ r : rng, ∃ a r', m r = Ok (a, r') ∧ Q a.

(** The swap of the values of two cells of row [i], as [_mutate] does it. *)
Definition swap_cells (g : grid) (s : nat * nat * nat) : grid :=
  let '(i, j1, j2) := s in
  update (update g i j1 (cell g i j2)) i j2 (cell g i j1).

(** A swap that [_mutate] may perform: on the board, off the fixed cells. *)
Definition free_swap (fixed : list coord) (s : nat * nat * nat) : Prop :=
  let '(i, j1, j2) := s in
  i < 9 ∧ j1 < 9 ∧ j2 < 9 ∧ ((i, j1) ∉ fixed) ∧ ((i, j2) ∉ fixed).

(** The puzzle at the end of the source file. *)
Definition testdoku : list Z :=
  [0; 8; 0; 0; 0; 0; 0; 9; 0;
   0; 0; 7; 5; 0; 2; 8; 0; 0;
   6; 0; 0; 8; 0; 7; 0; 0; 5;
   3; 7; 0; 0; 8; 0; 0; 5; 1;
   2; 0; 0; 0; 0; 0; 0; 0; 8;
   9; 5; 0; 0; 4; 0; 0; 3; 2;
   8; 0; 0; 1; 0; 4; 0; 0; 9;
   0; 0; 1; 9; 0; 3; 6; 0; 0;
   0; 4; 0; 0; 0; 0; 0; 2; 0]%Z.

Definition testgrid : grid :=
  [[0; 8; 0; 0; 0; 0; 0; 9; 0];
   [0; 0; 7; 5; 0; 2; 8; 0; 0];
   [6; 0; 0; 8; 0; 7; 0; 0; 5];
   [3; 7; 0; 0; 8; 0; 0; 5; 1];
   [2; 0; 0; 0; 0; 0; 0; 0; 8];
   [9; 5; 0; 0; 4; 0; 0; 3; 2];
   [8; 0; 0; 1; 0; 4; 0; 0; 9];
   [0; 0; 1; 9; 0; 3; 6; 0; 0];
   [0; 4; 0; 0; 0; 0; 0; 2; 0]]%Z.

(** An individual of a run on the input board [b]: a board that keeps the
    clues of [b]; and a population of such a run. *)
Definition individual_of (b g : grid) : Prop :=
  wf_grid g ∧ keeps_clues b g.

Definition population_of (b : grid) (population : list grid) : Prop :=
  length population = _population_size
  ∧ Forall (individual_of b) population.

(** Two clues of one row hold the same value. *)
Definition has_row_duplicate (b : grid) : Prop :=
  ∃ i j1 j2, i < 9 ∧ j1 < j2 < 9
             ∧ cell b i j1 ≠ 0%Z ∧ cell b i j1 = cell b i j2.

(** A board with the value 1 twice among the clues of row 0. *)
Definition dupgrid : grid :=
  [[1; 1; 0; 0; 0; 0; 0; 0; 0];
   [0; 0; 0; 0; 0; 0; 0; 0; 0];
   [0; 0; 0; 0; 0; 0; 0; 0; 0];
   [0; 0; 0; 0; 0; 0; 0; 0; 0];
   [0; 0; 0; 0; 0; 0; 0; 0; 0];
   [0; 0; 0; 0; 0; 0; 0; 0; 0];
   [0; 0; 0; 0; 0; 0; 0; 0; 0];
   [0; 0; 0; 0; 0; 0; 0; 0; 0];
   [0; 0; 0; 0; 0; 0; 0; 0; 0]]%Z.

(** A solved board. *)
Definition solvedgrid : grid :=
  [[1; 2; 3; 4; 5; 6; 7; 8; 9];
   [4; 5; 6; 7; 8; 9; 1; 2; 3];
   [7; 8; 9; 1; 2; 3; 4; 5; 6];
   [2; 3; 4; 5; 6; 7; 8; 9; 1];
   [5; 6; 7; 8; 9; 1; 2; 3; 4];
   [8; 9; 1; 2; 3; 4; 5; 6; 7];
   [3; 4; 5; 6; 7; 8; 9; 1; 2];
   [6; 7; 8; 9; 1; 2; 3; 4; 5];
   [9; 1; 2; 3; 4; 5; 6; 7; 8]]%Z.

(** ** Vocabulary for the pencil marks *)

Module PM := SudokuPencilMark.

(** [self._possible_values_grid[x][y]] *)
Definition flags_at (p : list (list (list bool))) (x y : nat) : list bool :=
  default [] (p !! x ≫= (.!! y)).

(** Nine rows of nine vectors of nine booleans. *)
Definition wf_cands (p : list (list (list bool))) : Prop :=
  length p = 9
  ∧ Forall (λ r, length r = 9 ∧ Forall (λ f : list bool, length f = 9) r) p.

(** A Board of the specification: 9x9, cells in [0,9]. *)
Definition valid_board (g : grid) : Prop := wf_grid g ∧ values_ok g.

(** The fixed cell [c] of [g] clears flag [m] of the cell [(x,y)]. *)
Definition clears (g : grid) (x y m : nat) (c : coord) : Prop :=
  cell g c.1 c.2 ≠ 0%Z
  ∧ (x, y) ∈ related_coords c.1 c.2
  ∧ Z.to_nat (cell g c.1 c.2 - 1) = m.

#[global] Instance clears_dec g x y m c : Decision (clears g x y m c).
Proof. unfold clears. apply _. Defined.

Definition cleared (g : grid) (cs : list coord) (x y m : nat) : Prop :=
  Exists (clears g x y m) cs.

(** Invariant of the rounds of [run]: a flag of an unknown cell is down
    only if a fixed cell of the board clears it. *)
Definition cands_inv (g : grid) (p : list (list (list bool))) : Prop :=
  wf_cands p
  ∧ ∀ x y m, x < 9 → y < 9 → m < 9 → cell g x y = 0%Z →
      flags_at p x y !! m ≠ Some true → cleared g all_coords x y m.

(** The second double loop has nothing to write. *)
Definition quiet (g : grid) (p : list (list (list bool))) (cs : list coord)
  : Prop :=
  ∀ c, c ∈ cs →
    ¬ (PM.count_true (flags_at p c.1 c.2) = 1 ∧ cell g c.1 c.2 = 0%Z).

(** The unknown cells of a board. *)
Definition unknowns (g : grid) : list coord :=
  filter (λ c : coord, cell g c.1 c.2 = 0%Z) all_coords.

(** What the second double loop guarantees of a call of [update], given
    the flags [p] it reads and the grid [g0] it started from. *)
Definition raw_write (p : list (list (list bool))) (g0 : grid) (w : PM.write)
  : Prop :=
  PM.w_round w = g0
  ∧ (PM.w_coord w).1 < 9 ∧ (PM.w_coord w).2 < 9
  ∧ wf_grid (PM.w_board w)
  ∧ keeps_clues g0 (PM.w_board w)
  ∧ cell (PM.w_board w) (PM.w_coord w).1 (PM.w_coord w).2 = 0%Z
  ∧ ∃ k, flags_at p (PM.w_coord w).1 (PM.w_coord w).2 !! k = Some true
         ∧ PM.w_value w = (Z.of_nat k + 1)%Z.

(** A call of [update] is sound with respect to the round it belongs to:
    it writes a symbol into a cell that holds 0 at the moment of the call,
    on a grid that still has all the values the round started with, and
    the symbol differs from the value that every other cell of the row,
    the column and the block held when the round started. *)
Definition sound_write (w : PM.write) : Prop :=
  (PM.w_coord w).1 < 9 ∧ (PM.w_coord w).2 < 9
  ∧ cell (PM.w_board w) (PM.w_coord w).1 (PM.w_coord w).2 = 0%Z
  ∧ (1 ≤ PM.w_value w ≤ 9)%Z
  ∧ keeps_clues (PM.w_round w) (PM.w_board w)
  ∧ ∀ c : coord, c.1 < 9 → c.2 < 9 → c ≠ PM.w_coord w →
      shares_group c (PM.w_coord w) →
      cell (PM.w_round w) c.1 c.2 ≠ PM.w_value w.

(** The reading of C4 as stated: the symbol differs from every non-zero
    value that the row, the column and the block hold at the moment of the
    call. *)
Definition sound_at_call (w : PM.write) : Prop :=
  cell (PM.w_board w) (PM.w_coord w).1 (PM.w_coord w).2 = 0%Z
  ∧ ∀ c : coord, c.1 < 9 → c.2 < 9 → c ≠ PM.w_coord w →
      shares_group c (PM.w_coord w) →
      cell (PM.w_board w) c.1 c.2 ≠ 0%Z →
      cell (PM.w_board w) c.1 c.2 ≠ PM.w_value w.

(** A board without any repeated value in a row, column or block, on
    which the cells (0,4) and (0,5) can both only hold 5. *)
Definition twincell : grid :=
  [[1; 2; 3; 4; 0; 0; 6; 7; 8];
   [0; 0; 0; 0; 0; 0; 0; 0; 0];
   [0; 0; 0; 0; 0; 0; 0; 0; 0];
   [0; 0; 0; 0; 9; 0; 0; 0; 0];
   [0; 0; 0; 0; 0; 0; 0; 0; 0];
   [0; 0; 0; 0; 0; 0; 0; 0; 0];
   [0; 0; 0; 0; 0; 9; 0; 0; 0];
   [0; 0; 0; 0; 0; 0; 0; 0; 0];
   [0; 0; 0; 0; 0; 0; 0; 0; 0]]%Z.

(** ** Vocabulary for solvable boards *)

(** The call [w] of [update] writes, into a cell that holds 0, the value
    that the solved board [s] has there, on a grid that agrees with [s]
    wherever it is filled. *)
Definition follows (s : grid) (w : PM.write) : Prop :=
  (PM.w_coord w).1 < 9 ∧ (PM.w_coord w).2 < 9
  ∧ wf_grid (PM.w_board w)
  ∧ keeps_clues (PM.w_board w) s
  ∧ cell (PM.w_board w) (PM.w_coord w).1 (PM.w_coord w).2 = 0%Z
  ∧ PM.w_value w = cell s (PM.w_coord w).1 (PM.w_coord w).2.

(** The flag of the value of the solved board [s] is up in every cell
    that [g] leaves unknown. *)
Definition solution_up (s g : grid) (p : list (list (list bool))) : Prop :=
  ∀ x y, x < 9 → y < 9 → cell g x y = 0%Z →
    flags_at p x y !! Z.to_nat (cell s x y - 1) = Some true.

(** The solution of the puzzle at the end of the source file. *)
Definition testsolution : grid :=
  [[1; 8; 5; 4; 3; 6; 2; 9; 7];
   [4; 3; 7; 5; 9; 2; 8; 1; 6];
   [6; 9; 2; 8; 1; 7; 3; 4; 5];
   [3; 7; 6; 2; 8; 9; 4; 5; 1];
   [2; 1; 4; 3; 7; 5; 9; 6; 8];
   [9; 5; 8; 6; 4; 1; 7; 3; 2];
   [8; 6; 3; 1; 2; 4; 5; 7; 9];
   [7; 2; 1; 9; 5; 3; 6; 8; 4];
   [5; 4; 9; 7; 6; 8; 1; 2; 3]]%Z.

(** ** Vocabulary for input that is no Board *)

(** The slices [data[0:9]], [data[9:18]], ..., [data[72:81]]. *)
Definition rows_of (data : list Z) : grid :=
  (λ k, take 9 (drop (9 * k) data)) <$> seq 0 9.

(** Every cell value [val] makes [val-1] an index that Python accepts on a
    vector of nine flags, that is, one from -9 to 8. *)
Definition indexable (g : grid) : Prop :=
  ∀ i j, i < 9 → j < 9 → (-8 ≤ cell g i j ≤ 9)%Z.

(** * Properties *)

(** ** Related coordinates *)

Lemma elem_of_range9 (n : nat) : n ∈ range9 ↔ n < 9.
Proof. unfold range9. rewrite elem_of_seq. lia. Qed.

Lemma elem_of_all_coords (c : coord) : c ∈ all_coords ↔ c.1 < 9 ∧ c.2 < 9.
Proof.
  unfold all_coords. destruct c as [x y]. cbn [fst snd].
  rewrite list_elem_of_bind. split.
  - intros (i & Hc & Hi). apply list_elem_of_bind in Hc as (j & Hc & Hj).
    apply list_elem_of_singleton in Hc. inversion Hc; subst.
    by rewrite <- !elem_of_range9.
  - intros [Hx Hy]. exists x. rewrite elem_of_range9. split; [|done].
    apply list_elem_of_bind. exists y. rewrite elem_of_range9.
    split; [|done]. by apply list_elem_of_singleton.
Qed.

Lemma elem_of_rel_row (i j : nat) (c : coord) :
  c ∈ rel_row i j ↔ c.1 = i ∧ c.2 < 9 ∧ c.2 ≠ j.
Proof.
  unfold rel_row. rewrite list_elem_of_fmap. split.
  - intros (y & -> & Hy). apply list_elem_of_filter in Hy as [Hne Hy].
    apply elem_of_range9 in Hy. done.
  - destruct c as [x y]. simpl. intros (-> & Hy & Hne). exists y.
    split; [done|]. apply list_elem_of_filter. by rewrite elem_of_range9.
Qed.

Lemma elem_of_rel_col (i j : nat) (c : coord) :
  c ∈ rel_col i j ↔ c.2 = j ∧ c.1 < 9 ∧ c.1 ≠ i.
Proof.
  unfold rel_col. rewrite list_elem_of_fmap. split.
  - intros (x & -> & Hx). apply list_elem_of_filter in Hx as [Hne Hx].
    apply elem_of_range9 in Hx. done.
  - destruct c as [x y]. simpl. intros (-> & Hx & Hne). exists x.
    split; [done|]. apply list_elem_of_filter. by rewrite elem_of_range9.
Qed.

Lemma block_range (n m : nat) : n / 3 * 3 ≤ m < n / 3 * 3 + 3 ↔ m / 3 = n / 3.
Proof.
  pose proof (Nat.div_mod_eq n 3). pose proof (Nat.mod_upper_bound n 3).
  pose proof (Nat.div_mod_eq m 3). pose proof (Nat.mod_upper_bound m 3).
  lia.
Qed.

Lemma elem_of_rel_blk (i j : nat) (c : coord) :
  c ∈ rel_blk i j ↔ same_block c (i, j) ∧ c.1 ≠ i ∧ c.2 ≠ j.
Proof.
  unfold rel_blk, same_block, blk_startcoords. destruct c as [x y].
  cbn [fst snd]. rewrite list_elem_of_bind. split.
  - intros (bi & Hc & Hbi). apply list_elem_of_bind in Hc as (bj & Hc & Hbj).
    apply elem_of_seq in Hbi, Hbj.
    destruct (decide (bi ≠ i ∧ bj ≠ j)) as [[Hi Hj]|]; [|by inversion Hc].
    apply list_elem_of_singleton in Hc. inversion Hc; subst.
    rewrite <- !block_range. lia.
  - intros ([Hx Hy] & Hi & Hj). apply block_range in Hx, Hy.
    exists x. split; [|apply elem_of_seq; lia].
    apply list_elem_of_bind. exists y. split; [|apply elem_of_seq; lia].
    rewrite decide_True by done. by apply list_elem_of_singleton.
Qed.

Lemma same_block_bound (c : coord) (i j : nat) :
  i < 9 → j < 9 → same_block c (i, j) → c.1 < 9 ∧ c.2 < 9.
Proof.
  unfold same_block. destruct c as [x y]. cbn [fst snd]. intros Hi Hj [Hx Hy].
  pose proof (Nat.div_mod_eq i 3). pose proof (Nat.mod_upper_bound i 3).
  pose proof (Nat.div_mod_eq j 3). pose proof (Nat.mod_upper_bound j 3).
  pose proof (Nat.div_mod_eq x 3). pose proof (Nat.mod_upper_bound x 3).
  pose proof (Nat.div_mod_eq y 3). pose proof (Nat.mod_upper_bound y 3).
  lia.
Qed.

(** Membership in the returned set, for a coordinate of the board. *)
Lemma elem_of_related_coords (i j : nat) (c : coord) :
  i < 9 → j < 9 →
  c ∈ related_coords i j ↔
  c.1 < 9 ∧ c.2 < 9 ∧ c ≠ (i, j) ∧ shares_group c (i, j).
Proof.
  intros Hi Hj. unfold related_coords, shares_group.
  rewrite elem_of_list_to_set, !elem_of_app.
  rewrite elem_of_rel_row, elem_of_rel_col, elem_of_rel_blk.
  destruct c as [x y]. cbn [fst snd]. split.
  - intros [(-> & Hy & Hne)|[(-> & Hx & Hne)|(Hb & Hx & Hy)]].
    + repeat split; [done..| |by left]. intros [=]. done.
    + repeat split; [done..| |by right; left]. intros [=]. done.
    + destruct (same_block_bound (x, y) i j Hi Hj Hb) as [Hx9 Hy9].
      cbn [fst snd] in *. repeat split; [done..| |by right; right].
      intros [=]. done.
  - intros (Hx & Hy & Hne & Hg).
    destruct (decide (x = i)) as [->|Hxi].
    { left. repeat split; [done|]. intros ->. done. }
    destruct (decide (y = j)) as [->|Hyj].
    { right; left. done. }
    right; right. destruct Hg as [?|[?|Hb]]; done.
Qed.

(** C1. For every coordinate (i,j) of the board, [related_coords i j] is
    exactly the set of the coordinates that share row i, column j or the
    block of (i,j), without (i,j) itself. *)
Theorem related_coords_spec (i j : nat) :
  i < 9 → j < 9 → related_coords i j = spec_related i j.
Proof.
  intros Hi Hj. apply set_eq. intros c.
  rewrite elem_of_related_coords by done. unfold spec_related.
  rewrite elem_of_list_to_set, list_elem_of_filter, elem_of_all_coords.
  tauto.
Qed.

Lemma related_coords_spec_witness :
  4 < 9 ∧ 4 < 9 ∧ related_coords 4 4 = spec_related 4 4.
Proof.
  split; [lia|]. split; [lia|]. apply (related_coords_spec 4 4); lia.
Defined.

(** Every other cell of the block is in the returned set. *)
Lemma block_mate_related (i j : nat) (c : coord) :
  i < 9 → j < 9 → same_block c (i, j) → c ≠ (i, j) → c ∈ related_coords i j.
Proof.
  intros Hi Hj Hb Hne. apply elem_of_related_coords; [done..|].
  destruct (same_block_bound c i j Hi Hj Hb) as [Hx Hy].
  repeat split; [done..|]. by right; right.
Qed.

(** C2, as stated, fails at (0,0): no two cells of the block are missing. *)
Lemma undercovers_counterexample : ¬ undercovers 0 0.
Proof.
  intros (c1 & c2 & _ & Hb & Hne & Hnot & _).
  apply Hnot. apply block_mate_related; [lia..|done|done].
Qed.

(** C2, amended. For every coordinate (i,j) of the board, every cell of the
    block of (i,j) other than (i,j) belongs to [related_coords i j]; the
    list [rel_blk] alone holds exactly the cells of the block that differ
    from (i,j) in both row and column, and the cells of the block it skips
    are in [rel_row] or [rel_col]. *)
Theorem block_fully_related (i j : nat) :
  i < 9 → j < 9 →
  (∀ c, same_block c (i, j) → c ≠ (i, j) → c ∈ related_coords i j)
  ∧ (∀ c, c ∈ rel_blk i j ↔ same_block c (i, j) ∧ c.1 ≠ i ∧ c.2 ≠ j)
  ∧ (∀ c, same_block c (i, j) → c ≠ (i, j) → c ∉ rel_blk i j →
          c ∈ rel_row i j ∨ c ∈ rel_col i j).
Proof.
  intros Hi Hj. split; [|split].
  - intros c. by apply block_mate_related.
  - intros c. apply elem_of_rel_blk.
  - intros c Hb Hne Hnot.
    destruct (same_block_bound c i j Hi Hj Hb) as [Hx Hy].
    rewrite elem_of_rel_blk in Hnot. rewrite elem_of_rel_row, elem_of_rel_col.
    destruct c as [x y]. cbn [fst snd] in *.
    destruct (decide (x = i)) as [->|Hxi].
    + left. repeat split; [done|]. intros ->. done.
    + destruct (decide (y = j)) as [->|Hyj]; [by right|]. exfalso. by apply Hnot.
Qed.

Lemma block_fully_related_witness :
  4 < 9 ∧ 4 < 9 ∧
  (∀ c, same_block c (4, 4) → c ≠ (4, 4) → c ∈ related_coords 4 4)
  ∧ (∀ c, c ∈ rel_blk 4 4 ↔ same_block c (4, 4) ∧ c.1 ≠ 4 ∧ c.2 ≠ 4)
  ∧ (∀ c, same_block c (4, 4) → c ≠ (4, 4) → c ∉ rel_blk 4 4 →
          c ∈ rel_row 4 4 ∨ c ∈ rel_col 4 4).
Proof.
  split; [lia|]. split; [lia|]. apply (block_fully_related 4 4); lia.
Defined.

(** ** Grids *)

Lemma wf_grid_row (g : grid) (i : nat) :
  wf_grid g → i < 9 → ∃ row, g !! i = Some row ∧ length row = 9.
Proof.
  intros [Hlen Hrows] Hi.
  destruct (lookup_lt_is_Some_2 g i) as [row Hrow]; [lia|].
  exists row. split; [done|]. by eapply Forall_lookup_1 in Hrows.
Qed.

Lemma length_whatis_rowlist (g : grid) (i j : nat) :
  wf_grid g → i < 9 → length (whatis_rowlist g i j) = 9.
Proof.
  intros Hwf Hi. destruct (wf_grid_row g i Hwf Hi) as (row & Hrow & Hlen).
  unfold whatis_rowlist. by rewrite Hrow.
Qed.

Lemma length_whatis_collist (g : grid) (i j : nat) :
  wf_grid g → length (whatis_collist g i j) = 9.
Proof. intros [Hlen _]. unfold whatis_collist. by rewrite length_fmap. Qed.

Lemma length_whatis_blklist (g : grid) (i j : nat) :
  length (whatis_blklist g i j) = 9.
Proof. reflexivity. Qed.

Lemma blk_startcoords_cases (n : nat) :
  n < 9 → n / 3 * 3 = 0 ∨ n / 3 * 3 = 3 ∨ n / 3 * 3 = 6.
Proof.
  intros Hn. pose proof (Nat.div_mod_eq n 3).
  pose proof (Nat.mod_upper_bound n 3). lia.
Qed.

Lemma blk_startcoords_idem (n : nat) : n / 3 * 3 / 3 * 3 = n / 3 * 3.
Proof. by rewrite Nat.div_mul. Qed.

Lemma whatis_blklist_anchor (g : grid) (i j : nat) :
  whatis_blklist g i j = whatis_blklist g (i / 3 * 3) (j / 3 * 3).
Proof.
  unfold whatis_blklist, blk_startcoords. cbn [fst snd].
  by rewrite !blk_startcoords_idem.
Qed.

(** ** Fitness *)

Lemma NoDup_symbols : NoDup symbols.
Proof. apply NoDup_seqZ. Qed.

Lemma elem_of_symbols (n : Z) : n ∈ symbols ↔ (1 ≤ n ≤ 9)%Z.
Proof. unfold symbols. rewrite elem_of_seqZ. lia. Qed.

Lemma complete_symbols : complete symbols.
Proof.
  intros n Hn.
  assert (n = 1 ∨ n = 2 ∨ n = 3 ∨ n = 4 ∨ n = 5 ∨ n = 6 ∨ n = 7 ∨ n = 8
          ∨ n = 9)%Z as Hcases by lia.
  repeat (destruct Hcases as [->|Hcases]; [reflexivity|]). by subst.
Qed.

Lemma complete_Permutation (l k : list Z) : l ≡ₚ k → complete l → complete k.
Proof. intros Hp Hl n Hn. rewrite <- Hp. by apply Hl. Qed.

Lemma complete_elem_of (l : list Z) (n : Z) :
  complete l → (1 ≤ n ≤ 9)%Z → n ∈ l.
Proof.
  intros Hl Hn. specialize (Hl n Hn).
  destruct (filter (λ v, v = n) l) as [|v vs] eqn:Hf; [done|].
  assert (v ∈ filter (λ v, v = n) l) as Hv by (rewrite Hf; left).
  apply list_elem_of_filter in Hv as [-> Hv]. done.
Qed.

(** A group of nine cells that contains every symbol is a permutation of
    the symbols. *)
Lemma all_symbols_Permutation (l : list Z) :
  length l = 9 → (∀ n, n ∈ symbols → n ∈ l) → symbols ≡ₚ l.
Proof.
  intros Hlen Hall. apply submseteq_length_Permutation.
  - apply NoDup_submseteq; [apply NoDup_symbols|done].
  - rewrite Hlen. reflexivity.
Qed.

Lemma all_symbols_complete (l : list Z) :
  length l = 9 → (∀ n, n ∈ symbols → n ∈ l) ↔ complete l.
Proof.
  intros Hlen. split.
  - intros Hall. eapply complete_Permutation; [|apply complete_symbols].
    by apply all_symbols_Permutation.
  - intros Hl n Hn. apply complete_elem_of; [done|]. by apply elem_of_symbols.
Qed.

Lemma absent_nonneg (group : list Z) : (0 ≤ absent group)%Z.
Proof. unfold absent. lia. Qed.

Lemma absent_zero (group : list Z) :
  absent group = 0%Z ↔ ∀ n, n ∈ symbols → n ∈ group.
Proof.
  unfold absent. split.
  - intros Hz n Hn. destruct (decide (n ∈ group)) as [|Hnot]; [done|].
    assert (n ∈ filter (λ n, n ∉ group) symbols) as Hin
      by by apply list_elem_of_filter.
    destruct (filter (λ n, n ∉ group) symbols); [|simpl in Hz; lia].
    by apply elem_of_nil in Hin.
  - intros Hall.
    destruct (filter (λ n, n ∉ group) symbols) as [|n ns] eqn:Hf; [done|].
    assert (n ∈ filter (λ n, n ∉ group) symbols) as Hin by (rewrite Hf; left).
    apply list_elem_of_filter in Hin as [Hnot Hn]. by apply Hall in Hn.
Qed.

Lemma absent_zero_complete (group : list Z) :
  length group = 9 → absent group = 0%Z ↔ complete group.
Proof. intros Hlen. by rewrite absent_zero, all_symbols_complete. Qed.

Lemma sumZ_nonneg (l : list Z) : Forall (λ z, 0 ≤ z)%Z l → (0 ≤ sumZ l)%Z.
Proof. induction 1; simpl; lia. Qed.

Lemma sumZ_zero (l : list Z) :
  Forall (λ z, 0 ≤ z)%Z l → sumZ l = 0%Z ↔ Forall (λ z, z = 0%Z) l.
Proof.
  induction 1 as [|z l Hz Hl IH]; simpl.
  - split; [constructor|done].
  - pose proof (sumZ_nonneg l Hl). rewrite Forall_cons, <- IH. lia.
Qed.

Lemma rows_fitness_nonneg (g : grid) : (0 ≤ rows_fitness g)%Z.
Proof.
  apply sumZ_nonneg, Forall_fmap, Forall_forall. intros i _.
  apply absent_nonneg.
Qed.

Lemma cols_fitness_nonneg (g : grid) : (0 ≤ cols_fitness g)%Z.
Proof.
  apply sumZ_nonneg, Forall_fmap, Forall_forall. intros j _.
  apply absent_nonneg.
Qed.

Lemma blks_fitness_nonneg (g : grid) : (0 ≤ blks_fitness g)%Z.
Proof.
  apply sumZ_nonneg. unfold blks_fitness. cbn [mbind list_bind mapM app].
  repeat (constructor; [apply absent_nonneg|]). constructor.
Qed.

Lemma rows_fitness_zero (g : grid) :
  wf_grid g →
  rows_fitness g = 0%Z ↔ ∀ i, i < 9 → complete (whatis_rowlist g i 0).
Proof.
  intros Hwf. unfold rows_fitness. rewrite sumZ_zero.
  2:{ apply Forall_fmap, Forall_forall. intros i _. apply absent_nonneg. }
  rewrite Forall_fmap, Forall_forall. setoid_rewrite elem_of_range9.
  split; intros H i Hi; specialize (H i Hi); simpl in *;
    by apply absent_zero_complete; [apply length_whatis_rowlist|].
Qed.

Lemma cols_fitness_zero (g : grid) :
  wf_grid g →
  cols_fitness g = 0%Z ↔ ∀ j, j < 9 → complete (whatis_collist g 0 j).
Proof.
  intros Hwf. unfold cols_fitness. rewrite sumZ_zero.
  2:{ apply Forall_fmap, Forall_forall. intros j _. apply absent_nonneg. }
  rewrite Forall_fmap, Forall_forall. setoid_rewrite elem_of_range9.
  split; intros H j Hj; specialize (H j Hj); simpl in *;
    by apply absent_zero_complete; [apply length_whatis_collist|].
Qed.

Lemma blks_fitness_zero (g : grid) :
  blks_fitness g = 0%Z ↔
  ∀ i j, i < 9 → j < 9 → complete (whatis_blklist g i j).
Proof.
  unfold blks_fitness. cbn [mbind list_bind mapM app].
  rewrite sumZ_zero
    by (repeat (constructor; [apply absent_nonneg|]); constructor).
  rewrite !Forall_cons.
  setoid_rewrite absent_zero_complete; [|apply length_whatis_blklist..].
  split.
  - intros H i j Hi Hj. rewrite whatis_blklist_anchor.
    destruct (blk_startcoords_cases i Hi) as [->|[->| ->]],
             (blk_startcoords_cases j Hj) as [->|[->| ->]]; tauto.
  - intros H. repeat split; try apply H; try lia. constructor.
Qed.


Lemma fitness_zero (g : grid) :
  wf_grid g → _fitness_filled_sudoku g = 0%Z ↔ solved g.
Proof.
  intros Hwf. unfold _fitness_filled_sudoku, solved.
  pose proof (rows_fitness_nonneg g). pose proof (cols_fitness_nonneg g).
  pose proof (blks_fitness_nonneg g).
  rewrite <- rows_fitness_zero, <- cols_fitness_zero, <- blks_fitness_zero
    by done.
  lia.
Qed.


Example testgrid_new : SudokuObject.new testdoku = Ok testgrid.
Proof. reflexivity. Qed.

Lemma wf_testgrid : wf_grid testgrid.
Proof. split; [reflexivity|]. repeat constructor. Qed.


(** ** Cells and updates *)

Lemma cell_row (g : grid) (i j : nat) :
  cell g i j = default 0%Z (whatis_rowlist g i 0 !! j).
Proof. unfold cell, whatis_rowlist. by destruct (g !! i). Qed.

Lemma whatis_rowlist_update (g : grid) (i j i' : nat) (n : Z) :
  whatis_rowlist (update g i j n) i' 0
  = if decide (i = i') then <[j := n]> (whatis_rowlist g i' 0)
    else whatis_rowlist g i' 0.
Proof.
  unfold whatis_rowlist, update. destruct (decide (i = i')) as [->|Hne].
  - rewrite list_lookup_alter_eq. by destruct (g !! i').
  - by rewrite list_lookup_alter_ne.
Qed.

Lemma wf_grid_update (g : grid) (i j : nat) (n : Z) :
  wf_grid g → wf_grid (update g i j n).
Proof.
  intros [Hlen Hrows]. split.
  - unfold update. by rewrite length_alter.
  - unfold update. apply Forall_alter; [done|].
    intros row Hrow Hl. by rewrite length_insert.
Qed.

Lemma cell_update (g : grid) (i j i' j' : nat) (n : Z) :
  wf_grid g → i < 9 → j < 9 →
  cell (update g i j n) i' j'
  = if decide (i = i' ∧ j = j') then n else cell g i' j'.
Proof.
  intros Hwf Hi Hj. rewrite !cell_row, whatis_rowlist_update.
  destruct (decide (i = i')) as [->|Hne].
  - pose proof (length_whatis_rowlist g i' 0 Hwf Hi) as Hlen.
    destruct (decide (j = j')) as [->|Hnej].
    + rewrite decide_True by done. rewrite list_lookup_insert_eq by lia. done.
    + rewrite decide_False by tauto. by rewrite list_lookup_insert_ne.
  - rewrite decide_False by tauto. done.
Qed.

(** ** Computations with random draws *)

Lemma returns_ret {A : Type} (a : A) (Q : A → Prop) :
  Q a → returns (mret a) Q.
Proof. intros HQ r. by exists a, r. Qed.

Lemma returns_bind {A B : Type} (m : M A) (f : A → M B) (P : A → Prop)
    (Q : B → Prop) :
  returns m P → (∀ a, P a → returns (f a) Q) → returns (m ≫= f) Q.
Proof.
  intros Hm Hf r. destruct (Hm r) as (a & r1 & Hr & HP).
  destruct (Hf a HP r1) as (b & r2 & Hr2 & HQ). exists b, r2.
  split; [|done]. unfold mbind, M_bind. by rewrite Hr.
Qed.

Lemma returns_mono {A : Type} (m : M A) (P Q : A → Prop) :
  returns m P → (∀ a, P a → Q a) → returns m Q.
Proof.
  intros Hm HPQ r. destruct (Hm r) as (a & r' & Hr & HP).
  exists a, r'. eauto.
Qed.

Lemma returns_and {A : Type} (m : M A) (P Q : A → Prop) :
  returns m P → returns m Q → returns m (λ a, P a ∧ Q a).
Proof.
  intros HP HQ r. destruct (HP r) as (a & r' & Hr & Ha).
  destruct (HQ r) as (a' & r'' & Hr' & Ha'). rewrite Hr in Hr'.
  inversion Hr'; subst. exists a', r''. eauto.
Qed.

Lemma returns_lift {A : Type} (x : result A) (a : A) (Q : A → Prop) :
  x = Ok a → Q a → returns (lift x) Q.
Proof. intros -> HQ r. by exists a, r. Qed.

Lemma returns_draw (Q : nat → Prop) : (∀ d, Q d) → returns draw Q.
Proof. intros HQ r. eexists _, _. split; [reflexivity|apply HQ]. Qed.

Lemma returns_randint (a b : nat) (Q : nat → Prop) :
  a ≤ b → (∀ n, a ≤ n ≤ b → Q n) → returns (randint a b) Q.
Proof.
  intros Hab HQ. unfold randint. eapply returns_bind.
  - apply (returns_draw (λ _, True)). done.
  - intros d _. apply returns_ret. apply HQ.
    pose proof (Nat.mod_upper_bound d (b - a + 1)). lia.
Qed.

Lemma returns_choice {A : Type} (l : list A) (Q : A → Prop) :
  l ≠ [] → (∀ x, x ∈ l → Q x) → returns (choice l) Q.
Proof.
  intros Hne HQ. unfold choice. eapply returns_bind.
  - apply (returns_draw (λ _, True)). done.
  - intros d _.
    destruct (lookup_lt_is_Some_2 l (d mod length l)) as [x Hx].
    { apply Nat.mod_upper_bound. destruct l; [done|simpl; lia]. }
    rewrite Hx. apply returns_ret, HQ. by eapply list_elem_of_lookup_2.
Qed.

(** A loop over [seq s n] with an invariant indexed by the position. *)
Lemma returns_for_seq {A : Type} (body : A → nat → M A)
    (I : nat → A → Prop) (n s : nat) (a : A) :
  I s a →
  (∀ k a, s ≤ k < s + n → I k a → returns (body a k) (I (S k))) →
  returns (for_each (seq s n) body a) (I (s + n)).
Proof.
  revert s a. induction n as [|n IH]; intros s a Ha Hbody; simpl.
  - apply returns_ret. by rewrite Nat.add_0_r.
  - eapply returns_bind.
    + apply Hbody; [lia|done].
    + intros a' Ha'. replace (s + S n) with (S s + n) by lia.
      apply IH; [done|]. intros k a'' Hk. apply Hbody. lia.
Qed.

(** A loop over any list with a plain invariant. *)
Lemma returns_for_each {A B : Type} (body : A → B → M A) (I : A → Prop)
    (l : list B) (a : A) :
  I a →
  (∀ a b, b ∈ l → I a → returns (body a b) I) →
  returns (for_each l body a) I.
Proof.
  revert a. induction l as [|b l IH]; intros a Ha Hbody; simpl.
  - by apply returns_ret.
  - eapply returns_bind.
    + apply Hbody; [left|done].
    + intros a' Ha'. apply IH; [done|]. intros a'' b' Hb'. apply Hbody.
      by right.
Qed.

(** ** Mutation *)

(** Exchanging the values at two positions of a list permutes it. *)
Lemma swap_Permutation {A : Type} (l : list A) (j1 j2 : nat) (x y : A) :
  l !! j1 = Some x → l !! j2 = Some y →
  <[j2 := x]> (<[j1 := y]> l) ≡ₚ l.
Proof.
  intros H1 H2. apply Permutation_inj. split.
  { by rewrite !length_insert. }
  pose proof (lookup_lt_Some _ _ _ H1) as Hl1.
  pose proof (lookup_lt_Some _ _ _ H2) as Hl2.
  exists (λ i, if decide (i = j1) then j2 else if decide (i = j2) then j1 else i).
  split.
  - intros a b. repeat case_decide; lia.
  - intros i. rewrite !list_lookup_insert, !length_insert.
    repeat case_decide; destruct_and?; subst; try done; try lia; congruence.
Qed.

Lemma whatis_rowlist_swap (g : grid) (i j1 j2 i' : nat) :
  whatis_rowlist (swap_cells g (i, j1, j2)) i' 0
  = if decide (i = i')
    then <[j2 := cell g i j1]> (<[j1 := cell g i j2]> (whatis_rowlist g i' 0))
    else whatis_rowlist g i' 0.
Proof.
  unfold swap_cells. rewrite !whatis_rowlist_update.
  by destruct (decide (i = i')).
Qed.

Lemma cell_lookup (g : grid) (i j : nat) :
  wf_grid g → i < 9 → j < 9 →
  whatis_rowlist g i 0 !! j = Some (cell g i j).
Proof.
  intros Hwf Hi Hj. rewrite cell_row.
  destruct (lookup_lt_is_Some_2 (whatis_rowlist g i 0) j) as [v Hv].
  { rewrite length_whatis_rowlist by done. lia. }
  by rewrite Hv.
Qed.

Lemma swap_cells_row (g : grid) (s : nat * nat * nat) (fixed : list coord)
    (i' : nat) :
  wf_grid g → free_swap fixed s → i' < 9 →
  whatis_rowlist (swap_cells g s) i' 0 ≡ₚ whatis_rowlist g i' 0.
Proof.
  destruct s as [[i j1] j2]. intros Hwf (Hi & Hj1 & Hj2 & _) Hi'.
  rewrite whatis_rowlist_swap. destruct (decide (i = i')) as [->|]; [|done].
  apply swap_Permutation; by apply cell_lookup.
Qed.

Lemma wf_grid_swap (g : grid) (s : nat * nat * nat) :
  wf_grid g → wf_grid (swap_cells g s).
Proof.
  destruct s as [[i j1] j2]. intros Hwf. unfold swap_cells.
  by do 2 apply wf_grid_update.
Qed.

Lemma swap_cells_fixed (g : grid) (s : nat * nat * nat) (fixed : list coord)
    (i j : nat) :
  wf_grid g → free_swap fixed s → (i, j) ∈ fixed →
  cell (swap_cells g s) i j = cell g i j.
Proof.
  destruct s as [[i0 j1] j2]. intros Hwf (Hi & Hj1 & Hj2 & Hf1 & Hf2) Hfix.
  unfold swap_cells. rewrite !cell_update; [|by try apply wf_grid_update..].
  repeat case_decide; try done; destruct_and?; subst; done.
Qed.

Lemma foldl_swaps (fixed : list coord) (swaps : list (nat * nat * nat))
    (g : grid) :
  wf_grid g → Forall (free_swap fixed) swaps →
  wf_grid (foldl swap_cells g swaps)
  ∧ (∀ i, i < 9 →
       whatis_rowlist (foldl swap_cells g swaps) i 0 ≡ₚ whatis_rowlist g i 0)
  ∧ (∀ i j, (i, j) ∈ fixed →
       cell (foldl swap_cells g swaps) i j = cell g i j).
Proof.
  intros Hwf Hswaps. revert g Hwf.
  induction Hswaps as [|s swaps Hs _ IH]; intros g Hwf; simpl.
  { done. }
  destruct (IH (swap_cells g s)) as (Hwf' & Hrows & Hfix).
  { by apply wf_grid_swap. }
  split; [done|]. split.
  - intros i Hi. rewrite Hrows by done. by eapply swap_cells_row.
  - intros i j Hij. rewrite Hfix by done. by eapply swap_cells_fixed.
Qed.

Lemma mutate_step_spec (fixed : list coord) (g : grid) (k : nat) :
  returns (mutate_step fixed g k)
    (λ g', g' = g ∨ ∃ s, free_swap fixed s ∧ g' = swap_cells g s).
Proof.
  unfold mutate_step.
  eapply returns_bind; [apply (returns_randint 0 8 (λ n, n < 9)); lia|].
  intros i Hi.
  eapply returns_bind; [apply (returns_randint 0 8 (λ n, n < 9)); lia|].
  intros j1 Hj1.
  eapply returns_bind; [apply (returns_randint 0 8 (λ n, n < 9)); lia|].
  intros j2 Hj2. case_decide as Hfree; apply returns_ret; [|by left].
  right. exists (i, j1, j2). split; [|done]. unfold free_swap. tauto.
Qed.

Lemma mutate_spec (fixed : list coord) (g : grid) :
  returns (_mutate fixed g)
    (λ g', ∃ swaps,
       length swaps ≤ _mutation_max_num_cells
       ∧ Forall (free_swap fixed) swaps
       ∧ g' = foldl swap_cells g swaps).
Proof.
  unfold _mutate.
  apply (returns_for_seq (mutate_step fixed)
           (λ k g', ∃ swaps, length swaps ≤ k
                      ∧ Forall (free_swap fixed) swaps
                      ∧ g' = foldl swap_cells g swaps)
           _mutation_max_num_cells 0 g).
  - exists []. split; [simpl; lia|]. by split.
  - intros k g' _ (swaps & Hlen & Hfree & ->).
    eapply returns_mono; [apply mutate_step_spec|].
    intros g'' [->|(s & Hs & ->)].
    + exists swaps. split; [lia|done].
    + exists (swaps ++ [s]). rewrite length_app, foldl_app. simpl.
      split; [lia|]. split; [|done]. apply Forall_app. split; [done|].
      by constructor.
Qed.

(** C10. On every board and whatever the draws, one call of [_mutate]
    leaves the multiset of values of every row unchanged; what it does is a
    sequence of at most [_mutation_max_num_cells] = 5 swaps of two cells of
    one row; consequently row-completeness is preserved. *)
Theorem mutate_permutes_rows (fixed : list coord) (g : grid) :
  wf_grid g →
  returns (_mutate fixed g)
    (λ g',
       (∀ i, i < 9 → whatis_rowlist g' i 0 ≡ₚ whatis_rowlist g i 0)
       ∧ (∃ swaps, length swaps ≤ 5 ∧ g' = foldl swap_cells g swaps)
       ∧ (rows_complete g → rows_complete g')).
Proof.
  intros Hwf. eapply returns_mono; [apply mutate_spec|].
  intros g' (swaps & Hlen & Hfree & ->).
  destruct (foldl_swaps fixed swaps g Hwf Hfree) as (_ & Hrows & _).
  split; [done|]. split; [by exists swaps|].
  intros Hc i Hi. eapply complete_Permutation; [|by apply Hc].
  symmetry. by apply Hrows.
Qed.

Lemma mutate_permutes_rows_witness :
  wf_grid testgrid
  ∧ returns (_mutate [] testgrid)
      (λ g',
         (∀ i, i < 9 → whatis_rowlist g' i 0 ≡ₚ whatis_rowlist testgrid i 0)
         ∧ (∃ swaps, length swaps ≤ 5 ∧ g' = foldl swap_cells testgrid swaps)
         ∧ (rows_complete testgrid → rows_complete g')).
Proof.
  split; [apply wf_testgrid|].
  apply (mutate_permutes_rows [] testgrid), wf_testgrid.
Defined.

(** ** Random filling *)

Lemma remove_first_elem_of (n m : Z) (l : list Z) :
  m ∈ remove_first n l → m ∈ l.
Proof.
  induction l as [|x l IH]; simpl; [done|].
  case_decide; [by right|]. rewrite !elem_of_cons. tauto.
Qed.

Lemma remove_first_NoDup (n : Z) (l : list Z) :
  NoDup l → NoDup (remove_first n l).
Proof.
  induction 1 as [|x l Hx Hl IH]; simpl; [constructor|].
  case_decide; [done|]. constructor; [|done].
  intros Hin. by apply remove_first_elem_of in Hin.
Qed.

Lemma remove_first_spec (n m : Z) (l : list Z) :
  NoDup l → m ∈ remove_first n l ↔ m ∈ l ∧ m ≠ n.
Proof.
  induction 1 as [|x l Hx Hl IH]; simpl.
  - split; [by intros ?%elem_of_nil|by intros [?%elem_of_nil _]].
  - case_decide as Hxn.
    + subst x. rewrite elem_of_cons. split.
      * intros Hm. split; [by right|]. by intros ->.
      * intros [[->|Hm] Hne]; done.
    + rewrite !elem_of_cons, IH. split.
      * intros [->|[Hm Hne]]; [by split; [left|]|]. by split; [right|].
      * intros [[->|Hm] Hne]; [by left|by right].
Qed.

Lemma remove_first_length (n : Z) (l : list Z) :
  n ∈ l → S (length (remove_first n l)) = length l.
Proof.
  induction l as [|x l IH]; simpl; [by intros ?%elem_of_nil|].
  intros Hn. case_decide as Hxn; [done|]. simpl.
  apply elem_of_cons in Hn as [->|Hn]; [done|]. by rewrite IH.
Qed.

Lemma remove_first_Forall (P : Z → Prop) (n : Z) (l : list Z) :
  Forall P l → Forall P (remove_first n l).
Proof.
  induction 1 as [|x l Hx Hl IH]; simpl; [constructor|].
  case_decide; [done|]. by constructor.
Qed.

(** Writing at a position of a list that held [0]. *)
Lemma insert_at_zero (row : list Z) (j : nat) :
  row !! j = Some 0%Z →
  ∃ l1 l2, row = l1 ++ 0%Z :: l2 ∧ ∀ n, <[j := n]> row = l1 ++ n :: l2.
Proof.
  intros Hj. exists (take j row), (drop (S j) row). split.
  - by rewrite take_drop_middle.
  - intros n. apply insert_take_drop. by eapply lookup_lt_Some.
Qed.

(** Symbols of a row are among its non-zero cells: there are at least as
    many symbols absent from the row as cells holding 0. *)
Lemma zeros_le_absent (row : list Z) :
  length row = 9 →
  length (filter (λ v, v = 0%Z) row)
  ≤ length (filter (λ n, n ∉ row) symbols).
Proof.
  intros Hlen.
  pose proof (filter_app_complement (λ v, v = 0%Z) row) as Hrow.
  apply Permutation_length in Hrow. rewrite length_app in Hrow.
  pose proof (filter_app_complement (λ n, n ∉ row) symbols) as Hsym.
  apply Permutation_length in Hsym. rewrite length_app in Hsym.
  assert (length (filter (λ n : Z, ¬ (n ∉ row)) symbols)
          ≤ length (filter (λ v : Z, v ≠ 0%Z) row)) as Hle.
  { apply submseteq_length, NoDup_submseteq.
    - apply NoDup_filter, NoDup_symbols.
    - intros n [Hin Hn]%list_elem_of_filter. apply list_elem_of_filter.
      apply elem_of_symbols in Hn. split; [lia|].
      by destruct (decide (n ∈ row)). }
  change (length symbols) with 9 in Hsym. lia.
Qed.

Lemma fill_cell_spec (g : grid) (i j : nat) (st : grid * list Z) :
  i < 9 → j < 9 → fill_inv g i j st →
  returns (fill_cell i st j) (fill_inv g i (S j)).
Proof.
  intros Hi Hj. destruct st as [g' pos]. unfold fill_inv, fill_cell.
  cbn [fst snd]. intros (Hwf & Hrows & Hkeep & Hzeros & Hsym & Hdone & Hok).
  pose proof (cell_lookup g' i j Hwf Hi Hj) as Hcell.
  case_decide as Hz.
  - (* an unknown cell: a value is drawn and written *)
    rewrite Hz in Hcell.
    destruct (insert_at_zero _ j Hcell) as (l1 & l2 & Hrow & Hins).
    rewrite Hrow in Hzeros, Hok.
    rewrite filter_app, filter_cons_True, length_app in Hzeros by done.
    rewrite filter_app, filter_cons_False in Hok by (intros H0; by apply H0).
    simpl in Hzeros.
    assert (pos ≠ []) as Hne by (intros ->; simpl in Hzeros; lia).
    eapply returns_bind; [by apply (returns_choice pos (λ n, n ∈ pos))|].
    intros n Hn. apply returns_ret. cbn [fst snd].
    assert (n ∈ symbols) as Hnsym by by eapply Forall_forall in Hsym.
    assert (n ≠ 0%Z) as Hn0 by (apply elem_of_symbols in Hnsym; lia).
    rewrite whatis_rowlist_update, decide_True by done. rewrite Hins.
    pose proof (remove_first_length n pos Hn) as Hlen.
    split; [by apply wf_grid_update|]. split.
    { intros i' Hi'. rewrite whatis_rowlist_update, decide_False by done.
      by apply Hrows. }
    split.
    { intros j' Hj'. rewrite cell_update by done.
      case_decide as Hjj; [|by apply Hkeep]. destruct Hjj as [_ <-].
      rewrite <- (Hkeep j Hj') in Hj'. done. }
    split.
    { rewrite filter_app, filter_cons_False, length_app by done. lia. }
    split; [by apply remove_first_Forall|]. split.
    { intros j' Hj'. rewrite cell_update by done.
      case_decide as Hjj; [done|]. apply Hdone.
      destruct (decide (j' = j)) as [->|]; [tauto|lia]. }
    intros Hrok. destruct (Hok Hrok) as (Hvals & Hnd & Hndpos & Hpos).
    apply Forall_app in Hvals as [Hv1 Hv2]. apply Forall_cons in Hv2 as [_ Hv2].
    assert (n ∉ l1 ++ 0%Z :: l2) as Hnrow by by apply Hpos.
    split.
    { apply Forall_app. split; [done|]. constructor; [|done].
      apply elem_of_symbols in Hnsym. lia. }
    split.
    { rewrite filter_app, filter_cons_True by done.
      rewrite <- Permutation_middle. constructor; [|done].
      rewrite elem_of_app, !list_elem_of_filter. intros [[_ Hin]|[_ Hin]];
        apply Hnrow; rewrite elem_of_app, elem_of_cons; tauto. }
    split; [by apply remove_first_NoDup|].
    intros m. rewrite remove_first_spec, Hpos by done.
    rewrite !elem_of_app, !elem_of_cons, elem_of_symbols.
    split; [intros [[Hm Hnot] Hmn]|intros [Hm Hnot]].
    + split; [done|]. intros [?|[?|?]]; [|done|]; apply Hnot; tauto.
    + split; [split; [done|]|].
      * intros [?|[?|?]]; [|lia|]; apply Hnot; tauto.
      * intros ->. apply Hnot. tauto.
  - apply returns_ret. cbn [fst snd]. do 5 (split; [done|]). split; [|done].
    intros j' Hj'. destruct (decide (j' = j)) as [->|]; [done|].
    apply Hdone. lia.
Qed.

(** A row of nine non-zero, pairwise different values of [0,9] holds each
    symbol exactly once. *)
Lemma full_row_complete (row : list Z) :
  length row = 9 →
  Forall (λ v, 0 ≤ v ≤ 9)%Z row →
  NoDup (filter (λ v, v ≠ 0%Z) row) →
  (∀ j, j < 9 → row !! j ≠ Some 0%Z) →
  complete row.
Proof.
  intros Hlen Hvals Hnd Hnz.
  assert (Forall (λ v, v ≠ 0%Z) row) as Hall.
  { apply Forall_lookup. intros j v Hj ->. apply (Hnz j); [|done].
    apply lookup_lt_Some in Hj. lia. }
  assert (filter (λ v, v ≠ 0%Z) row = row) as Hfil.
  { clear -Hall. induction Hall as [|v l Hv Hl IH]; [done|].
    by rewrite filter_cons_True, IH. }
  rewrite Hfil in Hnd.
  eapply complete_Permutation; [|apply complete_symbols].
  symmetry. apply submseteq_length_Permutation.
  - apply NoDup_submseteq; [done|]. intros v Hv. apply elem_of_symbols.
    eapply Forall_forall in Hvals, Hall; [|done..]. simpl in *. lia.
  - rewrite Hlen. reflexivity.
Qed.

Lemma fill_row_spec (g : grid) (i : nat) :
  wf_grid g → i < 9 →
  returns (fill_row g i)
    (λ g', wf_grid g'
           ∧ (∀ i', i' ≠ i → whatis_rowlist g' i' 0 = whatis_rowlist g i' 0)
           ∧ (∀ j', cell g i j' ≠ 0%Z → cell g' i j' = cell g i j')
           ∧ (row_ok (whatis_rowlist g i 0) →
                complete (whatis_rowlist g' i 0))).
Proof.
  intros Hwf Hi. unfold fill_row, range9. eapply returns_bind.
  - apply (returns_for_seq (fill_cell i) (fill_inv g i) 9 0).
    + unfold fill_inv. cbn [fst snd]. do 3 (split; [done|]). split.
      { apply zeros_le_absent. by apply length_whatis_rowlist. }
      split.
      { apply Forall_forall. by intros n [_ Hn]%list_elem_of_filter. }
      split; [lia|]. intros [Hvals Hnd]. do 2 (split; [done|]). split.
      { apply NoDup_filter, NoDup_symbols. }
      intros n. rewrite list_elem_of_filter. tauto.
    + intros j st Hj Hinv. apply fill_cell_spec; [done|lia|done].
  - intros [g' pos] (Hwf' & Hrows & Hkeep & _ & _ & Hdone & Hok).
    cbn [fst snd] in *. apply returns_ret. do 3 (split; [done|]).
    intros Hrok. destruct (Hok Hrok) as (Hvals & Hnd & _).
    apply full_row_complete; [by apply length_whatis_rowlist|done..|].
    intros j Hj. rewrite cell_lookup by done. intros [= Hc].
    by apply (Hdone j).
Qed.

Lemma rand_fill_spec (g : grid) :
  wf_grid g →
  returns (_rand_fill_sudoku g)
    (λ g', wf_grid g'
           ∧ keeps_clues g g'
           ∧ (∀ i, i < 9 → row_ok (whatis_rowlist g i 0) →
                complete (whatis_rowlist g' i 0))).
Proof.
  intros Hwf. unfold _rand_fill_sudoku, range9.
  eapply returns_mono.
  - apply (returns_for_seq fill_row
             (λ i g', wf_grid g'
                ∧ (∀ i', i ≤ i' →
                     whatis_rowlist g' i' 0 = whatis_rowlist g i' 0)
                ∧ keeps_clues g g'
                ∧ (∀ i', i' < i → row_ok (whatis_rowlist g i' 0) →
                     complete (whatis_rowlist g' i' 0))) 9 0).
    + split; [done|]. split; [done|]. split; [by intros ??|lia].
    + intros i g' Hi (Hwf' & Hrest & Hkeep & Hdone).
      eapply returns_mono; [apply fill_row_spec; [done|lia]|].
      intros g'' (Hwf'' & Hrows & Hkeep' & Hok). split; [done|]. split.
      { intros i' Hi'. rewrite Hrows by lia. apply Hrest. lia. }
      split.
      { intros i' j' Hc. destruct (decide (i' = i)) as [->|Hne].
        - pose proof (Hkeep i j' Hc) as Heq. rewrite <- Heq in Hc.
          by rewrite (Hkeep' j' Hc).
        - rewrite <- (Hkeep i' j' Hc). by rewrite !cell_row, Hrows. }
      intros i' Hi' Hrok. destruct (decide (i' = i)) as [->|Hne].
      * apply Hok. by rewrite Hrest.
      * rewrite Hrows by done. apply Hdone; [lia|done].
  - intros g' (Hwf' & _ & Hkeep & Hdone). split; [done|]. split; [done|].
    intros i Hi. by apply Hdone.
Qed.

(** ** Construction and copy of a board *)

Lemma div9 (a k : nat) : k < 9 → (9 * a + k) / 9 = a.
Proof.
  intros Hk. symmetry. apply (Nat.div_unique _ 9 a k); [done|lia].
Qed.

(** The loop of [__init__] on the cells of one row. *)
Lemma init_loop_row (row cur rest : list Z) (g : grid) (a idx : nat) :
  g !! a = Some cur → length cur + length row ≤ 9 →
  idx = 9 * a + length cur →
  init_loop idx (row ++ rest) g
  = init_loop (idx + length row) rest (<[a := cur ++ row]> g).
Proof.
  revert cur g idx.
  induction row as [|n row IH]; intros cur g idx Ha Hlen ->.
  - cbn [app length]. rewrite app_nil_r, Nat.add_0_r.
    by rewrite list_insert_id.
  - cbn [app length init_loop]. cbn [length] in Hlen.
    rewrite div9 by lia. rewrite Ha.
    pose proof (lookup_lt_Some _ _ _ Ha) as Hlt.
    rewrite (IH (cur ++ [n])).
    + rewrite list_insert_insert_eq, <- app_assoc. cbn [app].
      f_equal. lia.
    + by rewrite list_lookup_insert_eq.
    + rewrite length_app. cbn [length]. lia.
    + rewrite length_app. cbn [length]. lia.
Qed.

Lemma init_loop_rows (rows done : list (list Z)) :
  Forall (λ row, length row = 9) rows →
  init_loop (9 * length done) (concat rows)
            (done ++ replicate (length rows) [])
  = Ok (done ++ rows).
Proof.
  intros Hrows. revert done.
  induction Hrows as [|row rows Hrow _ IH]; intros done.
  - done.
  - cbn [concat length replicate].
    rewrite (init_loop_row row [] (concat rows) _ (length done));
      [|by rewrite list_lookup_middle|cbn [length]; lia|cbn [length]; lia].
    rewrite insert_app_r_alt, Nat.sub_diag by lia. rewrite Hrow. cbn [app insert list_insert].
    replace (9 * length done + 9) with (9 * length (done ++ [row]))
      by (rewrite length_app; cbn [length]; lia).
    rewrite (cons_middle row done (replicate _ _)), (cons_middle row done rows).
    rewrite !app_assoc. apply IH.
Qed.

(** A list of nine rows of nine cells is rebuilt by [__init__] from the
    concatenation of its rows. *)
Lemma new_concat (g : grid) : wf_grid g → SudokuObject.new (concat g) = Ok g.
Proof.
  intros [Hlen Hrows]. unfold SudokuObject.new.
  pose proof (init_loop_rows g [] Hrows) as H. simpl in H.
  by rewrite Hlen in H.
Qed.

Lemma fmap_lookup_range9 {A : Type} (d : A) (l : list A) :
  length l = 9 → (λ j, default d (l !! j)) <$> range9 = l.
Proof. intros Hl. do 10 (destruct l as [|? l]; try done). Qed.

Lemma copy_wf (g : grid) : wf_grid g → copy g = Ok g.
Proof.
  intros Hwf. unfold copy.
  assert ((i ← range9; j ← range9; [cell g i j]) = concat g) as ->;
    [|by apply new_concat].
  transitivity (concat ((λ i, (λ j, cell g i j) <$> range9) <$> range9));
    [reflexivity|].
  f_equal.
  transitivity ((λ i, default [] (g !! i)) <$> range9);
    [|by apply fmap_lookup_range9, Hwf].
  apply list_fmap_ext. intros k i Hk.
  apply lookup_seq in Hk as [Hi Hk]. cbn [Nat.add] in Hi. subst i.
  rewrite <- (fmap_lookup_range9 0%Z (default [] (g !! k))).
  - apply list_fmap_ext. intros ? j _. apply cell_row.
  - by apply (length_whatis_rowlist g k 0).
Qed.

(** ** Crossover *)

Lemma child_rows_spec (sudoku1 sudoku2 : grid) :
  returns (for_each range9 (child_row sudoku1 sudoku2) [])
    (λ child_list, ∃ rows : list (list Z),
       child_list = concat rows ∧ length rows = 9
       ∧ ∀ k row, rows !! k = Some row →
           row = whatis_rowlist sudoku1 k 0
           ∨ row = whatis_rowlist sudoku2 k 0).
Proof.
  unfold range9.
  apply (returns_for_seq (child_row sudoku1 sudoku2)
           (λ i child_list, ∃ rows : list (list Z),
              child_list = concat rows ∧ length rows = i
              ∧ ∀ k row, rows !! k = Some row →
                  row = whatis_rowlist sudoku1 k 0
                  ∨ row = whatis_rowlist sudoku2 k 0) 9 0).
  - exists []. split; [done|]. split; [done|]. by intros k row ?.
  - intros i cl Hi (rows & -> & Hlen & Hrows). unfold child_row.
    eapply returns_bind;
      [apply (returns_randint 1 2 (λ n, n = 1 ∨ n = 2)); lia|].
    intros n Hn. apply returns_ret.
    assert (∀ row, row = whatis_rowlist sudoku1 i 0
                   ∨ row = whatis_rowlist sudoku2 i 0 →
              ∃ rows' : list (list Z),
                concat rows ++ row = concat rows' ∧ length rows' = S i
                ∧ ∀ k row', rows' !! k = Some row' →
                    row' = whatis_rowlist sudoku1 k 0
                    ∨ row' = whatis_rowlist sudoku2 k 0) as Hext.
    { intros row Hrow. exists (rows ++ [row]). split.
      { rewrite concat_app. simpl. by rewrite app_nil_r. }
      split; [rewrite length_app; simpl; lia|].
      intros k row' Hk. apply lookup_app_Some in Hk as [Hk|[Hge Hk]].
      - by apply Hrows.
      - apply list_lookup_singleton_Some in Hk as [Hk <-].
        by replace k with i by lia. }
    destruct Hn as [-> | ->]; simpl; apply Hext; tauto.
Qed.

Lemma make_child_spec (sudoku1 sudoku2 : grid) (cs : list grid) (k : nat) :
  wf_grid sudoku1 → wf_grid sudoku2 →
  returns (make_child sudoku1 sudoku2 cs k)
    (λ cs', ∃ child, cs' = cs ++ [child] ∧ crossed sudoku1 sudoku2 child).
Proof.
  intros Hwf1 Hwf2. unfold make_child.
  eapply returns_bind; [apply child_rows_spec|].
  intros child_list (rows & -> & Hlen & Hrows).
  assert (wf_grid rows) as Hwf.
  { split; [done|]. apply Forall_lookup. intros i row Hi.
    pose proof (lookup_lt_Some _ _ _ Hi) as Hlt.
    destruct (Hrows i row Hi) as [-> | ->];
      apply length_whatis_rowlist; done || lia. }
  eapply returns_bind.
  { apply (returns_lift _ rows (λ c, c = rows)); [by apply new_concat|done]. }
  intros child ->. apply returns_ret. exists rows. split; [done|].
  split; [done|]. intros i Hi.
  destruct (wf_grid_row rows i Hwf Hi) as (row & Hrow & _).
  unfold whatis_rowlist at 1 3. rewrite Hrow. simpl. by apply Hrows.
Qed.

Lemma generate_children_spec (sudoku1 sudoku2 : grid) :
  wf_grid sudoku1 → wf_grid sudoku2 →
  returns (_generate_children sudoku1 sudoku2)
    (λ cs, length cs = _num_of_children
           ∧ Forall (crossed sudoku1 sudoku2) cs).
Proof.
  intros Hwf1 Hwf2. unfold _generate_children.
  apply (returns_for_seq (make_child sudoku1 sudoku2)
           (λ k cs, length cs = k ∧ Forall (crossed sudoku1 sudoku2) cs)
           _num_of_children 0).
  - by split.
  - intros k cs _ [Hlen Hcs].
    eapply returns_mono; [by apply make_child_spec|].
    intros cs' (child & -> & Hchild). rewrite length_app. simpl.
    split; [lia|]. apply Forall_app. split; [done|]. by constructor.
Qed.

(** ** Row-completeness *)

Lemma row_ok_lookup (g : grid) (i : nat) :
  wf_grid g → Forall row_ok g → i < 9 → row_ok (whatis_rowlist g i 0).
Proof.
  intros Hwf Hok Hi. destruct (wf_grid_row g i Hwf Hi) as (row & Hrow & _).
  unfold whatis_rowlist. rewrite Hrow. simpl.
  by eapply Forall_lookup_1 in Hok.
Qed.

Lemma crossed_rows_complete (sudoku1 sudoku2 child : grid) :
  rows_complete sudoku1 → rows_complete sudoku2 →
  crossed sudoku1 sudoku2 child → rows_complete child.
Proof.
  intros H1 H2 [_ Hrows] i Hi.
  destruct (Hrows i Hi) as [-> | ->]; [by apply H1|by apply H2].
Qed.

(** The individuals of the first population. *)
Lemma init_population_spec (self : t) (P : grid → Prop) :
  wf_grid (_init_sudoku self) →
  returns (_rand_fill_sudoku (_init_sudoku self)) P →
  returns (init_population self)
    (λ population, length population = _population_size
                   ∧ Forall P population).
Proof.
  intros Hwf HP. unfold init_population.
  apply (returns_for_seq _ (λ k pop, length pop = k ∧ Forall P pop)
           _population_size 0).
  - by split.
  - intros k pop _ [Hlen Hpop].
    eapply returns_bind.
    { apply (returns_lift _ (_init_sudoku self)
               (λ c, c = _init_sudoku self)); [by apply copy_wf|done]. }
    intros new_sudoku ->.
    eapply returns_bind; [apply HP|].
    intros filled Hfilled. apply returns_ret. rewrite length_app.
    cbn [length]. split; [lia|]. apply Forall_app. split; [done|].
    by constructor.
Qed.

Lemma new_Ok (initialsudoku : grid) :
  ∃ self, SudokuGA.new initialsudoku = Ok self
          ∧ _init_sudoku self = initialsudoku
          ∧ _fixed self
            = filter (λ c, cell initialsudoku c.1 c.2 ≠ 0%Z) all_coords.
Proof. eexists. split; [reflexivity|]. by split. Qed.

(** C5, as stated, fails on a board with a repeated clue in a row: the
    filled row 0 keeps both 1s. *)
Lemma rand_fill_counterexample :
  ∃ g' r', _rand_fill_sudoku dupgrid (λ _, 0) = Ok (g', r')
           ∧ ¬ rows_complete g'.
Proof.
  eexists _, _. split; [vm_compute; reflexivity|].
  intros H. specialize (H 0 ltac:(lia) 1%Z ltac:(lia)). vm_compute in H.
  discriminate H.
Qed.

(** C5, amended. For every input Board (cells in [0,9]) whose rows repeat
    no non-zero value, and whatever the draws, every individual of the
    first population has each symbol 1-9 exactly once in each of its rows;
    and every child that [_generate_children] makes of two boards with
    that property has it too. *)
Theorem rows_complete_init_crossover (b sudoku1 sudoku2 : grid) :
  wf_grid b → Forall row_ok b →
  wf_grid sudoku1 → wf_grid sudoku2 →
  rows_complete sudoku1 → rows_complete sudoku2 →
  (∃ self, SudokuGA.new b = Ok self
           ∧ returns (init_population self)
               (λ population, Forall rows_complete population))
  ∧ returns (_rand_fill_sudoku b) rows_complete
  ∧ returns (_generate_children sudoku1 sudoku2)
      (λ children, Forall rows_complete children).
Proof.
  intros Hwf Hok Hwf1 Hwf2 Hc1 Hc2.
  assert (returns (_rand_fill_sudoku b) rows_complete) as Hfill.
  { eapply returns_mono; [by apply rand_fill_spec|].
    intros g' (_ & _ & Hrows) i Hi. apply Hrows; [done|].
    by apply row_ok_lookup. }
  split; [|split; [done|]].
  - destruct (new_Ok b) as (self & Hnew & Hinit & _). exists self.
    split; [done|]. eapply returns_mono.
    + apply (init_population_spec self rows_complete); by rewrite Hinit.
    + by intros pop [_ Hpop].
  - eapply returns_mono; [by apply generate_children_spec|].
    intros cs [_ Hcs]. eapply Forall_impl; [done|].
    intros c. by apply crossed_rows_complete.
Qed.

Lemma wf_solvedgrid : wf_grid solvedgrid.
Proof. split; [reflexivity|]. repeat constructor. Qed.

Lemma rows_complete_solvedgrid : rows_complete solvedgrid.
Proof.
  intros i Hi n Hn.
  assert (i = 0 ∨ i = 1 ∨ i = 2 ∨ i = 3 ∨ i = 4 ∨ i = 5 ∨ i = 6 ∨ i = 7
          ∨ i = 8) as Hi' by lia.
  assert (n = 1 ∨ n = 2 ∨ n = 3 ∨ n = 4 ∨ n = 5 ∨ n = 6 ∨ n = 7 ∨ n = 8
          ∨ n = 9)%Z as Hn' by lia.
  clear Hi Hn.
  repeat (destruct Hi' as [->|Hi']); [..|subst i];
    repeat (destruct Hn' as [->|Hn']); try subst n; reflexivity.
Qed.

Lemma row_ok_testgrid : Forall row_ok testgrid.
Proof.
  repeat (constructor; [split; [repeat constructor; lia|]|]);
    [..|constructor]; by apply (bool_decide_unpack _).
Qed.

Lemma rows_complete_init_crossover_witness :
  wf_grid testgrid ∧ Forall row_ok testgrid
  ∧ wf_grid solvedgrid ∧ wf_grid solvedgrid
  ∧ rows_complete solvedgrid ∧ rows_complete solvedgrid
  ∧ (∃ self, SudokuGA.new testgrid = Ok self
             ∧ returns (init_population self)
                 (λ population, Forall rows_complete population))
  ∧ returns (_rand_fill_sudoku testgrid) rows_complete
  ∧ returns (_generate_children solvedgrid solvedgrid)
      (λ children, Forall rows_complete children).
Proof.
  split; [apply wf_testgrid|]. split; [apply row_ok_testgrid|].
  split; [apply wf_solvedgrid|]. split; [apply wf_solvedgrid|].
  split; [apply rows_complete_solvedgrid|].
  split; [apply rows_complete_solvedgrid|].
  apply (rows_complete_init_crossover testgrid solvedgrid solvedgrid);
    auto using wf_testgrid, row_ok_testgrid, wf_solvedgrid,
      rows_complete_solvedgrid.
Defined.

(** ** Sampling and sorting *)

Lemma sample_spec {A : Type} (k : nat) (l : list A) :
  k ≤ length l →
  returns (sample l k) (λ s, length s = k ∧ ∀ x, x ∈ s → x ∈ l).
Proof.
  revert l. induction k as [|k IH]; intros l Hk; cbn [sample].
  - apply returns_ret. split; [done|]. by intros x ?%elem_of_nil.
  - eapply returns_bind; [apply (returns_draw (λ _, True)); done|].
    intros d _.
    destruct (lookup_lt_is_Some_2 l (d mod length l)) as [x Hx].
    { apply Nat.mod_upper_bound. lia. }
    rewrite Hx. eapply returns_bind.
    + apply IH. pose proof (lookup_lt_Some _ _ _ Hx).
      rewrite length_delete by done. lia.
    + intros rest [Hlen Hrest]. apply returns_ret. cbn [length].
      split; [lia|]. intros y [->|Hy]%elem_of_cons.
      * by eapply list_elem_of_lookup_2.
      * eapply list_elem_of_delete_inv. by apply Hrest.
Qed.

Lemma shuffle_spec {A : Type} (l : list A) :
  returns (shuffle l) (λ s, length s = length l ∧ ∀ x, x ∈ s → x ∈ l).
Proof. by apply sample_spec. Qed.

Lemma insert_by_Permutation (key : grid → Z) (x : grid) (l : list grid) :
  insert_by key x l ≡ₚ x :: l.
Proof.
  induction l as [|y l IH]; cbn [insert_by]; [done|].
  case_decide; [done|]. rewrite IH. apply Permutation_swap.
Qed.

Lemma sort_by_Permutation (key : grid → Z) (l : list grid) :
  sort_by key l ≡ₚ l.
Proof.
  induction l as [|x l IH]; [done|]. unfold sort_by. cbn [foldr].
  rewrite insert_by_Permutation. by constructor.
Qed.

(** ** One generation *)

Lemma num_of_best_eq : num_of_best = 100.
Proof. reflexivity. Qed.

Lemma num_of_rand_eq : num_of_rand = 100.
Proof. reflexivity. Qed.

Lemma num_mutation_eq : num_mutation = 600.
Proof. reflexivity. Qed.

Lemma population_size_eq : _population_size = 100 * _num_of_children.
Proof. reflexivity. Qed.

Lemma select_parents_spec (population : list grid) :
  length population = _population_size →
  returns (select_parents population)
    (λ parents_list, length parents_list = 2 * 100
                     ∧ ∀ x, x ∈ parents_list → x ∈ population).
Proof.
  intros Hlen. unfold select_parents.
  rewrite num_of_best_eq, num_of_rand_eq.
  assert (100 + 100 ≤ length population) as Hle.
  { rewrite Hlen, population_size_eq. unfold _num_of_children. lia. }
  eapply returns_bind.
  { apply sample_spec. rewrite length_drop. lia. }
  intros sampled [Hs Hin]. eapply returns_mono; [apply shuffle_spec|].
  intros ps [Hps Hsub]. split.
  - rewrite Hps, length_app, length_take, Hs. lia.
  - intros x Hx. apply Hsub in Hx. apply elem_of_app in Hx as [Hx|Hx].
    + by eapply subseteq_take.
    + eapply subseteq_drop. by apply Hin.
Qed.

Lemma breed_spec (P : grid → Prop) (n : nat) (parents_list : list grid) :
  length parents_list = 2 * n →
  Forall wf_grid parents_list →
  (∀ p1 p2 c, p1 ∈ parents_list → p2 ∈ parents_list →
              crossed p1 p2 c → P c) →
  returns (breed parents_list)
    (λ cs, length cs = n * _num_of_children ∧ Forall P cs).
Proof.
  revert parents_list.
  induction n as [|n IH]; intros parents_list Hlen Hwf HP.
  - destruct parents_list; [|done]. apply returns_ret. by split.
  - destruct parents_list as [|p1 [|p2 rest]];
      [cbn [length] in Hlen; lia..|].
    cbn [length] in Hlen. cbn [breed].
    apply Forall_cons in Hwf as [Hwf1 Hwf].
    apply Forall_cons in Hwf as [Hwf2 Hwf].
    eapply returns_bind; [by apply generate_children_spec|].
    intros children [Hclen Hchildren].
    eapply returns_bind.
    { apply IH; [lia|done|]. intros q1 q2 c Hq1 Hq2.
      apply HP; by do 2 right. }
    intros more [Hmlen Hmore]. apply returns_ret.
    rewrite length_app, Hclen, Hmlen. split; [lia|].
    apply Forall_app. split; [|done].
    eapply Forall_impl; [done|]. intros c. apply HP; [left|right; left].
Qed.

Lemma mutate_some_spec (P : grid → Prop) (fixed : list coord)
    (children_list : list grid) :
  num_mutation ≤ length children_list →
  Forall P children_list →
  (∀ c swaps, P c → Forall (free_swap fixed) swaps →
              P (foldl swap_cells c swaps)) →
  returns (mutate_some fixed children_list)
    (λ cs, length cs = length children_list ∧ Forall P cs).
Proof.
  intros Hle Hcs HP. unfold mutate_some. eapply returns_bind.
  { apply sample_spec. by rewrite length_seq. }
  intros picked [_ Hpicked].
  apply (returns_for_each _
           (λ cs, length cs = length children_list ∧ Forall P cs)).
  { by split. }
  intros cs idx Hidx [Hlen Hall].
  apply Hpicked, elem_of_seq in Hidx.
  destruct (lookup_lt_is_Some_2 cs idx) as [child Hchild]; [lia|].
  rewrite Hchild. eapply returns_bind; [apply mutate_spec|].
  intros child' (swaps & _ & Hfree & ->). apply returns_ret.
  rewrite length_insert. split; [done|]. apply Forall_insert; [done|].
  apply HP; [|done]. by eapply Forall_lookup_1 in Hall.
Qed.

(** ** Individuals keep the clues *)

Lemma cell_nonzero_bound (b : grid) (i j : nat) :
  wf_grid b → cell b i j ≠ 0%Z → i < 9 ∧ j < 9.
Proof.
  intros [Hlen Hrows] Hc. unfold cell in Hc.
  destruct (b !! i) as [row|] eqn:Hi; [|done]. cbn in Hc.
  destruct (row !! j) as [v|] eqn:Hj; [|done].
  apply lookup_lt_Some in Hi as Hi', Hj as Hj'.
  eapply Forall_lookup_1 in Hrows; [|done]. lia.
Qed.

Lemma elem_of_fixed (b : grid) (i j : nat) :
  wf_grid b →
  (i, j) ∈ filter (λ c : coord, cell b c.1 c.2 ≠ 0%Z) all_coords
  ↔ cell b i j ≠ 0%Z.
Proof.
  intros Hwf. rewrite list_elem_of_filter, elem_of_all_coords. cbn [fst snd].
  split; [tauto|]. intros Hc. split; [done|]. by eapply cell_nonzero_bound.
Qed.

Lemma individual_crossed (b p1 p2 c : grid) :
  wf_grid b → individual_of b p1 → individual_of b p2 →
  crossed p1 p2 c → individual_of b c.
Proof.
  intros Hwf [_ H1] [_ H2] [Hwfc Hrows]. split; [done|].
  intros i j Hc. destruct (cell_nonzero_bound b i j Hwf Hc) as [Hi _].
  destruct (Hrows i Hi) as [Hrow|Hrow].
  - rewrite <- (H1 i j Hc). by rewrite !cell_row, Hrow.
  - rewrite <- (H2 i j Hc). by rewrite !cell_row, Hrow.
Qed.

Lemma individual_mutated (b c : grid) (swaps : list (nat * nat * nat)) :
  wf_grid b → individual_of b c →
  Forall (free_swap (filter (λ c : coord, cell b c.1 c.2 ≠ 0%Z) all_coords))
         swaps →
  individual_of b (foldl swap_cells c swaps).
Proof.
  intros Hwf [Hwfc Hkeep] Hfree.
  destruct (foldl_swaps _ swaps c Hwfc Hfree) as (Hwf' & _ & Hfix).
  split; [done|]. intros i j Hc. rewrite Hfix; [by apply Hkeep|].
  by apply elem_of_fixed.
Qed.

Lemma individual_filled (b : grid) :
  wf_grid b → returns (_rand_fill_sudoku b) (individual_of b).
Proof.
  intros Hwf. eapply returns_mono; [by apply rand_fill_spec|].
  by intros g (Hwf' & Hkeep & _).
Qed.

Lemma population_sorted (b : grid) (key : grid → Z) (population : list grid) :
  population_of b population → population_of b (sort_by key population).
Proof.
  intros [Hlen Hall]. split; by rewrite sort_by_Permutation.
Qed.

Section Run.

Variable b : grid.
Variable self : t.
Hypothesis Hwf : wf_grid b.
Hypothesis Hinit : _init_sudoku self = b.
Hypothesis Hfixed :
  _fixed self = filter (λ c : coord, cell b c.1 c.2 ≠ 0%Z) all_coords.

Lemma init_population_of :
  returns (init_population self) (population_of b).
Proof using Hwf Hinit.
  apply init_population_spec; rewrite Hinit; [done|].
  by apply individual_filled.
Qed.

Lemma next_generation_spec (population : list grid) :
  population_of b population →
  returns (next_generation self population) (population_of b).
Proof using Hwf Hfixed.
  intros [Hlen Hall]. unfold next_generation.
  eapply returns_bind; [by apply select_parents_spec|].
  intros parents_list [Hplen Hsub].
  assert (Forall (individual_of b) parents_list) as Hparents.
  { apply Forall_forall. intros p Hp.
    eapply Forall_forall in Hall; [done|]. by apply Hsub. }
  eapply returns_bind.
  { apply (breed_spec (individual_of b) 100); [done| |].
    - eapply Forall_impl; [done|]. by intros g [? _].
    - intros p1 p2 c Hp1 Hp2. eapply Forall_forall in Hp1, Hp2; [|done..].
      by apply individual_crossed. }
  intros children_list [Hclen Hchildren].
  rewrite <- population_size_eq in Hclen.
  eapply returns_mono.
  - apply (mutate_some_spec (individual_of b)); [|done|].
    + rewrite num_mutation_eq, Hclen, population_size_eq.
      unfold _num_of_children. lia.
    + intros c swaps Hc Hfree. rewrite Hfixed in Hfree.
      by apply individual_mutated.
  - intros cs [Hcs Hall']. split; [by rewrite Hcs|done].
Qed.

(** The loop over the cycles: every population it goes through is a
    population of the run; it leaves by returning an individual of
    fitness 0 or by falling through after [n] full cycles, never by
    another exception. *)
Lemma cycles_spec (n : nat) (population : list grid) (r : rng) :
  population_of b population →
  Forall (population_of b) (cycles self n population r).1
  ∧ match (cycles self n population r).2 with
    | Return solution =>
        individual_of b solution
        ∧ _fitness_filled_sudoku solution = 0%Z
    | Fallthrough _ => length (cycles self n population r).1 = 2 * n
    | Raised _ => False
    end.
Proof using Hwf Hfixed.
  revert population r. induction n as [|n IH]; intros population r Hpop.
  { cbn [cycles fst snd]. by split. }
  cbn [cycles].
  pose proof (population_sorted b _fitness_filled_sudoku population Hpop)
    as Hsorted.
  destruct (lookup_lt_is_Some_2
              (sort_by _fitness_filled_sudoku population) 0)
    as [best Hbest].
  { destruct Hsorted as [-> _]. unfold _population_size. lia. }
  rewrite Hbest. case_decide as Hfit.
  { cbn [fst snd]. split; [by constructor|]. split; [|done].
    destruct Hsorted as [_ Hall]. by eapply Forall_lookup_1 in Hall. }
  destruct (next_generation_spec _ Hsorted r)
    as (children_list & r' & -> & Hchildren).
  specialize (IH children_list r' Hchildren).
  destruct (cycles self n children_list r') as [pops ex].
  cbn [fst snd] in *. destruct IH as [Hpops Hex].
  split; [by do 2 (constructor; [done|])|].
  destruct ex; [done| |done]. cbn [length]. lia.
Qed.

(** The loop over the restarts. *)
Lemma restarts_spec (n : nat) (r : rng) :
  Forall (population_of b) (restarts self n r).1
  ∧ match (restarts self n r).2 with
    | Ok solution =>
        individual_of b solution
        ∧ _fitness_filled_sudoku solution = 0%Z
    | Raise e =>
        e = NoSolution
        ∧ length (restarts self n r).1 = n * (1 + 2 * _max_cycles)
    end.
Proof using Hwf Hinit Hfixed.
  revert r. induction n as [|n IH]; intros r.
  { cbn [restarts fst snd]. by split. }
  cbn [restarts].
  destruct (init_population_of r) as (population & r1 & -> & Hpop).
  pose proof (cycles_spec _max_cycles population r1 Hpop) as Hcyc.
  destruct (cycles self _max_cycles population r1) as [pops ex].
  cbn [fst snd] in Hcyc. destruct Hcyc as [Hpops Hex].
  destruct ex as [solution|r2|e]; [| |done].
  - cbn [fst snd]. split; [by constructor|done].
  - specialize (IH r2). destruct (restarts self n r2) as [pops' res].
    cbn [fst snd] in *. destruct IH as [Hpops' Hres]. split.
    + constructor; [done|]. by apply Forall_app.
    + destruct res as [solution|e]; [done|]. destruct Hres as [-> Hlen].
      split; [done|]. cbn [length]. rewrite length_app, Hex, Hlen. lia.
Qed.

End Run.

(** ** The run of the genetic algorithm *)

Lemma run_trace_nonempty (b : grid) (self : t) (r : rng) :
  wf_grid b → _init_sudoku self = b → (run self r).1 ≠ [].
Proof.
  intros Hwf Hinit. unfold run, _max_restart.
  generalize 4. intros n. cbn [restarts].
  destruct (init_population_of b self Hwf Hinit r)
    as (population & r1 & -> & _).
  destruct (cycles self _max_cycles population r1) as [pops [?|r2|?]];
    [done| |done].
  by destruct (restarts self n r2).
Qed.

(** C6. For every input board, the coordinates recorded in [_fixed] by
    [__init__] are those of the non-zero cells of the input, and every
    individual of every population of the run (after initialization, after
    each sort, after each breeding and mutation) holds the input value at
    each of them, whatever the draws. *)
Theorem fixed_cells_invariant (b : grid) :
  wf_grid b →
  ∃ self, SudokuGA.new b = Ok self
    ∧ (∀ i j, (i, j) ∈ _fixed self ↔ i < 9 ∧ j < 9 ∧ cell b i j ≠ 0%Z)
    ∧ ∀ (r : rng) population g i j,
        population ∈ (run self r).1 → g ∈ population →
        (i, j) ∈ _fixed self → cell g i j = cell b i j.
Proof.
  intros Hwf. destruct (new_Ok b) as (self & Hnew & Hinit & Hfixed).
  exists self. split; [done|].
  assert (∀ i j, (i, j) ∈ _fixed self ↔ i < 9 ∧ j < 9 ∧ cell b i j ≠ 0%Z)
    as Hfix.
  { intros i j. rewrite Hfixed, elem_of_fixed by done. split; [|tauto].
    intros Hc. destruct (cell_nonzero_bound b i j Hwf Hc). tauto. }
  split; [done|]. intros r population g i j Hpop Hg Hij.
  destruct (restarts_spec b self Hwf Hinit Hfixed _max_restart r)
    as [Hall _].
  eapply Forall_forall in Hall; [|exact Hpop].
  destruct Hall as [_ Hall]. eapply Forall_forall in Hall; [|exact Hg].
  destruct Hall as [_ Hkeep]. apply Hkeep. by apply Hfix.
Qed.

Lemma fixed_cells_invariant_witness :
  wf_grid testgrid
  ∧ ∃ self, SudokuGA.new testgrid = Ok self
      ∧ (∀ i j, (i, j) ∈ _fixed self
                ↔ i < 9 ∧ j < 9 ∧ cell testgrid i j ≠ 0%Z)
      ∧ ∀ (r : rng) population g i j,
          population ∈ (run self r).1 → g ∈ population →
          (i, j) ∈ _fixed self → cell g i j = cell testgrid i j.
Proof.
  split; [apply wf_testgrid|].
  apply (fixed_cells_invariant testgrid), wf_testgrid.
Defined.

(** One generation from any 1000 boards of nine rows of nine cells:
    selection, breeding and mutation do not raise, and the child list has
    1000 such boards again. *)
Lemma next_generation_length (self : t) (population : list grid) :
  length population = 1000 → Forall wf_grid population →
  returns (next_generation self population)
    (λ children_list, length children_list = 1000
                      ∧ Forall wf_grid children_list).
Proof.
  intros Hlen Hall. unfold next_generation.
  eapply returns_bind; [by apply select_parents_spec|].
  intros parents_list [Hplen Hsub].
  assert (Forall wf_grid parents_list) as Hparents.
  { apply Forall_forall. intros p Hp.
    eapply Forall_forall in Hall; [done|]. by apply Hsub. }
  eapply returns_bind.
  { apply (breed_spec wf_grid 100); [done..|].
    by intros p1 p2 c _ _ [Hc _]. }
  intros children_list [Hclen Hchildren].
  rewrite <- population_size_eq in Hclen.
  eapply returns_mono.
  - apply (mutate_some_spec wf_grid); [|done|].
    + rewrite num_mutation_eq, Hclen. unfold _population_size. lia.
    + intros c swaps Hc Hfree.
      by destruct (foldl_swaps (_fixed self) swaps c Hc Hfree) as [? _].
  - intros cs [Hcs Hall']. split; [by rewrite Hcs|done].
Qed.

(** C8. For every input board and whatever the draws: the first population
    is built without an exception and has [_population_size] = 1000
    elements; from any population of 1000 boards, the sort keeps the 1000
    elements, and selection, breeding and mutation neither raise nor give
    a child list of another length than 1000; so every population of the
    run, the sorted one the selection starts from and the child list that
    replaces it, has exactly 1000 elements, and the run ends only by
    returning a board or, after all 5 * 100 generations (a trace of
    5 * (1 + 2 * 100) populations), by the no-solution exception. *)
Theorem population_size_stable (b : grid) :
  wf_grid b →
  ∃ self, SudokuGA.new b = Ok self
    ∧ returns (init_population self)
        (λ population, length population = 1000)
    ∧ (∀ population,
         length population = 1000 → Forall wf_grid population →
         length (sort_by _fitness_filled_sudoku population) = 1000
         ∧ returns
             (next_generation self
                (sort_by _fitness_filled_sudoku population))
             (λ children_list, length children_list = 1000))
    ∧ ∀ r : rng,
        (run self r).1 ≠ []
        ∧ (∀ population, population ∈ (run self r).1 →
             length population = 1000)
        ∧ ((∃ solution, (run self r).2 = Ok solution)
           ∨ ((run self r).2 = Raise NoSolution
              ∧ length (run self r).1 = 5 * (1 + 2 * 100))).
Proof.
  intros Hwf. destruct (new_Ok b) as (self & Hnew & Hinit & Hfixed).
  exists self. split; [done|]. split; [|split].
  - eapply returns_mono; [by apply (init_population_of b)|].
    by intros population [-> _].
  - intros population Hlen Hall.
    pose proof (sort_by_Permutation _fitness_filled_sudoku population)
      as Hperm.
    split; [by rewrite Hperm|].
    eapply returns_mono.
    + apply next_generation_length; by rewrite Hperm.
    + by intros children_list [? _].
  - intros r. split; [by eapply run_trace_nonempty|].
    pose proof (restarts_spec b self Hwf Hinit Hfixed _max_restart r)
      as [Hall Hres].
    fold (run self r) in Hall, Hres. split.
    + intros population Hpop.
      eapply Forall_forall in Hall; [|exact Hpop]. by destruct Hall as [-> _].
    + destruct (run self r).2 as [solution|e]; [left; by exists solution|].
      right. by destruct Hres as [-> ->].
Qed.

Lemma population_size_stable_witness :
  wf_grid testgrid
  ∧ ∃ self, SudokuGA.new testgrid = Ok self
      ∧ returns (init_population self)
          (λ population, length population = 1000)
      ∧ (∀ population,
           length population = 1000 → Forall wf_grid population →
           length (sort_by _fitness_filled_sudoku population) = 1000
           ∧ returns
               (next_generation self
                  (sort_by _fitness_filled_sudoku population))
               (λ children_list, length children_list = 1000))
      ∧ ∀ r : rng,
          (run self r).1 ≠ []
          ∧ (∀ population, population ∈ (run self r).1 →
               length population = 1000)
          ∧ ((∃ solution, (run self r).2 = Ok solution)
             ∨ ((run self r).2 = Raise NoSolution
                ∧ length (run self r).1 = 5 * (1 + 2 * 100))).
Proof.
  split; [apply wf_testgrid|].
  apply (population_size_stable testgrid), wf_testgrid.
Defined.

(** A board that keeps two equal clues of one row has a non-zero
    fitness. *)
Lemma duplicate_fitness (b g : grid) :
  wf_grid b → has_row_duplicate b → individual_of b g →
  _fitness_filled_sudoku g ≠ 0%Z.
Proof.
  intros Hwf (i & j1 & j2 & Hi & Hj & Hnz & Heq) [Hwfg Hkeep] Hfit.
  apply fitness_zero in Hfit as (Hrows & _); [|done].
  specialize (Hrows i Hi).
  pose proof (length_whatis_rowlist g i 0 Hwfg Hi) as Hlen.
  pose proof (proj2 (all_symbols_complete _ Hlen) Hrows) as Hall.
  pose proof (all_symbols_Permutation _ Hlen Hall) as Hperm.
  pose proof NoDup_symbols as Hnd. rewrite Hperm in Hnd.
  assert (j1 = j2); [|lia].
  eapply NoDup_lookup; [exact Hnd|..].
  - apply cell_lookup; [done..|lia].
  - rewrite cell_lookup by (done || lia). f_equal.
    rewrite (Hkeep i j1 Hnz). rewrite Heq in Hnz.
    by rewrite (Hkeep i j2 Hnz).
Qed.

(** C9. For every input board with two equal clues in one row, and whatever
    the draws, no individual of any population of the run has fitness 0,
    and the run ends by raising the no-solution exception, after the
    [_max_restart] = 5 restarts have each gone through their
    [_max_cycles] = 100 cycles. *)
Theorem duplicate_clue_no_solution (b : grid) :
  wf_grid b → has_row_duplicate b →
  ∃ self, SudokuGA.new b = Ok self
    ∧ ∀ r : rng,
        (∀ population g, population ∈ (run self r).1 → g ∈ population →
           _fitness_filled_sudoku g ≠ 0%Z)
        ∧ (run self r).2 = Raise NoSolution
        ∧ length (run self r).1 = 5 * (1 + 2 * 100).
Proof.
  intros Hwf Hdup. destruct (new_Ok b) as (self & Hnew & Hinit & Hfixed).
  exists self. split; [done|]. intros r.
  destruct (restarts_spec b self Hwf Hinit Hfixed _max_restart r)
    as [Hall Hres].
  fold (run self r) in Hall, Hres. split.
  - intros population g Hpop Hg.
    eapply Forall_forall in Hall; [|exact Hpop]. destruct Hall as [_ Hall].
    eapply Forall_forall in Hall; [|exact Hg].
    by eapply duplicate_fitness.
  - destruct (run self r).2 as [solution|e].
    + destruct Hres as [Hind Hfit]. exfalso.
      by eapply duplicate_fitness.
    + by destruct Hres as [-> Hlen].
Qed.

Lemma has_row_duplicate_dupgrid : has_row_duplicate dupgrid.
Proof. exists 0, 0, 1. repeat split; try lia. by vm_compute. Qed.

Lemma wf_dupgrid : wf_grid dupgrid.
Proof. split; [reflexivity|]. repeat constructor. Qed.

Lemma duplicate_clue_no_solution_witness :
  wf_grid dupgrid ∧ has_row_duplicate dupgrid
  ∧ ∃ self, SudokuGA.new dupgrid = Ok self
      ∧ ∀ r : rng,
          (∀ population g, population ∈ (run self r).1 → g ∈ population →
             _fitness_filled_sudoku g ≠ 0%Z)
          ∧ (run self r).2 = Raise NoSolution
          ∧ length (run self r).1 = 5 * (1 + 2 * 100).
Proof.
  split; [apply wf_dupgrid|]. split; [apply has_row_duplicate_dupgrid|].
  apply (duplicate_clue_no_solution dupgrid);
    [apply wf_dupgrid|apply has_row_duplicate_dupgrid].
Defined.

(** ** Pencil marks: the candidate grid *)

Lemma wf_cands_lookup (p : list (list (list bool))) (x y : nat) :
  wf_cands p → x < 9 → y < 9 →
  ∃ r f, p !! x = Some r ∧ r !! y = Some f
         ∧ length r = 9 ∧ length f = 9 ∧ flags_at p x y = f.
Proof.
  intros [Hlen Hrows] Hx Hy.
  destruct (lookup_lt_is_Some_2 p x) as [r Hr]; [lia|].
  pose proof (Forall_lookup_1 _ _ _ _ Hrows Hr) as [Hrlen Hfs].
  destruct (lookup_lt_is_Some_2 r y) as [f Hf]; [lia|].
  pose proof (Forall_lookup_1 _ _ _ _ Hfs Hf) as Hflen.
  exists r, f. unfold flags_at. rewrite Hr. cbn. by rewrite Hf.
Qed.

Lemma length_flags_at (p : list (list (list bool))) (x y : nat) :
  wf_cands p → x < 9 → y < 9 → length (flags_at p x y) = 9.
Proof.
  intros Hwf Hx Hy.
  by destruct (wf_cands_lookup p x y Hwf Hx Hy) as (r & f & _ & _ & _ & ? & ->).
Qed.

Lemma wf_cands_fresh : wf_cands PM.fresh.
Proof.
  split; [reflexivity|]. apply Forall_replicate. split; [reflexivity|].
  by apply Forall_replicate.
Qed.

Lemma flags_at_fresh (x y m : nat) :
  x < 9 → y < 9 → m < 9 → flags_at PM.fresh x y !! m = Some true.
Proof.
  intros Hx Hy Hm. unfold flags_at, PM.fresh.
  rewrite (lookup_replicate_2 9 _ x Hx). cbn [mbind option_bind].
  rewrite (lookup_replicate_2 9 _ y Hy). cbn [default from_option id].
  by apply lookup_replicate_2.
Qed.

(** Changing the vector of one cell. *)
Lemma flags_at_alter (p : list (list (list bool))) (F : list bool → list bool)
    (x y x' y' : nat) :
  wf_cands p → x < 9 → y < 9 →
  flags_at (alter (alter F y) x p) x' y'
  = if decide (x' = x ∧ y' = y) then F (flags_at p x y) else flags_at p x' y'.
Proof.
  intros Hwf Hx Hy.
  destruct (wf_cands_lookup p x y Hwf Hx Hy) as (r & f & Hr & Hf & _ & _ & Hfl).
  unfold flags_at in *. rewrite list_lookup_alter.
  destruct (decide (x = x')) as [<-|Hne].
  - rewrite Hr in *. cbn in *. rewrite list_lookup_alter.
    destruct (decide (y = y')) as [<-|Hney].
    + rewrite decide_True by done. rewrite Hf in *. cbn in *. by subst.
    + rewrite decide_False by (intros [_ ->]; done). done.
  - rewrite decide_False by (intros [-> _]; done). done.
Qed.

Lemma wf_cands_alter (p : list (list (list bool))) (F : list bool → list bool)
    (x y : nat) :
  wf_cands p → (∀ f, length f = 9 → length (F f) = 9) →
  wf_cands (alter (alter F y) x p).
Proof.
  intros [Hlen Hrows] HF. split; [by rewrite length_alter|].
  apply Forall_alter; [done|]. intros r _ [Hrlen Hfs]. split.
  - by rewrite length_alter.
  - apply Forall_alter; [done|]. intros f _. apply HF.
Qed.

Lemma alter_insert_alter (p : list (list (list bool))) (x y : nat)
    (v : list bool) :
  alter (<[y := v]>) x p = alter (alter (λ _, v) y) x p.
Proof.
  apply list_alter_ext; [|done]. intros r _. apply list_insert_alter.
Qed.

Lemma py_index_symbol (v : Z) :
  (1 ≤ v ≤ 9)%Z → py_index 9 (v - 1) = Some (Z.to_nat (v - 1)).
Proof. intros Hv. unfold py_index. rewrite decide_True by lia. done. Qed.

Lemma set_flag_spec (p : list (list (list bool))) (x y : nat) (v : Z)
    (b : bool) :
  wf_cands p → x < 9 → y < 9 → (1 ≤ v ≤ 9)%Z →
  PM.set_flag p x y (v - 1) b
  = Ok (alter (alter (<[Z.to_nat (v - 1) := b]>) y) x p).
Proof.
  intros Hwf Hx Hy Hv.
  destruct (wf_cands_lookup p x y Hwf Hx Hy) as (r & f & Hr & Hf & _ & Hl & _).
  unfold PM.set_flag. rewrite Hr. cbn. rewrite Hf, Hl.
  by rewrite py_index_symbol.
Qed.

(** Lowering one flag in the cells of a list of coordinates. *)
Lemma clear_flags_spec (rcs : list coord) (p : list (list (list bool)))
    (v : Z) :
  wf_cands p → (1 ≤ v ≤ 9)%Z →
  Forall (λ rc : coord, rc.1 < 9 ∧ rc.2 < 9) rcs →
  ∃ p', for_res rcs (λ p' rc, PM.set_flag p' rc.1 rc.2 (v - 1) false) p
        = Ok p'
        ∧ wf_cands p'
        ∧ ∀ x y, flags_at p' x y
                 = if decide ((x, y) ∈ rcs)
                   then <[Z.to_nat (v - 1) := false]> (flags_at p x y)
                   else flags_at p x y.
Proof.
  intros Hwf Hv Hrcs. revert p Hwf.
  induction Hrcs as [|[rx ry] rcs [Hrx Hry] _ IH]; intros p Hwf.
  - exists p. split; [done|]. split; [done|]. intros x y.
    rewrite decide_False; [done|]. by intros ?%elem_of_nil.
  - cbn [for_res fst snd] in *.
    rewrite set_flag_spec by done. cbn [mbind result_bind].
    destruct (IH (alter (alter (<[Z.to_nat (v - 1) := false]>) ry) rx p))
      as (p' & Hp' & Hwf' & Hflags).
    { apply wf_cands_alter; [done|]. intros f Hf. by rewrite length_insert. }
    exists p'. split; [done|]. split; [done|]. intros x y.
    rewrite Hflags, flags_at_alter by done.
    destruct (decide (x = rx ∧ y = ry)) as [[-> ->]|Hne].
    + rewrite (decide_True (P := (rx, ry) ∈ (rx, ry) :: rcs)) by left.
      case_decide; [|done]. by rewrite list_insert_insert_eq.
    + destruct (decide ((x, y) ∈ rcs)) as [Hin|Hnin].
      * rewrite decide_True by by right. done.
      * rewrite decide_False; [done|].
        intros [[=]|?]%elem_of_cons; [|done]. apply Hne. by subst.
Qed.

(** ** Pencil marks: the first double loop *)

Lemma cell_value (g : grid) (i j : nat) :
  valid_board g → (0 ≤ cell g i j ≤ 9)%Z.
Proof.
  intros [_ Hvals]. unfold cell.
  destruct (g !! i) as [row|] eqn:Hi; [|cbn; lia]. cbn.
  destruct (row !! j) as [v|] eqn:Hj; [|cbn; lia]. cbn.
  eapply Forall_lookup_1 in Hvals; [|done].
  by eapply Forall_lookup_1 in Hvals.
Qed.

Lemma related_coords_bound (i j : nat) :
  i < 9 → j < 9 →
  Forall (λ rc : coord, rc.1 < 9 ∧ rc.2 < 9) (elements (related_coords i j)).
Proof.
  intros Hi Hj. apply Forall_forall. intros rc Hrc.
  apply elem_of_elements, elem_of_related_coords in Hrc; [|done..]. tauto.
Qed.

Lemma insert_false_true (f : list bool) (k m : nat) :
  <[k := false]> f !! m = Some true ↔ f !! m = Some true ∧ k ≠ m.
Proof.
  rewrite list_lookup_insert. case_decide as Hk.
  - destruct Hk as [-> _]. split; [done|]. by intros [_ ?].
  - split; [|tauto]. intros Hm. split; [done|]. intros ->.
    apply Hk. split; [done|]. by eapply lookup_lt_Some.
Qed.

(** The body of the first double loop, seen from an unknown cell. *)
Lemma constrain_cell_spec (g : grid) (p : list (list (list bool)))
    (c : coord) :
  valid_board g → wf_cands p → c.1 < 9 → c.2 < 9 →
  ∃ p', PM.constrain_cell g p c = Ok p'
        ∧ wf_cands p'
        ∧ ∀ x y m, cell g x y = 0%Z →
            flags_at p' x y !! m = Some true
            ↔ flags_at p x y !! m = Some true ∧ ¬ clears g x y m c.
Proof.
  destruct c as [i j]. cbn [fst snd]. intros Hvalid Hwf Hi Hj.
  unfold PM.constrain_cell, clears. cbn [fst snd].
  pose proof (cell_value g i j Hvalid) as Hv.
  case_decide as Hnz.
  2:{ exists p. split; [done|]. split; [done|]. intros x y m _. tauto. }
  rewrite alter_insert_alter.
  set (p1 := alter (alter (λ _, replicate 9 false) j) i p).
  assert (wf_cands p1) as Hwf1.
  { apply wf_cands_alter; [done|]. intros f _. by rewrite length_replicate. }
  rewrite set_flag_spec by (done || lia). cbn [mbind result_bind].
  set (p2 := alter (alter _ j) i p1).
  assert (wf_cands p2) as Hwf2.
  { apply wf_cands_alter; [done|]. intros f Hf. by rewrite length_insert. }
  destruct (clear_flags_spec (elements (related_coords i j)) p2 (cell g i j))
    as (p' & Hp' & Hwf' & Hflags);
    [done|lia|by apply related_coords_bound|].
  exists p'. split; [done|]. split; [done|]. intros x y m Hxy.
  assert (¬ (x = i ∧ y = j)) as Hne by (intros [-> ->]; done).
  rewrite Hflags.
  assert (flags_at p2 x y = flags_at p x y) as ->.
  { unfold p2. rewrite (flags_at_alter p1) by done.
    rewrite decide_False by done. unfold p1.
    rewrite (flags_at_alter p) by done. by rewrite decide_False. }
  case_decide as Hrel.
  - apply elem_of_elements in Hrel. rewrite insert_false_true. tauto.
  - rewrite elem_of_elements in Hrel. tauto.
Qed.

(** The first double loop, seen from an unknown cell: a flag stays up
    if and only if no fixed cell clears it. *)
Lemma constrain_pass_spec (cs : list coord) (g : grid)
    (p : list (list (list bool))) :
  valid_board g → wf_cands p →
  Forall (λ c : coord, c.1 < 9 ∧ c.2 < 9) cs →
  ∃ p', for_res cs (PM.constrain_cell g) p = Ok p'
        ∧ wf_cands p'
        ∧ ∀ x y m, cell g x y = 0%Z →
            flags_at p' x y !! m = Some true
            ↔ flags_at p x y !! m = Some true ∧ ¬ cleared g cs x y m.
Proof.
  intros Hvalid Hwf Hcs. revert p Hwf.
  induction Hcs as [|c cs [Hc1 Hc2] _ IH]; intros p Hwf.
  - exists p. split; [done|]. split; [done|]. intros x y m _.
    unfold cleared. rewrite Exists_nil. tauto.
  - cbn [for_res].
    destruct (constrain_cell_spec g p c Hvalid Hwf Hc1 Hc2)
      as (p1 & -> & Hwf1 & Hp1).
    cbn [mbind result_bind].
    destruct (IH p1 Hwf1) as (p' & Hp' & Hwf' & Hflags).
    exists p'. split; [done|]. split; [done|]. intros x y m Hxy.
    rewrite Hflags, Hp1 by done. unfold cleared. rewrite Exists_cons. tauto.
Qed.

Lemma all_coords_bound : Forall (λ c : coord, c.1 < 9 ∧ c.2 < 9) all_coords.
Proof. apply Forall_forall. intros c. by rewrite elem_of_all_coords. Qed.

(** ** Pencil marks: the second double loop *)

Lemma index_true_spec (flags : list bool) :
  PM.count_true flags = 1 →
  ∃ k, PM.index_true flags = Some k ∧ flags !! k = Some true.
Proof.
  unfold PM.count_true, PM.index_true. intros Hcount.
  destruct (filter (λ b, b = true) flags) as [|b bs] eqn:Hf; [done|].
  assert (b ∈ filter (λ b, b = true) flags) as Hb by (rewrite Hf; left).
  apply list_elem_of_filter in Hb as [-> Hb].
  destruct (list_find_elem_of (λ b, b = true) flags true Hb eq_refl)
    as [[k b'] Hfind].
  exists k. rewrite Hfind. split; [done|].
  apply list_find_Some in Hfind as (Hk & -> & _). done.
Qed.

Lemma keeps_clues_refl (g : grid) : keeps_clues g g.
Proof. by intros i j _. Qed.

Lemma keeps_clues_trans (g1 g2 g3 : grid) :
  keeps_clues g1 g2 → keeps_clues g2 g3 → keeps_clues g1 g3.
Proof.
  intros H12 H23 i j Hc. rewrite <- (H12 i j Hc).
  apply H23. by rewrite (H12 i j Hc).
Qed.

Lemma valid_board_update (g : grid) (i j : nat) (v : Z) :
  valid_board g → (0 ≤ v ≤ 9)%Z → valid_board (update g i j v).
Proof.
  intros [Hwf Hvals] Hv. split; [by apply wf_grid_update|].
  unfold values_ok, update. apply Forall_alter; [done|].
  intros row _ Hrow. by apply Forall_insert.
Qed.

Lemma keeps_clues_update (g : grid) (i j : nat) (v : Z) :
  wf_grid g → i < 9 → j < 9 → cell g i j = 0%Z →
  keeps_clues g (update g i j v).
Proof.
  intros Hwf Hi Hj Hz i' j' Hc. rewrite cell_update by done.
  case_decide as Heq; [|done]. destruct Heq as [<- <-]. done.
Qed.

Lemma filter_length_le {A : Type} (P Q : A → Prop)
    `{!∀ a, Decision (P a)} `{!∀ a, Decision (Q a)} (l : list A) :
  (∀ a, a ∈ l → Q a → P a) →
  length (filter Q l) ≤ length (filter P l).
Proof.
  induction l as [|a l IH]; intros HQP; [done|].
  assert (length (filter Q l) ≤ length (filter P l)) as Hle.
  { apply IH. intros a' Ha'. apply HQP. by right. }
  rewrite !filter_cons.
  destruct (decide (Q a)) as [HQ|HQ].
  - rewrite decide_True by (apply HQP; [left|done]). cbn [length]. lia.
  - destruct (decide (P a)); cbn [length]; lia.
Qed.

Lemma filter_length_lt {A : Type} (P Q : A → Prop)
    `{!∀ a, Decision (P a)} `{!∀ a, Decision (Q a)} (l : list A) (x : A) :
  (∀ a, a ∈ l → Q a → P a) → x ∈ l → P x → ¬ Q x →
  length (filter Q l) < length (filter P l).
Proof.
  induction l as [|a l IH]; intros HQP Hx HP HQ.
  { by apply elem_of_nil in Hx. }
  assert (∀ a', a' ∈ l → Q a' → P a') as HQP'.
  { intros a' Ha'. apply HQP. by right. }
  rewrite !filter_cons. apply elem_of_cons in Hx as [<-|Hx].
  - destruct (decide (Q x)); [done|]. destruct (decide (P x)); [|done].
    cbn [length]. pose proof (filter_length_le P Q l HQP'). lia.
  - specialize (IH HQP' Hx HP HQ). destruct (decide (Q a)) as [HQa|HQa].
    + rewrite decide_True by (apply HQP; [left|done]). cbn [length]. lia.
    + destruct (decide (P a)); cbn [length]; lia.
Qed.

Lemma unknowns_update (g : grid) (i j : nat) (v : Z) :
  wf_grid g → i < 9 → j < 9 → cell g i j = 0%Z → v ≠ 0%Z →
  length (unknowns (update g i j v)) < length (unknowns g).
Proof.
  intros Hwf Hi Hj Hz Hv. unfold unknowns.
  apply (filter_length_lt _ _ all_coords (i, j)).
  - intros [i' j'] _. cbn [fst snd]. rewrite cell_update by done.
    case_decide as Heq; [|done]. destruct Heq as [<- <-]. done.
  - by apply elem_of_all_coords.
  - done.
  - cbn [fst snd]. rewrite cell_update by done.
    rewrite decide_True by done. done.
Qed.

(** The body of the second double loop. *)
Lemma reveal_cell_spec (p : list (list (list bool))) (round g : grid)
    (n : nat) (log : list PM.write) (c : coord) :
  (¬ (PM.count_true (flags_at p c.1 c.2) = 1 ∧ cell g c.1 c.2 = 0%Z)
   ∧ PM.reveal_cell p round (g, n, log) c = Ok (g, n, log))
  ∨ (PM.count_true (flags_at p c.1 c.2) = 1 ∧ cell g c.1 c.2 = 0%Z
     ∧ ∃ k, flags_at p c.1 c.2 !! k = Some true
            ∧ PM.reveal_cell p round (g, n, log) c
              = Ok (update g c.1 c.2 (Z.of_nat k + 1), S n,
                    log ++ [PM.Write c (Z.of_nat k + 1) g round])).
Proof.
  unfold PM.reveal_cell. fold (flags_at p c.1 c.2).
  case_decide as Hc; [|by left]. right. destruct Hc as [Hcount Hz].
  destruct (index_true_spec _ Hcount) as (k & -> & Hk). eauto.
Qed.

Lemma quiet_reveal (cs : list coord) (p : list (list (list bool)))
    (round g : grid) (n : nat) (log : list PM.write) :
  quiet g p cs →
  for_res cs (PM.reveal_cell p round) (g, n, log) = Ok (g, n, log).
Proof.
  induction cs as [|c cs IH]; intros Hq; [done|]. cbn [for_res].
  destruct (reveal_cell_spec p round g n log c)
    as [[_ ->]|(Hcount & Hz & _)].
  - cbn [mbind result_bind]. apply IH. intros c' Hc'. apply Hq. by right.
  - exfalso. apply (Hq c); [left|done].
Qed.

(** The second double loop: it does not raise; it only writes symbols
    into unknown cells; it counts its writes; without a write the grid is
    unchanged and there was nothing to write. *)
Lemma reveal_pass_spec (cs : list coord) (p : list (list (list bool)))
    (round : grid) :
  wf_cands p → Forall (λ c : coord, c.1 < 9 ∧ c.2 < 9) cs →
  ∀ (g : grid) (n : nat) (log : list PM.write),
    valid_board g → keeps_clues round g →
    ∃ g' new,
      for_res cs (PM.reveal_cell p round) (g, n, log)
      = Ok (g', n + length new, log ++ new)
      ∧ valid_board g'
      ∧ keeps_clues g g'
      ∧ length (unknowns g') + length new ≤ length (unknowns g)
      ∧ Forall (raw_write p round) new
      ∧ (new = [] → g' = g ∧ quiet g p cs).
Proof.
  intros Hwfp Hcs.
  induction Hcs as [|c cs [Hc1 Hc2] _ IH]; intros g n log Hvalid Hkeep.
  { exists g, []. cbn [for_res length]. rewrite Nat.add_0_r, app_nil_r.
    split; [done|]. split; [done|]. split; [apply keeps_clues_refl|].
    split; [lia|]. split; [constructor|]. intros _. split; [done|].
    by intros c ?%elem_of_nil. }
  cbn [for_res].
  destruct (reveal_cell_spec p round g n log c)
    as [[Hno ->]|(Hcount & Hz & k & Hk & ->)]; cbn [mbind result_bind].
  - destruct (IH g n log Hvalid Hkeep)
      as (g' & new & -> & Hvalid' & Hkeep' & Hlen & Hnew & Hquiet).
    exists g', new. do 5 (split; [done|]). intros Hnil.
    destruct (Hquiet Hnil) as [-> Hq]. split; [done|].
    intros c' [->|Hc']%elem_of_cons; [done|by apply Hq].
  - pose proof (lookup_lt_Some _ _ _ Hk) as Hklt.
    rewrite length_flags_at in Hklt by done.
    set (v := (Z.of_nat k + 1)%Z) in *.
    assert (1 ≤ v ≤ 9)%Z as Hv by (unfold v; lia).
    destruct Hvalid as [Hwf Hvals].
    pose proof (keeps_clues_update g c.1 c.2 v Hwf Hc1 Hc2 Hz) as Hkeep1.
    destruct (IH (update g c.1 c.2 v) (S n)
                (log ++ [PM.Write c v g round]))
      as (g' & new & -> & Hvalid' & Hkeep' & Hlen & Hnew & _).
    { apply valid_board_update; [done|lia]. }
    { by eapply keeps_clues_trans. }
    exists g', (PM.Write c v g round :: new).
    rewrite <- app_assoc. cbn [app length].
    split; [by rewrite Nat.add_succ_r|].
    split; [done|]. split; [by eapply keeps_clues_trans|]. split.
    { pose proof (unknowns_update g c.1 c.2 v Hwf Hc1 Hc2 Hz). lia. }
    split; [|done]. constructor; [|done].
    unfold raw_write. cbn [PM.w_round PM.w_coord PM.w_board PM.w_value].
    do 6 (split; [done|]). by exists k.
Qed.

(** ** Pencil marks: the rounds *)

Lemma shares_group_sym (c d : coord) : shares_group c d → shares_group d c.
Proof. unfold shares_group, same_block. intuition congruence. Qed.

Lemma cands_inv_fresh (g : grid) : cands_inv g PM.fresh.
Proof.
  split; [apply wf_cands_fresh|]. intros x y m Hx Hy Hm _ Hne.
  by rewrite flags_at_fresh in Hne.
Qed.

Lemma cleared_keeps (g g' : grid) (cs : list coord) (x y m : nat) :
  keeps_clues g g' → cleared g cs x y m → cleared g' cs x y m.
Proof.
  intros Hkeep. unfold cleared. intros Hex.
  eapply Exists_impl; [exact Hex|].
  intros c (Hnz & Hrel & Hm). unfold clears.
  rewrite (Hkeep _ _ Hnz). done.
Qed.

Lemma cands_inv_keeps (g g' : grid) (p : list (list (list bool))) :
  keeps_clues g g' → cands_inv g p → cands_inv g' p.
Proof.
  intros Hkeep [Hwf Hinv]. split; [done|]. intros x y m Hx Hy Hm Hz Hne.
  eapply cleared_keeps; [done|]. apply Hinv; [done..| |done].
  destruct (decide (cell g x y = 0%Z)) as [|Hnz]; [done|].
  rewrite <- (Hkeep x y Hnz) in Hnz. done.
Qed.

Section Round.

Variable g : grid.
Variables p p' : list (list (list bool)).
Hypothesis Hvalid : valid_board g.
Hypothesis Hinv : cands_inv g p.
Hypothesis Hpass : for_res all_coords (PM.constrain_cell g) p = Ok p'.

(** After the first double loop, a flag of an unknown cell is up exactly
    when no fixed cell clears it. *)
Lemma constrained_flag (x y m : nat) :
  x < 9 → y < 9 → m < 9 → cell g x y = 0%Z →
  flags_at p' x y !! m = Some true ↔ ¬ cleared g all_coords x y m.
Proof using Hvalid Hinv Hpass.
  intros Hx Hy Hm Hz. destruct Hinv as [Hwf Hdown].
  destruct (constrain_pass_spec all_coords g p Hvalid Hwf all_coords_bound)
    as (p'' & Hp'' & _ & Hflags).
  rewrite Hpass in Hp''. injection Hp'' as <-.
  rewrite Hflags by done. split; [tauto|]. intros Hnot. split; [|done].
  destruct (decide (flags_at p x y !! m = Some true)) as [|Hne]; [done|].
  exfalso. apply Hnot. by apply Hdown.
Qed.

Lemma constrained_wf : wf_cands p'.
Proof using Hvalid Hinv Hpass.
  destruct Hinv as [Hwf _].
  destruct (constrain_pass_spec all_coords g p Hvalid Hwf all_coords_bound)
    as (p'' & Hp'' & Hwf' & _).
  rewrite Hpass in Hp''. by injection Hp'' as <-.
Qed.

Lemma constrained_inv : cands_inv g p'.
Proof using Hvalid Hinv Hpass.
  split; [apply constrained_wf|]. intros x y m Hx Hy Hm Hz Hne.
  destruct (decide (cleared g all_coords x y m)) as [|Hnot]; [done|].
  exfalso. apply Hne. by apply constrained_flag.
Qed.

(** What the second double loop writes in this round is sound. *)
Lemma raw_write_sound (w : PM.write) : raw_write p' g w → sound_write w.
Proof using Hvalid Hinv Hpass.
  destruct w as [[x y] v board round].
  unfold raw_write, sound_write.
  cbn [PM.w_round PM.w_coord PM.w_board PM.w_value fst snd].
  intros (-> & Hx & Hy & Hwf & Hkeep & Hz & k & Hk & ->).
  pose proof (lookup_lt_Some _ _ _ Hk) as Hklt.
  rewrite length_flags_at in Hklt by (done || apply constrained_wf).
  do 3 (split; [done|]). split; [lia|]. split; [done|].
  intros [cx cy] Hcx Hcy Hne Hshare Hval. cbn [fst snd] in *.
  assert (cell g x y = 0%Z) as Hzg.
  { destruct (decide (cell g x y = 0%Z)) as [|Hnz]; [done|].
    rewrite <- (Hkeep x y Hnz) in Hnz. done. }
  apply (constrained_flag x y k) in Hk; [|done..]. apply Hk.
  apply Exists_exists. exists (cx, cy).
  split; [by apply elem_of_all_coords|]. unfold clears. cbn [fst snd].
  rewrite Hval. split; [lia|]. split; [|lia].
  apply elem_of_related_coords; [done..|]. cbn [fst snd].
  do 2 (split; [done|]). split; [congruence|].
  by apply shares_group_sym.
Qed.

End Round.

(** On one board, the first double loop leaves the unknown cells with the
    same flags whether it starts from the flags of earlier rounds or from
    fresh ones. *)
Lemma constrained_flags_fresh (g : grid) (p pa pb : list (list (list bool)))
    (x y : nat) :
  valid_board g → cands_inv g p →
  for_res all_coords (PM.constrain_cell g) p = Ok pa →
  for_res all_coords (PM.constrain_cell g) PM.fresh = Ok pb →
  x < 9 → y < 9 → cell g x y = 0%Z →
  flags_at pa x y = flags_at pb x y.
Proof.
  intros Hvalid Hinv Hpa Hpb Hx Hy Hz.
  pose proof (constrained_wf g p pa Hvalid Hinv Hpa) as Hwfa.
  pose proof (constrained_wf g _ pb Hvalid (cands_inv_fresh g) Hpb) as Hwfb.
  pose proof (length_flags_at pa x y Hwfa Hx Hy) as Hla.
  pose proof (length_flags_at pb x y Hwfb Hx Hy) as Hlb.
  apply list_eq. intros m. destruct (decide (m < 9)) as [Hm|Hm].
  - pose proof (constrained_flag g p pa Hvalid Hinv Hpa x y m Hx Hy Hm Hz)
      as Ha.
    pose proof (constrained_flag g _ pb Hvalid (cands_inv_fresh g) Hpb
                  x y m Hx Hy Hm Hz) as Hb.
    destruct (lookup_lt_is_Some_2 (flags_at pa x y) m) as [ba Hba]; [lia|].
    destruct (lookup_lt_is_Some_2 (flags_at pb x y) m) as [bb Hbb]; [lia|].
    rewrite Hba, Hbb in *. f_equal.
    destruct ba, bb; try done.
    + assert (Some false = Some true) by (apply Hb, Ha; done). done.
    + assert (Some false = Some true) by (apply Ha, Hb; done). done.
  - rewrite !lookup_ge_None_2 by lia. done.
Qed.

Lemma length_unknowns (g : grid) : length (unknowns g) ≤ 81.
Proof. unfold unknowns. apply length_filter. Qed.

(** The loop of [run]: with more fuel than unknown cells it finishes;
    its writes are sound; and a new run on the grid it leaves finishes in
    one round without a write. *)
Lemma run_loop_spec (fuel : nat) :
  ∀ (g : grid) (p : list (list (list bool))) (log : list PM.write),
    valid_board g → cands_inv g p → length (unknowns g) < fuel →
    ∃ g' new,
      PM.run_loop fuel g p log = PM.Finished g' (log ++ new)
      ∧ valid_board g'
      ∧ keeps_clues g g'
      ∧ Forall sound_write new
      ∧ ∀ fuel', 0 < fuel' → PM.run fuel' g' = PM.Finished g' [].
Proof.
  induction fuel as [|fuel IH]; intros g p log Hvalid Hinv Hfuel; [lia|].
  cbn [PM.run_loop].
  destruct (constrain_pass_spec all_coords g p Hvalid (proj1 Hinv)
              all_coords_bound) as (p' & Hp' & Hwf' & _).
  rewrite Hp'.
  destruct (reveal_pass_spec all_coords p' g Hwf' all_coords_bound g 0 log
              Hvalid (keeps_clues_refl g))
    as (g1 & new & -> & Hvalid1 & Hkeep1 & Hlen & Hraw & Hquiet).
  cbn [Nat.add].
  assert (Forall sound_write new) as Hsound.
  { eapply Forall_impl; [done|]. intros w. by eapply raw_write_sound. }
  case_decide as Hfound.
  - (* no write in this round: the loop ends *)
    apply length_zero_iff_nil in Hfound.
    destruct (Hquiet Hfound) as [-> Hq]. exists g, new.
    do 4 (split; [done|]). intros [|fuel'] Hpos; [lia|].
    unfold PM.run. cbn [PM.run_loop].
    destruct (constrain_pass_spec all_coords g PM.fresh Hvalid
                wf_cands_fresh all_coords_bound) as (pb & Hpb & _ & _).
    rewrite Hpb. rewrite quiet_reveal; [by rewrite decide_True|].
    intros c Hc [Hcount Hz]. apply (Hq c Hc). split; [|done].
    apply elem_of_all_coords in Hc as [Hc1 Hc2].
    by rewrite (constrained_flags_fresh g p p' pb).
  - (* a write: one unknown cell less, next round *)
    assert (length new ≠ 0) as Hne by done.
    destruct (IH g1 p' (log ++ new)) as (g' & new' & -> & Hvalid' & Hkeep'
                                         & Hsound' & Hstable).
    { done. }
    { eapply cands_inv_keeps; [done|]. by eapply constrained_inv. }
    { lia. }
    exists g', (new ++ new'). rewrite app_assoc. split; [done|].
    split; [done|]. split; [by eapply keeps_clues_trans|].
    split; [by apply Forall_app|done].
Qed.

Lemma run_spec (fuel : nat) (g : grid) :
  valid_board g → 82 ≤ fuel →
  ∃ g' log,
    PM.run fuel g = PM.Finished g' log
    ∧ valid_board g'
    ∧ keeps_clues g g'
    ∧ Forall sound_write log
    ∧ ∀ fuel', 0 < fuel' → PM.run fuel' g' = PM.Finished g' [].
Proof.
  intros Hvalid Hfuel. unfold PM.run at 1.
  destruct (run_loop_spec fuel g PM.fresh [] Hvalid (cands_inv_fresh g))
    as (g' & new & Hrun & Hrest).
  { pose proof (length_unknowns g). lia. }
  exists g', new. by rewrite Hrun.
Qed.

Lemma valid_testgrid : valid_board testgrid.
Proof.
  split; [apply wf_testgrid|]. unfold values_ok, testgrid.
  repeat (constructor; [repeat (constructor; [lia|]); constructor|]).
  constructor.
Qed.

(** C3. For every Board, [run] finishes (82 rounds of fuel are enough: a
    round that does not end the loop fixes one of the at most 81 unknown
    cells), and a new [run] on the board it leaves finishes with the same
    board, without any write. *)
Theorem pencil_mark_idempotent (fuel : nat) (g : grid) :
  valid_board g → 82 ≤ fuel →
  ∃ g' log,
    PM.run fuel g = PM.Finished g' log
    ∧ PM.run fuel g' = PM.Finished g' [].
Proof.
  intros Hvalid Hfuel.
  destruct (run_spec fuel g Hvalid Hfuel)
    as (g' & log & Hrun & _ & _ & _ & Hstable).
  exists g', log. split; [done|]. apply Hstable. lia.
Qed.

Lemma pencil_mark_idempotent_witness :
  valid_board testgrid ∧ 82 ≤ 82
  ∧ ∃ g' log,
      PM.run 82 testgrid = PM.Finished g' log
      ∧ PM.run 82 g' = PM.Finished g' [].
Proof.
  split; [apply valid_testgrid|]. split; [lia|].
  apply (pencil_mark_idempotent 82 testgrid); [apply valid_testgrid|lia].
Defined.

(** C4, as stated, fails on [twincell]: the cells (0,4) and (0,5) both have
    5 as their only candidate; the second double loop writes 5 into (0,4)
    and then into (0,5), at a moment when row 0 already holds that 5. *)
Lemma sound_at_call_counterexample :
  ∃ g' log w,
    PM.run 82 twincell = PM.Finished g' log
    ∧ w ∈ log ∧ ¬ sound_at_call w.
Proof.
  eexists _, _, _. split; [vm_compute; reflexivity|].
  split; [right; left|].
  intros [_ Hsound]. apply (Hsound (0, 4)); cbn [fst snd PM.w_coord].
  - lia.
  - lia.
  - discriminate.
  - by left.
  - by vm_compute.
  - by vm_compute.
Qed.

(** C4, amended. For every Board, [run] finishes and every value it writes
    is a symbol 1-9, written into a cell that holds 0 at the moment of
    writing, on a grid that keeps all the values the round started with;
    the symbol differs from the value that every other cell of row i, of
    column j and of the block of (i,j) held at the start of the round of
    the write. *)
Theorem pencil_mark_sound (fuel : nat) (g : grid) :
  valid_board g → 82 ≤ fuel →
  ∃ g' log,
    PM.run fuel g = PM.Finished g' log ∧ Forall sound_write log.
Proof.
  intros Hvalid Hfuel.
  destruct (run_spec fuel g Hvalid Hfuel)
    as (g' & log & Hrun & _ & _ & Hsound & _).
  by exists g', log.
Qed.

Lemma pencil_mark_sound_witness :
  valid_board testgrid ∧ 82 ≤ 82
  ∧ ∃ g' log,
      PM.run 82 testgrid = PM.Finished g' log ∧ Forall sound_write log.
Proof.
  split; [apply valid_testgrid|]. split; [lia|].
  apply (pencil_mark_sound 82 testgrid); [apply valid_testgrid|lia].
Defined.

(** * Further properties *)

(** ** SudokuObject: construction, copy, access *)

Lemma chunks9 (n : nat) (data : list Z) :
  length data = 9 * n →
  ∃ rows : list (list Z),
    length rows = n ∧ Forall (λ row, length row = 9) rows
    ∧ concat rows = data.
Proof.
  revert data. induction n as [|n IH]; intros data Hlen.
  - exists []. destruct data; [done|cbn [length] in Hlen; lia].
  - destruct (IH (drop 9 data)) as (rows & Hn & Hrows & Hcat).
    { rewrite length_drop. lia. }
    exists (take 9 data :: rows). cbn [length concat].
    split; [lia|]. split.
    + constructor; [|done]. rewrite length_take. lia.
    + by rewrite Hcat, take_drop.
Qed.

Lemma new_row_major_aux (data : list Z) :
  length data = 81 →
  ∃ g, SudokuObject.new data = Ok g ∧ wf_grid g ∧ concat g = data.
Proof.
  intros Hlen. destruct (chunks9 9 data) as (g & Hg & Hrows & Hcat); [lia|].
  exists g. rewrite <- Hcat at 1. split; [by apply new_concat|]. done.
Qed.

(** X1. [SudokuObject(sudoku_data)] on a list of 81 integers gives a grid
    of nine rows of nine cells that holds the list in row-major order. *)
Theorem new_row_major (data : list Z) :
  length data = 81 →
  ∃ g, SudokuObject.new data = Ok g ∧ wf_grid g ∧ concat g = data.
Proof. apply new_row_major_aux. Qed.

Lemma new_row_major_witness :
  length testdoku = 81
  ∧ ∃ g, SudokuObject.new testdoku = Ok g ∧ wf_grid g
         ∧ concat g = testdoku.
Proof. split; [reflexivity|]. by apply (new_row_major testdoku). Defined.

Lemma init_loop_app (l1 l2 : list Z) (i : nat) (g : grid) :
  init_loop i (l1 ++ l2) g
  = init_loop i l1 g ≫= init_loop (i + length l1) l2.
Proof.
  revert i g. induction l1 as [|n l1 IH]; intros i g; cbn [app init_loop length].
  - by rewrite Nat.add_0_r.
  - destruct (g !! (i / 9)) as [row|]; [|done].
    rewrite IH. by rewrite Nat.add_succ_r.
Qed.

(** X2. [SudokuObject(sudoku_data)] on a list of more than 81 integers
    raises IndexError: the 82nd element has no row to go to. *)
Theorem new_too_long (data : list Z) :
  81 < length data → SudokuObject.new data = Raise IndexError.
Proof.
  intros Hlen. unfold SudokuObject.new.
  rewrite <- (take_drop 81 data), init_loop_app.
  destruct (new_row_major_aux (take 81 data)) as (g & Hg & [Hg9 _] & _).
  { rewrite length_take. lia. }
  unfold SudokuObject.new in Hg. rewrite Hg. cbn [mbind result_bind].
  rewrite length_take, Nat.min_l by lia.
  destruct (drop 81 data) as [|n rest] eqn:Hdrop.
  { apply (f_equal length) in Hdrop. rewrite length_drop in Hdrop.
    cbn [length] in Hdrop. lia. }
  cbn [init_loop Nat.add]. change (81 / 9) with 9.
  by rewrite lookup_ge_None_2 by lia.
Qed.

Lemma new_too_long_witness :
  81 < length (testdoku ++ [0%Z])
  ∧ SudokuObject.new (testdoku ++ [0%Z]) = Raise IndexError.
Proof.
  split; [cbn; lia|]. apply (new_too_long (testdoku ++ [0%Z])). cbn. lia.
Defined.

(** X3. [copy] of a 9x9 grid succeeds and gives a grid with the same
    cells. *)
Theorem copy_same (g : grid) : wf_grid g → copy g = Ok g.
Proof. apply copy_wf. Qed.

Lemma copy_same_witness : wf_grid testgrid ∧ copy testgrid = Ok testgrid.
Proof. split; [apply wf_testgrid|]. apply (copy_same testgrid), wf_testgrid. Defined.

(** X4. [update(i, j, n)] on a 9x9 grid: the cell (i,j) then holds [n],
    every other cell is unchanged, and the grid is still 9x9. *)
Theorem update_cell (g : grid) (i j i' j' : nat) (n : Z) :
  wf_grid g → i < 9 → j < 9 →
  wf_grid (update g i j n)
  ∧ cell (update g i j n) i j = n
  ∧ ((i', j') ≠ (i, j) → cell (update g i j n) i' j' = cell g i' j').
Proof.
  intros Hwf Hi Hj. split; [by apply wf_grid_update|].
  rewrite !cell_update by done. split.
  - by rewrite decide_True.
  - intros Hne. rewrite decide_False; [done|]. intros [-> ->]. done.
Qed.

Lemma update_cell_witness :
  wf_grid testgrid ∧ 0 < 9 ∧ 0 < 9
  ∧ wf_grid (update testgrid 0 0 5)
  ∧ cell (update testgrid 0 0 5) 0 0 = 5%Z
  ∧ ((3, 4) ≠ (0, 0) →
     cell (update testgrid 0 0 5) 3 4 = cell testgrid 3 4).
Proof.
  split; [apply wf_testgrid|]. split; [lia|]. split; [lia|].
  apply (update_cell testgrid 0 0 3 4 5); [apply wf_testgrid|lia..].
Defined.

Lemma collist_lookup (g : grid) (i j k : nat) :
  wf_grid g → i < 9 →
  whatis_collist g k j !! i = Some (cell g i j).
Proof.
  intros Hwf Hi. destruct (wf_grid_row g i Hwf Hi) as (row & Hrow & _).
  unfold whatis_collist, cell. rewrite list_lookup_fmap, Hrow. done.
Qed.

Lemma blklist_lookup (g : grid) (i j : nat) :
  i < 9 → j < 9 →
  whatis_blklist g i j !! (3 * (i mod 3) + j mod 3) = Some (cell g i j).
Proof.
  intros Hi Hj.
  assert (i = 0 ∨ i = 1 ∨ i = 2 ∨ i = 3 ∨ i = 4 ∨ i = 5 ∨ i = 6 ∨ i = 7
          ∨ i = 8) as Hi' by lia.
  assert (j = 0 ∨ j = 1 ∨ j = 2 ∨ j = 3 ∨ j = 4 ∨ j = 5 ∨ j = 6 ∨ j = 7
          ∨ j = 8) as Hj' by lia.
  clear Hi Hj.
  repeat (destruct Hi' as [->|Hi']); [..|subst i];
    repeat (destruct Hj' as [->|Hj']); try subst j; reflexivity.
Qed.

(** X5. On a 9x9 grid the three group accessors return the cells of the
    group: the cell (i,j) is the j-th of its row list, the i-th of its
    column list and number 3*(i mod 3) + (j mod 3) of its block list,
    whatever the unused argument of the row and column accessors. *)
Theorem groups_hold_cell (g : grid) (i j k : nat) :
  wf_grid g → i < 9 → j < 9 →
  whatis_rowlist g i k !! j = Some (cell g i j)
  ∧ whatis_collist g k j !! i = Some (cell g i j)
  ∧ whatis_blklist g i j !! (3 * (i mod 3) + j mod 3) = Some (cell g i j).
Proof.
  intros Hwf Hi Hj. split; [by apply (cell_lookup g i j)|].
  split; [by apply collist_lookup|by apply blklist_lookup].
Qed.

Lemma groups_hold_cell_witness :
  wf_grid testgrid ∧ 4 < 9 ∧ 7 < 9
  ∧ whatis_rowlist testgrid 4 2 !! 7 = Some (cell testgrid 4 7)
  ∧ whatis_collist testgrid 2 7 !! 4 = Some (cell testgrid 4 7)
  ∧ whatis_blklist testgrid 4 7 !! (3 * (4 mod 3) + 7 mod 3)
    = Some (cell testgrid 4 7).
Proof.
  split; [apply wf_testgrid|]. split; [lia|]. split; [lia|].
  apply (groups_hold_cell testgrid 4 7 2); [apply wf_testgrid|lia..].
Defined.

(** X6. Being related is symmetric and irreflexive on the board: (x,y) is
    in [related_coords(i,j)] exactly when (i,j) is in
    [related_coords(x,y)], and (i,j) is never in its own set. *)
Theorem related_coords_symmetric (i j x y : nat) :
  i < 9 → j < 9 → x < 9 → y < 9 →
  ((x, y) ∈ related_coords i j ↔ (i, j) ∈ related_coords x y)
  ∧ (i, j) ∉ related_coords i j.
Proof.
  intros Hi Hj Hx Hy. rewrite !elem_of_related_coords by done.
  cbn [fst snd]. split.
  - split; intros (_ & _ & Hne & Hg); (do 2 (split; [done|]));
      (split; [congruence|by apply shares_group_sym]).
  - intros (_ & _ & Hne & _). done.
Qed.

Lemma related_coords_symmetric_witness :
  0 < 9 ∧ 0 < 9 ∧ 1 < 9 ∧ 1 < 9
  ∧ ((1, 1) ∈ related_coords 0 0 ↔ (0, 0) ∈ related_coords 1 1)
  ∧ (0, 0) ∉ related_coords 0 0.
Proof.
  do 4 (split; [lia|]). apply (related_coords_symmetric 0 0 1 1); lia.
Defined.

(** X7. Every cell of the board has exactly 20 related cells: 8 in its
    row, 8 in its column and 4 more in its block. *)
Theorem related_coords_size (i j : nat) :
  i < 9 → j < 9 →
  size (related_coords i j) = 20
  ∧ length (rel_row i j) = 8 ∧ length (rel_col i j) = 8
  ∧ length (rel_blk i j) = 4.
Proof.
  intros Hi Hj.
  assert (i = 0 ∨ i = 1 ∨ i = 2 ∨ i = 3 ∨ i = 4 ∨ i = 5 ∨ i = 6 ∨ i = 7
          ∨ i = 8) as Hi' by lia.
  assert (j = 0 ∨ j = 1 ∨ j = 2 ∨ j = 3 ∨ j = 4 ∨ j = 5 ∨ j = 6 ∨ j = 7
          ∨ j = 8) as Hj' by lia.
  clear Hi Hj.
  repeat (destruct Hi' as [->|Hi']); [..|subst i];
    repeat (destruct Hj' as [->|Hj']); try subst j;
    vm_compute; done.
Qed.

Lemma related_coords_size_witness :
  4 < 9 ∧ 4 < 9
  ∧ size (related_coords 4 4) = 20
  ∧ length (rel_row 4 4) = 8 ∧ length (rel_col 4 4) = 8
  ∧ length (rel_blk 4 4) = 4.
Proof. do 2 (split; [lia|]). apply (related_coords_size 4 4); lia. Defined.

(** ** SudokuGA: filling, fitness, mutation, crossover *)

Lemma fill_row_full (g : grid) (i : nat) :
  wf_grid g → i < 9 →
  returns (fill_row g i)
    (λ g', wf_grid g'
           ∧ (∀ i', i' ≠ i → whatis_rowlist g' i' 0 = whatis_rowlist g i' 0)
           ∧ (∀ j', cell g i j' ≠ 0%Z → cell g' i j' = cell g i j')
           ∧ (∀ j', j' < 9 → cell g' i j' ≠ 0%Z)).
Proof.
  intros Hwf Hi. unfold fill_row, range9. eapply returns_bind.
  - apply (returns_for_seq (fill_cell i) (fill_inv g i) 9 0).
    + unfold fill_inv. cbn [fst snd]. do 3 (split; [done|]). split.
      { apply zeros_le_absent. by apply length_whatis_rowlist. }
      split.
      { apply Forall_forall. by intros n [_ Hn]%list_elem_of_filter. }
      split; [lia|]. intros [Hvals Hnd]. do 2 (split; [done|]). split.
      { apply NoDup_filter, NoDup_symbols. }
      intros n. rewrite list_elem_of_filter. tauto.
    + intros j st Hj Hinv. apply fill_cell_spec; [done|lia|done].
  - intros [g' pos] (Hwf' & Hrows & Hkeep & _ & _ & Hdone & _).
    cbn [fst snd] in *. apply returns_ret. done.
Qed.

Lemma rand_fill_full (g : grid) :
  wf_grid g →
  returns (_rand_fill_sudoku g)
    (λ g', wf_grid g' ∧ keeps_clues g g'
           ∧ ∀ i j, i < 9 → j < 9 → cell g' i j ≠ 0%Z).
Proof.
  intros Hwf. unfold _rand_fill_sudoku, range9.
  eapply returns_mono.
  - apply (returns_for_seq fill_row
             (λ i g', wf_grid g'
                ∧ (∀ i', i ≤ i' →
                     whatis_rowlist g' i' 0 = whatis_rowlist g i' 0)
                ∧ keeps_clues g g'
                ∧ (∀ i' j, i' < i → j < 9 → cell g' i' j ≠ 0%Z)) 9 0).
    + split; [done|]. split; [done|]. split; [by intros ??|lia].
    + intros i g' Hi (Hwf' & Hrest & Hkeep & Hdone).
      eapply returns_mono; [apply fill_row_full; [done|lia]|].
      intros g'' (Hwf'' & Hrows & Hkeep' & Hfull). split; [done|]. split.
      { intros i' Hi'. rewrite Hrows by lia. apply Hrest. lia. }
      split.
      { intros i' j' Hc. destruct (decide (i' = i)) as [->|Hne].
        - pose proof (Hkeep i j' Hc) as Heq. rewrite <- Heq in Hc.
          by rewrite (Hkeep' j' Hc).
        - rewrite <- (Hkeep i' j' Hc). by rewrite !cell_row, Hrows. }
      intros i' j Hi' Hj. destruct (decide (i' = i)) as [->|Hne].
      * by apply Hfull.
      * rewrite cell_row, Hrows, <- cell_row by done. apply Hdone; [lia|done].
  - intros g' (Hwf' & _ & Hkeep & Hdone). split; [done|]. split; [done|].
    intros i j Hi Hj. by apply Hdone.
Qed.

(** X8. On every 9x9 grid and whatever the draws, [_rand_fill_sudoku]
    does not raise ([pos_values] never runs out), keeps every non-zero
    cell, and leaves no cell at 0. *)
Theorem rand_fill_fills (g : grid) :
  wf_grid g →
  returns (_rand_fill_sudoku g)
    (λ g', wf_grid g' ∧ keeps_clues g g'
           ∧ ∀ i j, i < 9 → j < 9 → cell g' i j ≠ 0%Z).
Proof. apply rand_fill_full. Qed.

Lemma rand_fill_fills_witness :
  wf_grid dupgrid
  ∧ returns (_rand_fill_sudoku dupgrid)
      (λ g', wf_grid g' ∧ keeps_clues dupgrid g'
             ∧ ∀ i j, i < 9 → j < 9 → cell g' i j ≠ 0%Z).
Proof. split; [apply wf_dupgrid|]. apply (rand_fill_fills dupgrid), wf_dupgrid. Defined.

Lemma absent_le (group : list Z) : (absent group ≤ 9)%Z.
Proof.
  unfold absent.
  pose proof (length_filter (λ n : Z, n ∉ group) symbols) as Hle.
  change (length symbols) with 9 in Hle. lia.
Qed.

Lemma sumZ_le (b : Z) (l : list Z) :
  Forall (λ z, z ≤ b)%Z l → (sumZ l ≤ b * Z.of_nat (length l))%Z.
Proof. induction 1; cbn [sumZ foldr length]; [lia|]. fold (sumZ l). lia. Qed.

(** X9. The fitness of a grid of nine rows of nine cells is at most 243
    (27 groups of at most 9 absent symbols); the rows, the columns and the
    blocks each contribute between 0 and 81. On a grid of another shape
    the accessors of the source raise IndexError, so the statement is
    about 9x9 grids only. *)
Theorem fitness_bounds (g : grid) :
  wf_grid g →
  (0 ≤ rows_fitness g ≤ 81)%Z ∧ (0 ≤ cols_fitness g ≤ 81)%Z
  ∧ (0 ≤ blks_fitness g ≤ 81)%Z
  ∧ (0 ≤ _fitness_filled_sudoku g ≤ 243)%Z.
Proof.
  intros _.
  assert (rows_fitness g ≤ 81)%Z as Hr.
  { unfold rows_fitness.
    pose proof (sumZ_le 9 ((λ i, absent (whatis_rowlist g i 0)) <$> range9))
      as H. rewrite length_fmap in H. change (length range9) with 9 in H.
    apply H. apply Forall_fmap, Forall_forall. intros i _. apply absent_le. }
  assert (cols_fitness g ≤ 81)%Z as Hc.
  { unfold cols_fitness.
    pose proof (sumZ_le 9 ((λ j, absent (whatis_collist g 0 j)) <$> range9))
      as H. rewrite length_fmap in H. change (length range9) with 9 in H.
    apply H. apply Forall_fmap, Forall_forall. intros j _. apply absent_le. }
  assert (blks_fitness g ≤ 81)%Z as Hb.
  { unfold blks_fitness. cbn [mbind list_bind mapM app].
    eapply Z.le_trans; [apply (sumZ_le 9)|cbn [length]; lia].
    repeat (constructor; [apply absent_le|]). constructor. }
  pose proof (rows_fitness_nonneg g). pose proof (cols_fitness_nonneg g).
  pose proof (blks_fitness_nonneg g). unfold _fitness_filled_sudoku. lia.
Qed.

Lemma fitness_bounds_witness :
  wf_grid dupgrid
  ∧ (0 ≤ rows_fitness dupgrid ≤ 81)%Z ∧ (0 ≤ cols_fitness dupgrid ≤ 81)%Z
  ∧ (0 ≤ blks_fitness dupgrid ≤ 81)%Z
  ∧ (0 ≤ _fitness_filled_sudoku dupgrid ≤ 243)%Z.
Proof. split; [apply wf_dupgrid|]. apply (fitness_bounds dupgrid), wf_dupgrid. Defined.

Lemma swaps_all_fixed (fixed : list coord) (swaps : list (nat * nat * nat)) :
  (∀ c, c ∈ all_coords → c ∈ fixed) →
  Forall (free_swap fixed) swaps → swaps = [].
Proof.
  intros Hall Hswaps. destruct Hswaps as [|[[i j1] j2] swaps Hs _]; [done|].
  destruct Hs as (Hi & Hj1 & _ & Hfree & _). exfalso. apply Hfree, Hall.
  by apply elem_of_all_coords.
Qed.

(** X10. On every 9x9 grid and whatever the draws, [_mutate] does not
    raise, gives a 9x9 grid and leaves every cell whose coordinate is in
    the list of fixed coordinates unchanged; when all 81 coordinates are
    fixed it changes nothing. *)
Theorem mutate_keeps_fixed (fixed : list coord) (g : grid) :
  wf_grid g →
  returns (_mutate fixed g)
    (λ g', wf_grid g'
           ∧ (∀ i j, (i, j) ∈ fixed → cell g' i j = cell g i j)
           ∧ ((∀ c, c ∈ all_coords → c ∈ fixed) → g' = g)).
Proof.
  intros Hwf. eapply returns_mono; [apply mutate_spec|].
  intros g' (swaps & _ & Hfree & ->).
  destruct (foldl_swaps fixed swaps g Hwf Hfree) as (Hwf' & _ & Hfix).
  split; [done|]. split; [done|]. intros Hall.
  by rewrite (swaps_all_fixed fixed swaps Hall Hfree).
Qed.

Lemma mutate_keeps_fixed_witness :
  wf_grid testgrid
  ∧ returns (_mutate [(0, 1)] testgrid)
      (λ g', wf_grid g'
             ∧ (∀ i j, (i, j) ∈ [(0, 1)] → cell g' i j = cell testgrid i j)
             ∧ ((∀ c, c ∈ all_coords → c ∈ [(0, 1)]) → g' = testgrid)).
Proof.
  split; [apply wf_testgrid|].
  apply (mutate_keeps_fixed [(0, 1)] testgrid), wf_testgrid.
Defined.

Lemma grid_rows_ext (g g' : grid) :
  wf_grid g → wf_grid g' →
  (∀ i, i < 9 → whatis_rowlist g i 0 = whatis_rowlist g' i 0) → g = g'.
Proof.
  intros Hwf Hwf' Hrows. apply list_eq. intros i.
  destruct (decide (i < 9)) as [Hi|Hi].
  - destruct (wf_grid_row g i Hwf Hi) as (row & Hrow & _).
    destruct (wf_grid_row g' i Hwf' Hi) as (row' & Hrow' & _).
    specialize (Hrows i Hi). unfold whatis_rowlist in Hrows.
    rewrite Hrow, Hrow' in *. cbn in Hrows. by subst.
  - destruct Hwf as [Hl _], Hwf' as [Hl' _].
    rewrite !lookup_ge_None_2 by lia. done.
Qed.

(** X11. For two 9x9 parents and whatever the draws, [_generate_children]
    does not raise and returns exactly 10 children; each child is a 9x9
    grid whose every row is the same row of one of the two parents; when
    both parents are the same board, every child is that board. *)
Theorem generate_children_rows (sudoku1 sudoku2 : grid) :
  wf_grid sudoku1 → wf_grid sudoku2 →
  returns (_generate_children sudoku1 sudoku2)
    (λ children,
       length children = 10
       ∧ Forall (crossed sudoku1 sudoku2) children
       ∧ (sudoku1 = sudoku2 → Forall (λ child, child = sudoku1) children)).
Proof.
  intros Hwf1 Hwf2. eapply returns_mono; [by apply generate_children_spec|].
  intros cs [Hlen Hcs]. split; [done|]. split; [done|]. intros <-.
  eapply Forall_impl; [done|]. intros c [Hwfc Hrows].
  apply grid_rows_ext; [done..|]. intros i Hi.
  by destruct (Hrows i Hi).
Qed.

Lemma generate_children_rows_witness :
  wf_grid testgrid ∧ wf_grid solvedgrid
  ∧ returns (_generate_children testgrid solvedgrid)
      (λ children,
         length children = 10
         ∧ Forall (crossed testgrid solvedgrid) children
         ∧ (testgrid = solvedgrid →
            Forall (λ child, child = testgrid) children)).
Proof.
  split; [apply wf_testgrid|]. split; [apply wf_solvedgrid|].
  apply (generate_children_rows testgrid solvedgrid);
    [apply wf_testgrid|apply wf_solvedgrid].
Defined.

(** ** SudokuGA: selection and the run *)

Lemma sample_submseteq {A : Type} (k : nat) (l : list A) :
  k ≤ length l →
  returns (sample l k) (λ s, length s = k ∧ s ⊆+ l).
Proof.
  revert l. induction k as [|k IH]; intros l Hk; cbn [sample].
  - apply returns_ret. split; [done|]. apply submseteq_nil_l.
  - eapply returns_bind; [apply (returns_draw (λ _, True)); done|].
    intros d _.
    destruct (lookup_lt_is_Some_2 l (d mod length l)) as [x Hx].
    { apply Nat.mod_upper_bound. lia. }
    rewrite Hx. eapply returns_bind.
    + apply IH. pose proof (lookup_lt_Some _ _ _ Hx).
      rewrite length_delete by done. lia.
    + intros rest [Hlen Hrest]. apply returns_ret. cbn [length].
      split; [lia|]. rewrite (delete_Permutation l _ x Hx).
      by apply submseteq_skip.
Qed.

(** X12. Selection of the parents of a population of 1000, whatever the
    draws: it does not raise and gives 200 parents; the parents are
    individuals of the population, none taken more often than it occurs
    there, and all of the first 100 (the best after the sort) are among
    them. *)
Theorem select_parents_elite (population : list grid) :
  length population = 1000 →
  returns (select_parents population)
    (λ parents_list,
       length parents_list = 200
       ∧ parents_list ⊆+ population
       ∧ take 100 population ⊆+ parents_list).
Proof.
  intros Hlen. unfold select_parents.
  rewrite num_of_best_eq, num_of_rand_eq.
  eapply returns_bind.
  { apply sample_submseteq. rewrite length_drop. lia. }
  intros sampled [Hs Hsub]. eapply returns_mono.
  { apply (sample_submseteq (length (take 100 population ++ sampled))).
    done. }
  intros ps [Hps Hpssub].
  assert (ps ≡ₚ take 100 population ++ sampled) as Hperm.
  { apply submseteq_length_Permutation; [done|]. by rewrite Hps. }
  split; [|split].
  - rewrite Hps, length_app, length_take, Hs. lia.
  - rewrite Hperm.
    pose proof (submseteq_app (take 100 population) (take 100 population)
                  sampled (drop 100 population)) as Happ.
    rewrite take_drop in Happ. by apply Happ.
  - rewrite Hperm. by apply submseteq_inserts_r.
Qed.

Lemma select_parents_elite_witness :
  length (replicate 1000 testgrid) = 1000
  ∧ returns (select_parents (replicate 1000 testgrid))
      (λ parents_list,
         length parents_list = 200
         ∧ parents_list ⊆+ replicate 1000 testgrid
         ∧ take 100 (replicate 1000 testgrid) ⊆+ parents_list).
Proof.
  split; [apply length_replicate|].
  apply (select_parents_elite (replicate 1000 testgrid)), length_replicate.
Defined.



Lemma grid_cells_ext (g g' : grid) :
  wf_grid g → wf_grid g' →
  (∀ i j, i < 9 → j < 9 → cell g i j = cell g' i j) → g = g'.
Proof.
  intros Hwf Hwf' Hcells. apply grid_rows_ext; [done..|]. intros i Hi.
  apply list_eq. intros j. destruct (decide (j < 9)) as [Hj|Hj].
  - rewrite !cell_lookup by done. by rewrite Hcells.
  - rewrite !lookup_ge_None_2; [done|..];
      rewrite length_whatis_rowlist by done; lia.
Qed.

Lemma solved_nonzero (b : grid) (i j : nat) :
  wf_grid b → solved b → i < 9 → j < 9 → cell b i j ≠ 0%Z.
Proof.
  intros Hwf (Hrows & _) Hi Hj Hz.
  pose proof (length_whatis_rowlist b i 0 Hwf Hi) as Hlen.
  pose proof (proj2 (all_symbols_complete _ Hlen) (Hrows i Hi)) as Hall.
  pose proof (all_symbols_Permutation _ Hlen Hall) as Hperm.
  assert (0%Z ∈ symbols) as Hin.
  { rewrite Hperm. eapply list_elem_of_lookup_2.
    rewrite <- Hz. by apply cell_lookup. }
  apply elem_of_symbols in Hin. lia.
Qed.

Lemma individual_of_full (b g : grid) :
  wf_grid b → (∀ i j, i < 9 → j < 9 → cell b i j ≠ 0%Z) →
  individual_of b g → g = b.
Proof.
  intros Hwf Hfull [Hwfg Hkeep]. apply grid_cells_ext; [done..|].
  intros i j Hi Hj. apply Hkeep. by apply Hfull.
Qed.

Lemma cycles_first_solved (self : t) (n : nat) (population : list grid)
    (r : rng) (b : grid) :
  population ≠ [] → Forall (λ g, g = b) population →
  _fitness_filled_sudoku b = 0%Z →
  cycles self (S n) population r
  = ([sort_by _fitness_filled_sudoku population], Return b).
Proof.
  intros Hne Hall Hfit. cbn [cycles].
  pose proof (sort_by_Permutation _fitness_filled_sudoku population) as Hp.
  destruct (sort_by _fitness_filled_sudoku population) as [|best sorted]
    eqn:Hs.
  { apply Permutation_nil_l in Hp. done. }
  cbn [lookup list_lookup].
  assert (best = b) as ->.
  { rewrite <- Hp in Hall. by apply Forall_cons in Hall as [-> _]. }
  by rewrite decide_True.
Qed.

(** X14. On an input board that is already solved, [run] returns that
    board at the first test, whatever the draws: it goes through the first
    population and its sorted version only, and breeds nothing. *)
Theorem run_solved_input (b : grid) :
  wf_grid b → solved b →
  ∃ self, SudokuGA.new b = Ok self
    ∧ ∀ r : rng,
        (run self r).2 = Ok b
        ∧ length (run self r).1 = 2
        ∧ Forall (Forall (λ g, g = b)) (run self r).1.
Proof.
  intros Hwf Hsolved. destruct (new_Ok b) as (self & Hnew & Hinit & Hfixed).
  exists self. split; [done|]. intros r.
  unfold run, _max_restart. generalize 4. intros n. cbn [restarts].
  destruct (init_population_of b self Hwf Hinit r)
    as (population & r1 & -> & Hlen & Hpop).
  assert (Forall (λ g, g = b) population) as Hall.
  { eapply Forall_impl; [done|]. intros g Hg.
    apply individual_of_full; [done| |done].
    intros i j Hi Hj. by apply solved_nonzero. }
  unfold _max_cycles. generalize 99. intros m.
  rewrite (cycles_first_solved self m population r1 b); [|..|done|].
  - cbn [fst snd length]. split; [done|]. split; [done|].
    constructor; [done|]. constructor; [|done].
    by rewrite sort_by_Permutation.
  - intros ->. cbn [length] in Hlen. unfold _population_size in Hlen. lia.
  - by apply fitness_zero.
Qed.

Lemma solved_solvedgrid : solved solvedgrid.
Proof.
  apply fitness_zero; [apply wf_solvedgrid|]. by vm_compute.
Qed.

Lemma run_solved_input_witness :
  wf_grid solvedgrid ∧ solved solvedgrid
  ∧ ∃ self, SudokuGA.new solvedgrid = Ok self
      ∧ ∀ r : rng,
          (run self r).2 = Ok solvedgrid
          ∧ length (run self r).1 = 2
          ∧ Forall (Forall (λ g, g = solvedgrid)) (run self r).1.
Proof.
  split; [apply wf_solvedgrid|]. split; [apply solved_solvedgrid|].
  apply (run_solved_input solvedgrid);
    [apply wf_solvedgrid|apply solved_solvedgrid].
Defined.

(** Invariants of the individuals along the run. *)
Section Trace.

Variable self : t.
Variable P : grid → Prop.
Hypothesis HPwf : ∀ g, P g → wf_grid g.
Hypothesis HPinit :
  returns (init_population self)
    (λ population, length population = _population_size
                   ∧ Forall P population).
Hypothesis HPcross : ∀ p1 p2 c, P p1 → P p2 → crossed p1 p2 c → P c.
Hypothesis HPswap :
  ∀ c swaps, P c → Forall (free_swap (_fixed self)) swaps →
             P (foldl swap_cells c swaps).

Lemma next_generation_keeps (population : list grid) :
  length population = _population_size → Forall P population →
  returns (next_generation self population)
    (λ cs, length cs = _population_size ∧ Forall P cs).
Proof using HPwf HPcross HPswap.
  intros Hlen Hall. unfold next_generation.
  eapply returns_bind; [by apply select_parents_spec|].
  intros parents_list [Hplen Hsub].
  assert (Forall P parents_list) as Hparents.
  { apply Forall_forall. intros p Hp.
    eapply Forall_forall in Hall; [done|]. by apply Hsub. }
  eapply returns_bind.
  { apply (breed_spec P 100); [done| |].
    - eapply Forall_impl; [done|]. apply HPwf.
    - intros p1 p2 c Hp1 Hp2. eapply Forall_forall in Hp1, Hp2; [|done..].
      by apply HPcross. }
  intros children_list [Hclen Hchildren].
  rewrite <- population_size_eq in Hclen.
  eapply returns_mono.
  - apply (mutate_some_spec P); [|done|done].
    rewrite num_mutation_eq, Hclen, population_size_eq.
    unfold _num_of_children. lia.
  - intros cs [Hcs Hall']. split; [by rewrite Hcs|done].
Qed.

Lemma cycles_keep (n : nat) (population : list grid) (r : rng) :
  length population = _population_size → Forall P population →
  Forall (Forall P) (cycles self n population r).1.
Proof using HPwf HPcross HPswap.
  revert population r. induction n as [|n IH]; intros population r Hlen Hall.
  { cbn [cycles fst]. constructor. }
  cbn [cycles].
  pose proof (sort_by_Permutation _fitness_filled_sudoku population) as Hp.
  assert (Forall P (sort_by _fitness_filled_sudoku population)) as Hsorted
    by by rewrite Hp.
  destruct (sort_by _fitness_filled_sudoku population !! 0) as [best|];
    [|by constructor].
  case_decide; [by constructor|].
  destruct (next_generation_keeps
              (sort_by _fitness_filled_sudoku population)) with (r := r)
    as (cs & r' & -> & Hcs & Hall'); [by rewrite Hp|done|].
  specialize (IH cs r' Hcs Hall').
  destruct (cycles self n cs r') as [pops ex]. cbn [fst] in *.
  by do 2 (constructor; [done|]).
Qed.

Lemma restarts_keep (n : nat) (r : rng) :
  Forall (Forall P) (restarts self n r).1.
Proof using HPwf HPinit HPcross HPswap.
  revert r. induction n as [|n IH]; intros r.
  { cbn [restarts fst]. constructor. }
  cbn [restarts].
  destruct (HPinit r) as (population & r1 & -> & Hlen & Hall).
  pose proof (cycles_keep _max_cycles population r1 Hlen Hall) as Hcyc.
  destruct (cycles self _max_cycles population r1) as [pops ex].
  cbn [fst] in Hcyc. destruct ex as [solution|r2|e].
  - cbn [fst]. by constructor.
  - specialize (IH r2). destruct (restarts self n r2) as [pops' res].
    cbn [fst] in *. constructor; [done|]. by apply Forall_app.
  - cbn [fst]. by constructor.
Qed.

End Trace.

Lemma no_zero_rows (g : grid) :
  wf_grid g →
  (∀ i j, i < 9 → j < 9 → cell g i j ≠ 0%Z)
  ↔ (∀ i, i < 9 → 0%Z ∉ whatis_rowlist g i 0).
Proof.
  intros Hwf. split.
  - intros Hcells i Hi [j Hj]%list_elem_of_lookup_1.
    pose proof (lookup_lt_Some _ _ _ Hj) as Hlt.
    rewrite length_whatis_rowlist in Hlt by done.
    rewrite cell_lookup in Hj by done. injection Hj as Hj.
    by apply (Hcells i j).
  - intros Hrows i j Hi Hj Hz. apply (Hrows i Hi).
    eapply list_elem_of_lookup_2. rewrite <- Hz. by apply cell_lookup.
Qed.

(** X15. For every 9x9 input board and whatever the draws, every
    individual of every population of the run (first populations, sorted
    populations, child lists after mutation) is a 9x9 board without any
    cell at 0: the fitness is only ever taken of filled boards. *)
Theorem run_individuals_filled (b : grid) :
  wf_grid b →
  ∃ self, SudokuGA.new b = Ok self
    ∧ ∀ (r : rng) population g,
        population ∈ (run self r).1 → g ∈ population →
        wf_grid g ∧ ∀ i j, i < 9 → j < 9 → cell g i j ≠ 0%Z.
Proof.
  intros Hwf. destruct (new_Ok b) as (self & Hnew & Hinit & Hfixed).
  exists self. split; [done|]. intros r population g Hpop Hg.
  pose (P := λ g : grid,
          wf_grid g ∧ ∀ i, i < 9 → 0%Z ∉ whatis_rowlist g i 0).
  assert (Forall (Forall P) (run self r).1) as Hall.
  { apply restarts_keep.
    - by intros g' [? _].
    - apply init_population_spec; rewrite Hinit; [done|].
      eapply returns_mono; [by apply rand_fill_full|].
      intros g' (Hwf' & _ & Hfull). split; [done|]. by apply no_zero_rows.
    - intros p1 p2 c [_ H1] [_ H2] [Hwfc Hrows]. split; [done|].
      intros i Hi. destruct (Hrows i Hi) as [-> | ->]; auto.
    - intros c swaps [Hwfc Hc] Hfree.
      destruct (foldl_swaps _ swaps c Hwfc Hfree) as (Hwf' & Hrows & _).
      split; [done|]. intros i Hi. rewrite (Hrows i Hi). by apply Hc. }
  eapply Forall_forall in Hall; [|exact Hpop].
  eapply Forall_forall in Hall; [|exact Hg].
  destruct Hall as [Hwfg Hrows]. split; [done|]. by apply no_zero_rows.
Qed.

Lemma run_individuals_filled_witness :
  wf_grid dupgrid
  ∧ ∃ self, SudokuGA.new dupgrid = Ok self
      ∧ ∀ (r : rng) population g,
          population ∈ (run self r).1 → g ∈ population →
          wf_grid g ∧ ∀ i j, i < 9 → j < 9 → cell g i j ≠ 0%Z.
Proof.
  split; [apply wf_dupgrid|].
  apply (run_individuals_filled dupgrid), wf_dupgrid.
Defined.

(** X16. For every input Board (cells in [0,9]) whose rows repeat no
    non-zero value, and whatever the draws, every individual of every
    population of the run, also after mutation, has each symbol 1-9
    exactly once in each of its rows. *)
Theorem run_rows_complete (b : grid) :
  wf_grid b → Forall row_ok b →
  ∃ self, SudokuGA.new b = Ok self
    ∧ ∀ (r : rng) population g,
        population ∈ (run self r).1 → g ∈ population → rows_complete g.
Proof.
  intros Hwf Hok. destruct (new_Ok b) as (self & Hnew & Hinit & Hfixed).
  exists self. split; [done|]. intros r population g Hpop Hg.
  pose (P := λ g : grid, wf_grid g ∧ rows_complete g).
  assert (Forall (Forall P) (run self r).1) as Hall.
  { apply restarts_keep.
    - by intros g' [? _].
    - apply init_population_spec; rewrite Hinit; [done|].
      eapply returns_mono; [by apply rand_fill_spec|].
      intros g' (Hwf' & _ & Hrows). split; [done|]. intros i Hi.
      apply Hrows; [done|]. by apply row_ok_lookup.
    - intros p1 p2 c [_ H1] [_ H2] Hc. split; [by destruct Hc|].
      exact (crossed_rows_complete p1 p2 c H1 H2 Hc).
    - intros c swaps [Hwfc Hc] Hfree.
      destruct (foldl_swaps _ swaps c Hwfc Hfree) as (Hwf' & Hrows & _).
      split; [done|]. intros i Hi.
      eapply complete_Permutation; [|by apply Hc]. symmetry. by apply Hrows. }
  eapply Forall_forall in Hall; [|exact Hpop].
  eapply Forall_forall in Hall; [|exact Hg]. by destruct Hall.
Qed.

Lemma run_rows_complete_witness :
  wf_grid testgrid ∧ Forall row_ok testgrid
  ∧ ∃ self, SudokuGA.new testgrid = Ok self
      ∧ ∀ (r : rng) population g,
          population ∈ (run self r).1 → g ∈ population → rows_complete g.
Proof.
  split; [apply wf_testgrid|]. split; [apply row_ok_testgrid|].
  apply (run_rows_complete testgrid);
    [apply wf_testgrid|apply row_ok_testgrid].
Defined.

(** ** SudokuPencilMark: further properties of [run] *)

(** X17. For every Board, [run] finishes, leaves a Board (9x9, cells in
    [0,9]) and never changes a cell that was not 0. *)
Theorem pencil_mark_keeps_clues (fuel : nat) (g : grid) :
  valid_board g → 82 ≤ fuel →
  ∃ g' log,
    PM.run fuel g = PM.Finished g' log
    ∧ valid_board g' ∧ keeps_clues g g'.
Proof.
  intros Hvalid Hfuel.
  destruct (run_spec fuel g Hvalid Hfuel)
    as (g' & log & Hrun & Hvalid' & Hkeep & _).
  by exists g', log.
Qed.

Lemma pencil_mark_keeps_clues_witness :
  valid_board testgrid ∧ 82 ≤ 82
  ∧ ∃ g' log,
      PM.run 82 testgrid = PM.Finished g' log
      ∧ valid_board g' ∧ keeps_clues testgrid g'.
Proof.
  split; [apply valid_testgrid|]. split; [lia|].
  apply (pencil_mark_keeps_clues 82 testgrid); [apply valid_testgrid|lia].
Defined.

(** X18. On a Board without any cell at 0, [run] finishes in its first
    round, writes nothing and leaves the board as it is. *)
Theorem pencil_mark_full_board (fuel : nat) (g : grid) :
  valid_board g → (∀ i j, i < 9 → j < 9 → cell g i j ≠ 0%Z) → 0 < fuel →
  PM.run fuel g = PM.Finished g [].
Proof.
  intros Hvalid Hfull Hfuel. destruct fuel as [|fuel]; [lia|].
  unfold PM.run. cbn [PM.run_loop].
  destruct (constrain_pass_spec all_coords g PM.fresh Hvalid
              wf_cands_fresh all_coords_bound) as (p' & -> & _ & _).
  rewrite quiet_reveal; [by rewrite decide_True|].
  intros c [Hc1 Hc2]%elem_of_all_coords [_ Hz]. by apply (Hfull c.1 c.2).
Qed.

Lemma valid_solvedgrid : valid_board solvedgrid.
Proof.
  split; [apply wf_solvedgrid|]. unfold values_ok, solvedgrid.
  repeat (constructor; [repeat (constructor; [lia|]); constructor|]).
  constructor.
Qed.

Lemma pencil_mark_full_board_witness :
  valid_board solvedgrid
  ∧ (∀ i j, i < 9 → j < 9 → cell solvedgrid i j ≠ 0%Z) ∧ 0 < 1
  ∧ PM.run 1 solvedgrid = PM.Finished solvedgrid [].
Proof.
  assert (∀ i j, i < 9 → j < 9 → cell solvedgrid i j ≠ 0%Z) as Hfull.
  { intros i j Hi Hj.
    by apply solved_nonzero; [apply wf_solvedgrid|apply solved_solvedgrid|..]. }
  split; [apply valid_solvedgrid|]. split; [exact Hfull|]. split; [lia|].
  apply (pencil_mark_full_board 1 solvedgrid);
    [apply valid_solvedgrid|exact Hfull|lia].
Defined.

(** *** Boards that have a solution *)

Lemma complete_NoDup (l : list Z) : length l = 9 → complete l → NoDup l.
Proof.
  intros Hlen Hl.
  pose proof (proj2 (all_symbols_complete _ Hlen) Hl) as Hall.
  rewrite <- (all_symbols_Permutation _ Hlen Hall). apply NoDup_symbols.
Qed.

Lemma solved_value (s : grid) (i j : nat) :
  wf_grid s → solved s → i < 9 → j < 9 → (1 ≤ cell s i j ≤ 9)%Z.
Proof.
  intros Hwf (Hrows & _) Hi Hj.
  pose proof (length_whatis_rowlist s i 0 Hwf Hi) as Hlen.
  pose proof (proj2 (all_symbols_complete _ Hlen) (Hrows i Hi)) as Hall.
  pose proof (all_symbols_Permutation _ Hlen Hall) as Hperm.
  apply elem_of_symbols. rewrite Hperm.
  eapply list_elem_of_lookup_2. by apply cell_lookup.
Qed.

(** Two different cells of one row, column or block of a solved board
    hold different values. *)
Lemma solved_distinct (s : grid) (c d : coord) :
  wf_grid s → solved s →
  c.1 < 9 → c.2 < 9 → d.1 < 9 → d.2 < 9 → c ≠ d → shares_group c d →
  cell s c.1 c.2 ≠ cell s d.1 d.2.
Proof.
  destruct c as [c1 c2], d as [d1 d2]. cbn [fst snd].
  intros Hwf (Hrows & Hcols & Hblks) Hc1 Hc2 Hd1 Hd2 Hne Hshare Heq.
  apply Hne. destruct Hshare as [Hr|[Hc|[Hb1 Hb2]]]; cbn [fst snd] in *.
  - subst d1. f_equal.
    eapply (NoDup_lookup (whatis_rowlist s c1 0)).
    + apply complete_NoDup; [by apply length_whatis_rowlist|by apply Hrows].
    + by apply cell_lookup.
    + rewrite Heq. by apply cell_lookup.
  - subst d2. f_equal.
    eapply (NoDup_lookup (whatis_collist s 0 c2)).
    + apply complete_NoDup; [by apply length_whatis_collist|by apply Hcols].
    + by apply collist_lookup.
    + rewrite Heq. by apply collist_lookup.
  - assert (3 * (c1 mod 3) + c2 mod 3 = 3 * (d1 mod 3) + d2 mod 3) as Hidx.
    { eapply (NoDup_lookup (whatis_blklist s c1 c2)).
      + apply complete_NoDup; [apply length_whatis_blklist|by apply Hblks].
      + by apply blklist_lookup.
      + rewrite Heq, (whatis_blklist_anchor s c1 c2), Hb1, Hb2,
          <- whatis_blklist_anchor. by apply blklist_lookup. }
    pose proof (Nat.div_mod_eq c1 3). pose proof (Nat.mod_upper_bound c1 3).
    pose proof (Nat.div_mod_eq c2 3). pose proof (Nat.mod_upper_bound c2 3).
    pose proof (Nat.div_mod_eq d1 3). pose proof (Nat.mod_upper_bound d1 3).
    pose proof (Nat.div_mod_eq d2 3). pose proof (Nat.mod_upper_bound d2 3).
    f_equal; lia.
Qed.

Lemma count_true_cons (b : bool) (f : list bool) :
  PM.count_true (b :: f) = (if b then 1 else 0) + PM.count_true f.
Proof.
  unfold PM.count_true. rewrite filter_cons. by destruct b.
Qed.

Lemma count_true_pos (f : list bool) (k : nat) :
  f !! k = Some true → 1 ≤ PM.count_true f.
Proof.
  revert k. induction f as [|b f IH]; intros k Hk; [done|].
  rewrite count_true_cons. destruct k as [|k].
  - injection Hk as ->. lia.
  - cbn in Hk. specialize (IH k Hk). lia.
Qed.

Lemma count_true_unique (f : list bool) (k k' : nat) :
  PM.count_true f = 1 → f !! k = Some true → f !! k' = Some true → k = k'.
Proof.
  revert k k'. induction f as [|b f IH]; intros k k' Hcount Hk Hk'; [done|].
  rewrite count_true_cons in Hcount.
  destruct k as [|k], k' as [|k']; [done|..]; cbn in Hk, Hk'.
  - injection Hk as ->. pose proof (count_true_pos f k' Hk'). lia.
  - injection Hk' as ->. pose proof (count_true_pos f k Hk). lia.
  - destruct b.
    + pose proof (count_true_pos f k Hk). lia.
    + f_equal. by apply IH.
Qed.

Section Solution.

Variable s : grid.
Hypothesis Hwfs : wf_grid s.
Hypothesis Hsolved : solved s.

(** The first double loop never lowers the flag of the solution. *)
Lemma solution_up_constrain (g : grid) (p p' : list (list (list bool))) :
  valid_board g → keeps_clues g s → wf_cands p → solution_up s g p →
  for_res all_coords (PM.constrain_cell g) p = Ok p' →
  solution_up s g p'.
Proof using Hwfs Hsolved.
  intros Hvalid Hkeep Hwf Hup Hpass x y Hx Hy Hz.
  destruct (constrain_pass_spec all_coords g p Hvalid Hwf all_coords_bound)
    as (p'' & Hp'' & _ & Hflags).
  rewrite Hpass in Hp''. injection Hp'' as <-.
  apply Hflags; [done|]. split; [by apply Hup|].
  intros ([c1 c2] & Hc & Hnz & Hrel & Hidx)%Exists_exists.
  cbn [fst snd] in *. apply elem_of_all_coords in Hc as [Hc1 Hc2].
  cbn [fst snd] in *.
  apply elem_of_related_coords in Hrel as (_ & _ & Hne & Hshare); [|done..].
  rewrite <- (Hkeep _ _ Hnz) in Hidx.
  pose proof (solved_value s c1 c2 Hwfs Hsolved Hc1 Hc2).
  pose proof (solved_value s x y Hwfs Hsolved Hx Hy).
  apply (solved_distinct s (x, y) (c1, c2)); try done. cbn [fst snd]. lia.
Qed.

(** What the second double loop writes is the solution. *)
Lemma reveal_pass_follow (cs : list coord) (p : list (list (list bool)))
    (round : grid) :
  wf_cands p → Forall (λ c : coord, c.1 < 9 ∧ c.2 < 9) cs →
  solution_up s round p →
  ∀ (g : grid) (n : nat) (log : list PM.write) g' n' log',
    valid_board g → keeps_clues round g → keeps_clues g s →
    for_res cs (PM.reveal_cell p round) (g, n, log) = Ok (g', n', log') →
    keeps_clues g' s ∧ ∃ new, log' = log ++ new ∧ Forall (follows s) new.
Proof using Hwfs Hsolved.
  intros Hwfp Hcs Hup.
  induction Hcs as [|c cs [Hc1 Hc2] _ IH];
    intros g n log g' n' log' Hvalid Hround Hkeep Hres.
  { cbn [for_res] in Hres. injection Hres as <- <- <-. split; [done|].
    exists []. by rewrite app_nil_r. }
  cbn [for_res] in Hres.
  destruct (reveal_cell_spec p round g n log c)
    as [[_ Hstep]|(Hcount & Hz & k & Hk & Hstep)];
    rewrite Hstep in Hres; cbn [mbind result_bind] in Hres.
  { by eapply IH. }
  assert (cell round c.1 c.2 = 0%Z) as Hzr.
  { destruct (decide (cell round c.1 c.2 = 0%Z)) as [|Hnz]; [done|].
    rewrite <- (Hround _ _ Hnz) in Hnz. done. }
  pose proof (Hup c.1 c.2 Hc1 Hc2 Hzr) as Hks.
  pose proof (count_true_unique _ _ _ Hcount Hk Hks) as ->.
  pose proof (solved_value s c.1 c.2 Hwfs Hsolved Hc1 Hc2) as Hv.
  replace (Z.of_nat (Z.to_nat (cell s c.1 c.2 - 1)) + 1)%Z
    with (cell s c.1 c.2) in Hres by lia.
  destruct Hvalid as [Hwf Hvals].
  assert (keeps_clues (update g c.1 c.2 (cell s c.1 c.2)) s) as Hkeep1.
  { intros i j Hnz. rewrite cell_update in Hnz |- * by done.
    case_decide as Heq; [by destruct Heq as [<- <-]|by apply Hkeep]. }
  assert (valid_board (update g c.1 c.2 (cell s c.1 c.2))) as Hvalid1.
  { apply valid_board_update; [done|lia]. }
  assert (keeps_clues round (update g c.1 c.2 (cell s c.1 c.2))) as Hround1.
  { eapply keeps_clues_trans; [done|]. by apply keeps_clues_update. }
  destruct (IH _ _ _ _ _ _ Hvalid1 Hround1 Hkeep1 Hres)
    as (Hkeep' & new & -> & Hnew).
  split; [done|]. eexists (_ :: new). rewrite <- app_assoc.
  split; [done|]. constructor; [|done].
  unfold follows. cbn [PM.w_coord PM.w_board PM.w_value]. done.
Qed.

Lemma solution_up_keeps (g g1 : grid) (p : list (list (list bool))) :
  keeps_clues g g1 → solution_up s g p → solution_up s g1 p.
Proof using Type.
  intros Hkeep Hup x y Hx Hy Hz. apply Hup; [done..|].
  destruct (decide (cell g x y = 0%Z)) as [|Hnz]; [done|].
  rewrite <- (Hkeep _ _ Hnz) in Hnz. done.
Qed.

Lemma run_loop_follow (fuel : nat) :
  ∀ (g : grid) (p : list (list (list bool))) (log : list PM.write) g' log',
    valid_board g → wf_cands p → solution_up s g p → keeps_clues g s →
    PM.run_loop fuel g p log = PM.Finished g' log' →
    keeps_clues g' s ∧ ∃ new, log' = log ++ new ∧ Forall (follows s) new.
Proof using Hwfs Hsolved.
  induction fuel as [|fuel IH];
    intros g p log g' log' Hvalid Hwf Hup Hkeep Hrun; [done|].
  cbn [PM.run_loop] in Hrun.
  destruct (constrain_pass_spec all_coords g p Hvalid Hwf all_coords_bound)
    as (p' & Hp' & Hwf' & _).
  rewrite Hp' in Hrun.
  pose proof (solution_up_constrain g p p' Hvalid Hkeep Hwf Hup Hp') as Hup'.
  destruct (reveal_pass_spec all_coords p' g Hwf' all_coords_bound g 0 log
              Hvalid (keeps_clues_refl g))
    as (g1 & new1 & Hrev & Hvalid1 & Hkeep1 & _).
  rewrite Hrev in Hrun.
  destruct (reveal_pass_follow all_coords p' g Hwf' all_coords_bound Hup'
              g 0 log _ _ _ Hvalid (keeps_clues_refl g) Hkeep Hrev)
    as (Hkeep1s & new & Heq & Hnew).
  apply app_inv_head in Heq. subst new.
  case_decide.
  - injection Hrun as <- <-. split; [done|]. by exists new1.
  - destruct (IH g1 p' (log ++ new1) g' log' Hvalid1 Hwf'
                (solution_up_keeps g g1 p' Hkeep1 Hup') Hkeep1s Hrun)
      as (Hkeep' & new2 & -> & Hnew2).
    split; [done|]. exists (new1 ++ new2). rewrite app_assoc.
    split; [done|]. by apply Forall_app.
Qed.

Lemma follows_sound_at_call (w : PM.write) : follows s w → sound_at_call w.
Proof using Hwfs Hsolved.
  intros (Hc1 & Hc2 & Hwf & Hkeep & Hz & Hv). split; [done|].
  intros c Hx Hy Hne Hshare Hnz. rewrite Hv, <- (Hkeep _ _ Hnz).
  by apply solved_distinct.
Qed.

End Solution.

(** X19. For every Board that some solved board extends (a board with a
    solution), [run] finishes; every value it writes is the value of that
    solution, so its result is still extended by the solution; and every
    written value differs from every non-zero value that the row, the
    column and the block hold at the moment of writing. *)
Theorem pencil_mark_follows_solution (fuel : nat) (g s : grid) :
  valid_board g → wf_grid s → solved s → keeps_clues g s → 82 ≤ fuel →
  ∃ g' log,
    PM.run fuel g = PM.Finished g' log
    ∧ keeps_clues g' s
    ∧ Forall (follows s) log
    ∧ Forall sound_at_call log.
Proof.
  intros Hvalid Hwfs Hsolved Hkeep Hfuel.
  destruct (run_spec fuel g Hvalid Hfuel) as (g' & log & Hrun & _).
  exists g', log. split; [done|].
  assert (solution_up s g PM.fresh) as Hup.
  { intros x y Hx Hy _. apply flags_at_fresh; [done..|].
    pose proof (solved_value s x y Hwfs Hsolved Hx Hy). lia. }
  unfold PM.run in Hrun.
  destruct (run_loop_follow s Hwfs Hsolved fuel g PM.fresh [] g' log Hvalid
              wf_cands_fresh Hup Hkeep Hrun) as (Hkeep' & new & -> & Hnew).
  cbn [app].
  split; [done|]. split; [done|].
  eapply Forall_impl; [done|]. by apply follows_sound_at_call.
Qed.

Lemma wf_testsolution : wf_grid testsolution.
Proof. split; [reflexivity|]. repeat constructor. Qed.

Lemma solved_testsolution : solved testsolution.
Proof. apply fitness_zero; [apply wf_testsolution|]. by vm_compute. Qed.

Lemma keeps_clues_check (g s : grid) :
  wf_grid g →
  Forall (λ c : coord, cell g c.1 c.2 ≠ 0%Z → cell s c.1 c.2 = cell g c.1 c.2)
         all_coords →
  keeps_clues g s.
Proof.
  intros Hwf Hall i j Hnz.
  destruct (cell_nonzero_bound g i j Hwf Hnz) as [Hi Hj].
  eapply Forall_forall in Hall; [|by apply (elem_of_all_coords (i, j))].
  by apply Hall.
Qed.

Lemma testsolution_extends : keeps_clues testgrid testsolution.
Proof.
  apply keeps_clues_check; [apply wf_testgrid|].
  by apply (bool_decide_unpack _).
Qed.

Lemma pencil_mark_follows_solution_witness :
  valid_board testgrid ∧ wf_grid testsolution ∧ solved testsolution
  ∧ keeps_clues testgrid testsolution ∧ 82 ≤ 82
  ∧ ∃ g' log,
      PM.run 82 testgrid = PM.Finished g' log
      ∧ keeps_clues g' testsolution
      ∧ Forall (follows testsolution) log
      ∧ Forall sound_at_call log.
Proof.
  split; [apply valid_testgrid|]. split; [apply wf_testsolution|].
  split; [apply solved_testsolution|]. split; [apply testsolution_extends|].
  split; [lia|].
  apply (pencil_mark_follows_solution 82 testgrid testsolution);
    [apply valid_testgrid|apply wf_testsolution|apply solved_testsolution
    |apply testsolution_extends|lia].
Defined.

(** ** SudokuObject: lists that are too short *)

Lemma rows_of_lookup (data : list Z) (k : nat) :
  k < 9 → rows_of data !! k = Some (take 9 (drop (9 * k) data)).
Proof.
  intros Hk. unfold rows_of.
  by rewrite list_lookup_fmap, lookup_seq_lt by done.
Qed.

Lemma length_rows_of (data : list Z) : length (rows_of data) = 9.
Proof. unfold rows_of. by rewrite length_fmap, length_seq. Qed.

(** Appending one element changes the slice it falls into, only. *)
Lemma rows_of_snoc (data : list Z) (n : Z) :
  length data < 81 →
  <[length data / 9 := take 9 (drop (9 * (length data / 9)) data) ++ [n]]>
    (rows_of data)
  = rows_of (data ++ [n]).
Proof.
  intros Hlen. set (i := length data) in *.
  pose proof (Nat.div_mod_eq i 9) as Hdiv.
  pose proof (Nat.mod_upper_bound i 9) as Hmod.
  set (q := i / 9) in *. set (m := i mod 9) in *.
  apply list_eq. intros k. rewrite list_lookup_insert, length_rows_of.
  destruct (decide (k < 9)) as [Hk|Hk].
  2:{ rewrite decide_False by lia.
      rewrite !lookup_ge_None_2; [done|rewrite length_rows_of; lia..]. }
  rewrite !rows_of_lookup by done. case_decide as Hq.
  - destruct Hq as [<- _]. f_equal.
    rewrite drop_app_le by (fold i; lia).
    rewrite (take_ge (drop (9 * q) data)) by (rewrite length_drop; fold i; lia).
    rewrite take_ge; [done|].
    rewrite length_app, length_drop. fold i. cbn [length]. lia.
  - f_equal. destruct (decide (k < q)) as [Hlt|Hge].
    + rewrite drop_app_le by (fold i; lia).
      rewrite take_app_le; [done|]. rewrite length_drop. fold i. lia.
    + rewrite !drop_ge; [done|rewrite ?length_app; cbn [length]; fold i; lia..].
Qed.

Lemma init_loop_rows_of (rest data : list Z) :
  length data + length rest ≤ 81 →
  init_loop (length data) rest (rows_of data) = Ok (rows_of (data ++ rest)).
Proof.
  revert data. induction rest as [|n rest IH]; intros data Hlen.
  { by rewrite app_nil_r. }
  cbn [init_loop length] in *.
  rewrite rows_of_lookup by (apply Nat.Div0.div_lt_upper_bound; lia).
  rewrite rows_of_snoc by lia.
  replace (S (length data)) with (length (data ++ [n]))
    by (rewrite length_app; cbn [length]; lia).
  rewrite IH by (rewrite length_app; cbn [length]; lia).
  by rewrite <- app_assoc.
Qed.

(** X20. [SudokuObject(sudoku_data)] does not check the length of its
    list: on at most 81 integers it succeeds, and row [i] of its grid is
    the slice [sudoku_data[9*i : 9*i+9]]; the grid has nine rows of nine
    cells only if the list has 81 elements. *)
Theorem new_short (data : list Z) :
  length data ≤ 81 →
  ∃ g, SudokuObject.new data = Ok g
       ∧ length g = 9
       ∧ (∀ i, i < 9 → g !! i = Some (take 9 (drop (9 * i) data)))
       ∧ (wf_grid g ↔ length data = 81).
Proof.
  intros Hlen. exists (rows_of data).
  split; [apply (init_loop_rows_of data []); cbn [length]; lia|].
  split; [apply length_rows_of|]. split; [apply rows_of_lookup|]. split.
  - intros [_ Hrows].
    pose proof (Forall_lookup_1 _ _ 8 _ Hrows (rows_of_lookup data 8 ltac:(lia)))
      as Hrow.
    cbn beta in Hrow. rewrite length_take, length_drop in Hrow. lia.
  - intros Hfull. split; [apply length_rows_of|].
    apply Forall_lookup. intros i row Hrow.
    assert (i < 9) as Hi.
    { rewrite <- (length_rows_of data). by eapply lookup_lt_Some. }
    rewrite rows_of_lookup in Hrow by done. injection Hrow as <-.
    rewrite length_take, length_drop. lia.
Qed.

Lemma new_short_witness :
  length [1; 2; 3]%Z ≤ 81
  ∧ ∃ g, SudokuObject.new [1; 2; 3]%Z = Ok g
         ∧ length g = 9
         ∧ (∀ i, i < 9 → g !! i = Some (take 9 (drop (9 * i) [1; 2; 3]%Z)))
         ∧ (wf_grid g ↔ length [1; 2; 3]%Z = 81).
Proof.
  split; [cbn [length]; lia|]. apply (new_short [1; 2; 3]%Z). cbn [length]. lia.
Defined.

(** ** SudokuPencilMark: cell values that are no symbols *)

(** [flags[k] = b] on nine flags raises unless [k] is from -9 to 8. *)
Lemma set_flag_any (p : list (list (list bool))) (x y : nat) (k : Z)
    (b : bool) :
  wf_cands p → x < 9 → y < 9 →
  if decide (-9 ≤ k < 9)%Z
  then ∃ p', PM.set_flag p x y k b = Ok p' ∧ wf_cands p'
  else PM.set_flag p x y k b = Raise IndexError.
Proof.
  intros Hwf Hx Hy.
  destruct (wf_cands_lookup p x y Hwf Hx Hy) as (r & f & Hr & Hf & _ & Hl & _).
  unfold PM.set_flag. rewrite Hr. cbn [mbind option_bind]. rewrite Hf, Hl.
  unfold py_index. change (Z.of_nat 9) with 9%Z.
  assert (∀ k', wf_cands (alter (alter (<[k' := b]>) y) x p)) as Hwf'.
  { intros k'. apply wf_cands_alter; [done|].
    intros f' Hf'. by rewrite length_insert. }
  repeat case_decide; try lia; eauto.
Qed.

Lemma clear_flags_any (rcs : list coord) (p : list (list (list bool)))
    (k : Z) :
  wf_cands p → (-9 ≤ k < 9)%Z →
  Forall (λ rc : coord, rc.1 < 9 ∧ rc.2 < 9) rcs →
  ∃ p', for_res rcs (λ p' rc, PM.set_flag p' rc.1 rc.2 k false) p = Ok p'
        ∧ wf_cands p'.
Proof.
  intros Hwf Hk Hrcs. revert p Hwf.
  induction Hrcs as [|rc rcs [Hrx Hry] _ IH]; intros p Hwf; [by exists p|].
  cbn [for_res].
  pose proof (set_flag_any p rc.1 rc.2 k false Hwf Hrx Hry) as Hset.
  rewrite decide_True in Hset by done. destruct Hset as (p1 & -> & Hwf1).
  cbn [mbind result_bind]. by apply IH.
Qed.

(** The body of the first double loop on a grid of any integers. *)
Lemma constrain_cell_any (g : grid) (p : list (list (list bool)))
    (c : coord) :
  wf_cands p → c.1 < 9 → c.2 < 9 →
  if decide (-8 ≤ cell g c.1 c.2 ≤ 9)%Z
  then ∃ p', PM.constrain_cell g p c = Ok p' ∧ wf_cands p'
  else PM.constrain_cell g p c = Raise IndexError.
Proof.
  intros Hwf Hc1 Hc2. unfold PM.constrain_cell.
  set (val := cell g c.1 c.2). cbn zeta.
  destruct (decide (val ≠ 0%Z)) as [Hnz|Hz].
  2:{ rewrite decide_True by lia. by exists p. }
  rewrite alter_insert_alter.
  set (p1 := alter (alter (λ _, replicate 9 false) c.2) c.1 p).
  assert (wf_cands p1) as Hwf1.
  { apply wf_cands_alter; [done|]. intros f _. by rewrite length_replicate. }
  pose proof (set_flag_any p1 c.1 c.2 (val - 1) true Hwf1 Hc1 Hc2) as Hset.
  destruct (decide (-8 ≤ val ≤ 9)%Z) as [Hv|Hv].
  - rewrite decide_True in Hset by lia. destruct Hset as (p2 & -> & Hwf2).
    cbn [mbind result_bind].
    apply clear_flags_any; [done|lia|by apply related_coords_bound].
  - rewrite decide_False in Hset by lia. by rewrite Hset.
Qed.

Lemma constrain_pass_any (cs : list coord) (g : grid)
    (p : list (list (list bool))) :
  indexable g → wf_cands p →
  Forall (λ c : coord, c.1 < 9 ∧ c.2 < 9) cs →
  ∃ p', for_res cs (PM.constrain_cell g) p = Ok p' ∧ wf_cands p'.
Proof.
  intros Hg Hwf Hcs. revert p Hwf.
  induction Hcs as [|c cs [Hc1 Hc2] _ IH]; intros p Hwf; [by exists p|].
  cbn [for_res].
  pose proof (constrain_cell_any g p c Hwf Hc1 Hc2) as Hcell.
  rewrite decide_True in Hcell by by apply Hg.
  destruct Hcell as (p1 & -> & Hwf1). cbn [mbind result_bind]. by apply IH.
Qed.

(** The first double loop raises at the latest at the first cell whose
    value cannot be used as an index. *)
Lemma constrain_pass_bad (cs : list coord) (g : grid)
    (p : list (list (list bool))) :
  wf_cands p → Forall (λ c : coord, c.1 < 9 ∧ c.2 < 9) cs →
  Exists (λ c : coord, ¬ (-8 ≤ cell g c.1 c.2 ≤ 9)%Z) cs →
  for_res cs (PM.constrain_cell g) p = Raise IndexError.
Proof.
  intros Hwf Hcs. revert p Hwf.
  induction Hcs as [|c cs [Hc1 Hc2] _ IH]; intros p Hwf Hbad.
  { by apply Exists_nil in Hbad. }
  cbn [for_res].
  pose proof (constrain_cell_any g p c Hwf Hc1 Hc2) as Hcell.
  case_decide as Hv.
  - destruct Hcell as (p1 & -> & Hwf1). cbn [mbind result_bind].
    apply IH; [done|]. by apply Exists_cons in Hbad as [?|?].
  - by rewrite Hcell.
Qed.

(** The second double loop never raises, and writes symbols only. *)
Lemma reveal_pass_any (cs : list coord) (p : list (list (list bool)))
    (round : grid) :
  wf_cands p → Forall (λ c : coord, c.1 < 9 ∧ c.2 < 9) cs →
  ∀ (g : grid) (n : nat) (log : list PM.write),
    wf_grid g → indexable g →
    ∃ g' n' log',
      for_res cs (PM.reveal_cell p round) (g, n, log) = Ok (g', n', log')
      ∧ wf_grid g' ∧ indexable g'.
Proof.
  intros Hwfp Hcs.
  induction Hcs as [|c cs [Hc1 Hc2] _ IH]; intros g n log Hwf Hg.
  { by exists g, n, log. }
  cbn [for_res].
  destruct (reveal_cell_spec p round g n log c)
    as [[_ ->]|(_ & _ & k & Hk & ->)]; cbn [mbind result_bind].
  { by apply IH. }
  apply IH; [by apply wf_grid_update|].
  intros i j Hi Hj. rewrite cell_update by done. case_decide; [|by apply Hg].
  apply lookup_lt_Some in Hk. rewrite length_flags_at in Hk by done. lia.
Qed.

Lemma run_loop_no_raise (fuel : nat) :
  ∀ (g : grid) (p : list (list (list bool))) (log : list PM.write) (e : exn),
    wf_grid g → indexable g → wf_cands p →
    PM.run_loop fuel g p log ≠ PM.Failed e.
Proof.
  induction fuel as [|fuel IH]; intros g p log e Hwf Hg Hwfp; [done|].
  cbn [PM.run_loop].
  destruct (constrain_pass_any all_coords g p Hg Hwfp all_coords_bound)
    as (p' & -> & Hwfp').
  destruct (reveal_pass_any all_coords p' g Hwfp' all_coords_bound g 0 log
              Hwf Hg) as (g' & n' & log' & -> & Hwf' & Hg').
  case_decide; [done|]. by apply IH.
Qed.

Lemma indexable_Forall (g : grid) :
  indexable g
  ↔ Forall (λ c : coord, (-8 ≤ cell g c.1 c.2 ≤ 9)%Z) all_coords.
Proof.
  rewrite Forall_forall. split.
  - intros Hg c [Hc1 Hc2]%elem_of_all_coords. by apply Hg.
  - intros Hall i j Hi Hj. by apply (Hall (i, j)), elem_of_all_coords.
Qed.

(** X21. On a 9x9 grid of integers, [run] raises exactly when some cell
    value is not from -8 to 9, and what it raises is IndexError, in the
    first double loop of the first round (before any call of [update]):
    a value from 10 on or from -9 down is no index of the nine flags,
    while -8 to -1 are accepted as indices from the end. *)
Theorem pencil_mark_index_error (fuel : nat) (g : grid) :
  wf_grid g → 0 < fuel →
  (PM.run fuel g = PM.Failed IndexError ↔ ¬ indexable g)
  ∧ (¬ indexable g →
     for_res all_coords (PM.constrain_cell g) PM.fresh = Raise IndexError)
  ∧ ∀ e, PM.run fuel g = PM.Failed e → e = IndexError.
Proof.
  intros Hwf Hfuel.
  assert (¬ indexable g →
          for_res all_coords (PM.constrain_cell g) PM.fresh
          = Raise IndexError) as Hbad.
  { intros Hg. rewrite indexable_Forall in Hg.
    apply not_Forall_Exists in Hg; [|apply _].
    apply constrain_pass_bad; [apply wf_cands_fresh|apply all_coords_bound|].
    done. }
  destruct fuel as [|fuel]; [lia|].
  destruct (decide (Forall (λ c : coord, (-8 ≤ cell g c.1 c.2 ≤ 9)%Z)
                           all_coords)) as [Hg|Hg];
    rewrite <- indexable_Forall in Hg.
  - pose proof (λ e, run_loop_no_raise (S fuel) g PM.fresh [] e Hwf Hg
                       wf_cands_fresh) as Hno.
    split; [|split]; [|done|].
    + split; [|done]. intros Hrun. by destruct (Hno IndexError).
    + intros e Hrun. by destruct (Hno e).
  - assert (PM.run (S fuel) g = PM.Failed IndexError) as Hrun.
    { unfold PM.run. cbn [PM.run_loop]. by rewrite Hbad. }
    split; [|split]; [done|done|].
    intros e. rewrite Hrun. by intros [= <-].
Qed.

Lemma pencil_mark_index_error_witness :
  wf_grid (update testgrid 0 0 10) ∧ 0 < 1
  ∧ (PM.run 1 (update testgrid 0 0 10) = PM.Failed IndexError
     ↔ ¬ indexable (update testgrid 0 0 10))
  ∧ (¬ indexable (update testgrid 0 0 10) →
     for_res all_coords (PM.constrain_cell (update testgrid 0 0 10)) PM.fresh
     = Raise IndexError)
  ∧ ∀ e, PM.run 1 (update testgrid 0 0 10) = PM.Failed e → e = IndexError.
Proof.
  split; [apply wf_grid_update, wf_testgrid|]. split; [lia|].
  apply (pencil_mark_index_error 1 (update testgrid 0 0 10));
    [apply wf_grid_update, wf_testgrid|lia].
Defined.
